(** * Phonetic transcription segmentation and validation: [check_chars.py]

    A shallow embedding of [check_char] (tokenizer, stress repositioner,
    validator) and of the per-entry loop over pronunciation variants,
    together with the phoneme inventory of [assets.py].

    A Python [str] is a sequence of Unicode code points: it is modelled as
    a list of code points ([N]).  Python dictionaries are [gmap]s with
    string keys, Python sets of strings are [gset]s. *)

From stdpp Require Import gmap strings list fin_maps.

Open Scope N_scope.

Abbreviation pystr := (list N).

(** ** Code points used by the program *)

Module Ch.
Definition space    : N := 0x20.
Definition lparen   : N := 0x28.
Definition rparen   : N := 0x29.
Definition dot      : N := 0x2e.   (* . *)
Definition slash    : N := 0x2f.   (* / *)
Definition lbracket : N := 0x5b.   (* [ *)
Definition a : N := 0x61.
Definition b : N := 0x62.
Definition d : N := 0x64.
Definition e : N := 0x65.
Definition f : N := 0x66.
Definition g : N := 0x67.
Definition h : N := 0x68.
Definition i : N := 0x69.
Definition j : N := 0x6a.
Definition k : N := 0x6b.
Definition l : N := 0x6c.
Definition m : N := 0x6d.
Definition n : N := 0x6e.
Definition p : N := 0x70.
Definition r : N := 0x72.
Definition s : N := 0x73.
Definition t : N := 0x74.
Definition u : N := 0x75.
Definition v : N := 0x76.
Definition w : N := 0x77.
Definition z : N := 0x7a.
Definition ash      : N := 0xe6.   (* æ *)
Definition eth      : N := 0xf0.   (* ð *)
Definition eng      : N := 0x14b.  (* ŋ *)
Definition turned_a : N := 0x250.  (* ɐ *)
Definition alpha    : N := 0x251.  (* ɑ *)
Definition turned_alpha : N := 0x252. (* ɒ *)
Definition open_o   : N := 0x254.  (* ɔ *)
Definition schwa    : N := 0x259.  (* ə *)
Definition schwa_hook : N := 0x25a. (* ɚ *)
Definition epsilon  : N := 0x25b.  (* ɛ *)
Definition rev_epsilon : N := 0x25c. (* ɜ *)
Definition small_i  : N := 0x26a.  (* ɪ *)
Definition turned_r : N := 0x279.  (* ɹ *)
Definition esh      : N := 0x283.  (* ʃ *)
Definition upsilon  : N := 0x28a.  (* ʊ *)
Definition turned_v : N := 0x28c.  (* ʌ *)
Definition ezh      : N := 0x292.  (* ʒ *)
Definition stress1  : N := 0x2c8.  (* ˈ primary stress *)
Definition stress2  : N := 0x2cc.  (* ˌ secondary stress *)
Definition long     : N := 0x2d0.  (* ː *)
Definition tie      : N := 0x361.  (* combining double inverted breve *)
Definition theta    : N := 0x3b8.  (* θ *)
End Ch.

(** ** assets.py: the phoneme inventory

    The sets are written in the order of the source literals.  Where the
    program iterates over one of these sets (to build a pattern) the order
    is the one below; Python does not fix the iteration order of a set.
    The order has no effect on what the program computes: a character
    class is used for membership only, the alternations of the tokenizer
    are used for [match] only ([matches_alts_order]), the two affricates
    begin with different characters, and the stress passes give the same
    string for every order of [VOWELS] ([stress_pass_order]). *)

Definition DIPTHONGS : list pystr :=
  [ [Ch.a; Ch.small_i]; [Ch.a; Ch.upsilon]; [Ch.e; Ch.small_i];
    [Ch.open_o; Ch.small_i]; [Ch.schwa; Ch.upsilon]; [Ch.epsilon; Ch.schwa];
    [Ch.small_i; Ch.schwa]; [Ch.upsilon; Ch.schwa] ].

Definition LONG_VOWELS : list pystr :=
  [ [Ch.i; Ch.long]; [Ch.u; Ch.long]; [Ch.alpha; Ch.long];
    [Ch.open_o; Ch.long]; [Ch.rev_epsilon; Ch.long] ].

Definition SHORT_VOWELS : list pystr :=
  [ [Ch.i]; [Ch.upsilon]; [Ch.ash]; [Ch.turned_a]; [Ch.turned_alpha];
    [Ch.schwa]; [Ch.epsilon]; [Ch.small_i] ].

Definition AFFRICATES : list pystr :=
  [ [Ch.d; Ch.ezh]; [Ch.t; Ch.esh] ].

Definition CONSONANTS : list pystr :=
  [ [Ch.p]; [Ch.b]; [Ch.t]; [Ch.d]; [Ch.k]; [Ch.g]; [Ch.f]; [Ch.v]; [Ch.s];
    [Ch.z]; [Ch.eth]; [Ch.theta]; [Ch.esh]; [Ch.ezh]; [Ch.m]; [Ch.n];
    [Ch.eng]; [Ch.j]; [Ch.l]; [Ch.w]; [Ch.turned_r]; [Ch.h];
    [Ch.stress1]; [Ch.stress2] ].

Definition REMOVE : pystr := [Ch.tie; Ch.dot].

(** ** Python string methods used by [check_char] *)

Definition is_prefix (p s : pystr) : bool := bool_decide (p `prefix_of` s).

(** [c in s] for a one-character string [c]. *)
Definition py_contains (c : N) (s : pystr) : bool := bool_decide (c ∈ s).

(** [s.strip(chars)]: leading and trailing characters of [chars] go. *)
Fixpoint py_lstrip (chars s : pystr) : pystr :=
  match s with
  | [] => []
  | c :: t => if bool_decide (c ∈ chars) then py_lstrip chars t else s
  end.

Definition py_strip (chars s : pystr) : pystr :=
  reverse (py_lstrip chars (reverse (py_lstrip chars s))).

(** [s.replace(old, new)] for a non-empty [old]: occurrences are found
    from left to right and do not overlap.  [skip] counts the characters
    of the occurrence just replaced that are still to be passed over. *)
Fixpoint replace_from (old new : pystr) (skip : nat) (s : pystr) : pystr :=
  match s with
  | [] => []
  | c :: t =>
      match skip with
      | S k => replace_from old new k t
      | O => if is_prefix old s
             then new ++ replace_from old new (pred (length old)) t
             else c :: replace_from old new O t
      end
  end.

Definition py_replace (old new s : pystr) : pystr := replace_from old new O s.

(** [sep.join(items)] *)
Fixpoint py_join (sep : pystr) (items : list pystr) : pystr :=
  match items with
  | [] => []
  | [x] => x
  | x :: rest => x ++ sep ++ py_join sep rest
  end.

(** [str.isspace] on one code point: the characters at which [s.split()]
    cuts. *)
Definition py_isspace (c : N) : bool :=
  ((0x09 <=? c) && (c <=? 0x0d)) || ((0x1c <=? c) && (c <=? 0x20))
  || (c =? 0x85) || (c =? 0xa0) || (c =? 0x1680)
  || ((0x2000 <=? c) && (c <=? 0x200a))
  || (c =? 0x2028) || (c =? 0x2029) || (c =? 0x202f) || (c =? 0x205f)
  || (c =? 0x3000).

(** [s.split()]: the maximal runs of non-whitespace characters, in order.
    [cur] is the run being read, reversed. *)
Fixpoint split_from (cur : pystr) (s : pystr) : list pystr :=
  match s with
  | [] => match cur with [] => [] | _ => [reverse cur] end
  | c :: t =>
      if py_isspace c
      then match cur with
           | [] => split_from [] t
           | _ => reverse cur :: split_from [] t
           end
      else split_from (c :: cur) t
  end.

Definition py_split (s : pystr) : list pystr := split_from [] s.

(** ** A backtracking matcher for the fragment of [re] the program uses

    Literal characters, character classes, [^], concatenation, ordered
    alternation and capturing groups.  [rmatch r at0 s] lists every way
    [r] matches a prefix of [s], in the order in which a backtracking
    engine tries them: matched text, the groups of [r] in numbering
    order ([None] for a group that took no part) and the rest of [s].
    [at0] says that [s] starts at position 0 of the subject string. *)

Inductive regex :=
| REps
| RChar (c : N)
| RClass (cs : pystr)
| RBos
| RSeq (r1 r2 : regex)
| RAlt (r1 r2 : regex)
| RGroup (r : regex).

Fixpoint ngroups (r : regex) : nat :=
  match r with
  | RSeq r1 r2 | RAlt r1 r2 => (ngroups r1 + ngroups r2)%nat
  | RGroup r => S (ngroups r)
  | _ => O
  end.

Definition mresult : Type := pystr * list (option pystr) * pystr.

Definition is_nil {A} (l : list A) : bool :=
  match l with [] => true | _ => false end.

Fixpoint rmatch (r : regex) (at0 : bool) (s : pystr) : list mresult :=
  match r with
  | REps => [([], [], s)]
  | RChar c =>
      match s with
      | x :: t => if x =? c then [([x], [], t)] else []
      | [] => []
      end
  | RClass cs =>
      match s with
      | x :: t => if bool_decide (x ∈ cs) then [([x], [], t)] else []
      | [] => []
      end
  | RBos => if at0 then [([], [], s)] else []
  | RSeq r1 r2 =>
      flat_map (fun '(m1, g1, s1) =>
                  map (fun '(m2, g2, s2) => (m1 ++ m2, g1 ++ g2, s2))
                      (rmatch r2 (at0 && is_nil m1) s1))
               (rmatch r1 at0 s)
  | RAlt r1 r2 =>
      map (fun '(m, g, s') => (m, g ++ replicate (ngroups r2) None, s'))
          (rmatch r1 at0 s)
      ++ map (fun '(m, g, s') => (m, replicate (ngroups r1) None ++ g, s'))
             (rmatch r2 at0 s)
  | RGroup r =>
      map (fun '(m, g, s') => (m, Some m :: g, s')) (rmatch r at0 s)
  end.

(** A literal string, and ['|'.join(items)] for a non-empty list. *)
Fixpoint rlit (s : pystr) : regex :=
  match s with
  | [] => REps
  | [c] => RChar c
  | c :: t => RSeq (RChar c) (rlit t)
  end.

Fixpoint ralts (items : list pystr) : regex :=
  match items with
  | [] => REps
  | [x] => rlit x
  | x :: rest => RAlt (rlit x) (ralts rest)
  end.

Fixpoint rseq (rs : list regex) : regex :=
  match rs with
  | [] => REps
  | [r] => r
  | r :: rest => RSeq r (rseq rest)
  end.

(** [pattern.match(s)]: the first way to match at position 0, if any. *)
Definition re_match (r : regex) (s : pystr) : option mresult :=
  head (rmatch r true s).

Definition matches (r : regex) (s : pystr) : bool :=
  match re_match r s with Some _ => true | None => false end.

(** Replacement templates: literal text and group references [\n]. *)
Inductive titem := TLit (s : pystr) | TRef (n : nat).

Definition expand_item (m : pystr) (gs : list (option pystr)) (it : titem)
  : pystr :=
  match it with
  | TLit s => s
  | TRef O => m
  | TRef (S n) => default [] (mjoin (gs !! n))
  end.

Definition expand (tpl : list titem) (m : pystr) (gs : list (option pystr))
  : pystr :=
  flat_map (expand_item m gs) tpl.

(** [re.sub(pattern, repl, s)]: the subject is scanned from left to right;
    where the pattern matches, the expansion of [repl] replaces the match
    and the scan resumes after it.  All patterns of the program consume at
    least one character; an empty match is treated as no match.  [skip]
    counts the characters of the last match still to be passed over. *)
Fixpoint sub_from (r : regex) (tpl : list titem) (skip : nat) (at0 : bool)
    (s : pystr) : pystr :=
  match s with
  | [] => []
  | c :: t =>
      match skip with
      | S k => sub_from r tpl k false t
      | O =>
          match head (rmatch r at0 s) with
          | Some ((_ :: m') as m, gs, _) =>
              expand tpl m gs ++ sub_from r tpl (length m') false t
          | _ => c :: sub_from r tpl O false t
          end
      end
  end.

Definition re_sub (r : regex) (tpl : list titem) (s : pystr) : pystr :=
  sub_from r tpl O true s.

(** ** check_chars.py: module-level patterns *)

Definition PHONEMES : list pystr :=
  CONSONANTS ++ AFFRICATES ++ SHORT_VOWELS ++ LONG_VOWELS ++ DIPTHONGS.

(** [sorted(l, key=len, reverse=True)]: a stable sort, longest first. *)
Fixpoint insert_by_len (x : pystr) (l : list pystr) : list pystr :=
  match l with
  | [] => [x]
  | y :: t => if (length x <? length y)%nat
              then y :: insert_by_len x t
              else x :: l
  end.

Definition sorted_len_desc (l : list pystr) : list pystr :=
  foldr insert_by_len [] l.

Definition regex_phonemes : regex := RGroup (ralts (sorted_len_desc PHONEMES)).

(** [a[0] for a in ...] *)
Definition heads (l : list pystr) : list pystr := take 1 <$> l.

Definition first_char_biphone : regex :=
  RGroup (ralts (heads AFFRICATES ++ heads LONG_VOWELS ++ heads DIPTHONGS)).

Definition is_biphone : regex :=
  RGroup (ralts (AFFRICATES ++ LONG_VOWELS ++ DIPTHONGS)).

Definition VOWELS : list pystr := SHORT_VOWELS ++ LONG_VOWELS ++ DIPTHONGS.

(** ** Values, dictionaries and exceptions *)

Inductive pyval :=
| PyNone
| PyStr (s : pystr)
| PyList (l : list pystr).

Inductive exn := TypeError | AttributeError | UnboundLocalError | IndexError.

Inductive res (A : Type) :=
| Ok (a : A)
| Raise (e : exn).
Arguments Ok {A} a.
Arguments Raise {A} e.

#[global] Instance res_ret : MRet res := @Ok.
#[global] Instance res_bind : MBind res := fun A B f m =>
  match m with Ok a => f a | Raise e => Raise e end.
#[global] Instance res_fmap : FMap res := fun A B f m =>
  match m with Ok a => Ok (f a) | Raise e => Raise e end.

(** [d.get(k)] *)
Definition dict_get (d : gmap string pyval) (k : string) : pyval :=
  default PyNone (d !! k).

(** [c in v] for a one-character string [c] *)
Definition py_in (c : N) (v : pyval) : res bool :=
  match v with
  | PyNone => Raise TypeError
  | PyStr s => Ok (py_contains c s)
  | PyList l => Ok (bool_decide ([c] ∈ l))
  end.

(** The receiver of a [str] method. *)
Definition as_str (v : pyval) : res pystr :=
  match v with
  | PyStr s => Ok s
  | _ => Raise AttributeError
  end.

(** Truth value of [v] in a condition. *)
Definition truthy (v : pyval) : bool :=
  match v with
  | PyNone => false
  | PyStr s => negb (is_nil s)
  | PyList l => negb (is_nil l)
  end.

(** ** check_char: the tokenizer loop (lines 51-74)

    [ipa_all] is a list of three-element lists [[ipa[c], c, c+1]].  The loop
    variable [c] is an element of [ipa_all], so the assignment to [c[0]]
    updates [ipa_all] in place, and [ipa_all[-1][0]] reads the last cell
    as it stands at that moment.  [last_c] is unbound until the first
    iteration has assigned it. *)

Record scan_state := ScanState {
  ipa_all : list (pystr * nat * nat);
  last_was_biphone : bool;
  last_c : option pystr;
  phones : list pystr;
  error : bool
}.

Definition make_ipa_all (ipa : pystr) : list (pystr * nat * nat) :=
  imap (fun c x => ([x], c, S c)) ipa.

Definition scan_init (ipa : pystr) : scan_state :=
  ScanState (make_ipa_all ipa) false None [] false.

(** [ipa_all[-1]] *)
Definition py_last {A} (l : list A) : res A :=
  match last l with
  | Some x => Ok x
  | None => Raise IndexError
  end.

Definition read_local {A} (v : option A) : res A :=
  match v with
  | Some x => Ok x
  | None => Raise UnboundLocalError
  end.

(** One iteration of [for c in ipa_all], at index [i]. *)
Definition loop_body (i : nat) (st : scan_state) : res scan_state :=
  match ipa_all st !! i with
  | None => Raise IndexError
  | Some (c0_old, lo, hi) =>
      let c0 := py_replace [Ch.schwa_hook] [Ch.schwa] c0_old in
      let cells := <[i := (c0, lo, hi)]> (ipa_all st) in
      st' ←
        (if last_was_biphone st then
           lc ← read_local (last_c st);
           if matches is_biphone (lc ++ c0) then
             Ok (ScanState cells false (last_c st)
                           (phones st ++ [lc ++ c0]) (error st))
           else if matches regex_phonemes c0 then
             Ok (ScanState cells false (last_c st)
                           (phones st ++ [lc] ++ [c0]) (error st))
           else
             Ok (ScanState cells false (last_c st) (phones st) true)
         else
           opens ←
             (if matches first_char_biphone c0 then
                fin ← py_last cells;
                Ok (negb (bool_decide (fin.1.1 = c0)))
              else Ok false);
           if (opens : bool) then
             Ok (ScanState cells true (last_c st) (phones st) (error st))
           else
             Ok (ScanState cells false (last_c st)
                           (phones st ++ [c0]) (error st)));
      Ok (ScanState (ipa_all st') (last_was_biphone st') (Some c0)
                    (phones st') (error st'))
  end.

(** The iterations with indices [i], [i+1], ..., [i+n-1]. *)
Fixpoint run_loop (n : nat) (i : nat) (st : scan_state) : res scan_state :=
  match n with
  | O => Ok st
  | S n' => st' ← loop_body i st; run_loop n' (S i) st'
  end.

(** The state after the first [k] iterations of the loop over [ipa]. *)
Definition scan_upto (ipa : pystr) (k : nat) : res scan_state :=
  run_loop k O (scan_init ipa).

Definition tokenize (ipa : pystr) : res scan_state :=
  scan_upto ipa (length ipa).

(** ** check_char: stress repositioning (lines 78-87) *)

Definition CONS_OR_AFF : regex :=
  RGroup (RAlt (RClass (concat CONSONANTS)) (ralts AFFRICATES)).

Definition stress_boundary : regex := RGroup (RAlt (RChar Ch.space) RBos).
Definition stress_marker : regex := RGroup (RClass [Ch.stress2; Ch.stress1]).

(** The pattern with [k] consonants or affricates between the marker and
    the vowel; [vs] is the iteration order of the set [VOWELS]. *)
Definition stress_pattern (vs : list pystr) (k : nat) : regex :=
  rseq ([stress_boundary; stress_marker]
        ++ mjoin (replicate k [RChar Ch.space; CONS_OR_AFF])
        ++ [RChar Ch.space; RGroup (ralts vs)]).

(** [r"\1\3 \4 ... \2\(k+3)"] *)
Definition stress_template (k : nat) : list titem :=
  [TRef 1]
  ++ flat_map (fun i => [TRef (3 + i); TLit [Ch.space]]) (seq 0 k)
  ++ [TRef 2; TRef (3 + k)].

Definition stress_pass (vs : list pystr) (k : nat) (s : pystr) : pystr :=
  re_sub (stress_pattern vs k) (stress_template k) s.

Definition phones_str4_of (phones_str : pystr) : pystr :=
  let phones_str1 := stress_pass VOWELS 4 phones_str in
  let phones_str2 := stress_pass VOWELS 3 phones_str1 in
  let phones_str3 := stress_pass VOWELS 2 phones_str2 in
  stress_pass VOWELS 1 phones_str3.

Definition phones_str7_of (phones_str : pystr) : pystr :=
  let phones_str4 := phones_str4_of phones_str in
  let phones_str5 :=
    py_replace [Ch.space; Ch.space] [Ch.space]
               (py_strip [Ch.space] phones_str4) in
  let phones_str6 := re_sub (RClass REMOVE) [] phones_str5 in
  py_replace [Ch.stress1; Ch.space] [Ch.stress1]
             (py_replace [Ch.stress2; Ch.space] [Ch.stress2] phones_str6).

(** Line 87: computed by [check_char], and not used afterwards. *)
Definition phones_str8_of (phones_str7 : pystr) : pystr :=
  py_replace [Ch.t; Ch.space; Ch.esh] [Ch.t; Ch.esh]
             (py_replace [Ch.d; Ch.space; Ch.ezh] [Ch.d; Ch.ezh] phones_str7).

(** ** check_char: the final check (lines 89-99) *)

Definition PHONEMES_set : gset pystr :=
  list_to_set (DIPTHONGS ++ LONG_VOWELS ++ SHORT_VOWELS
               ++ AFFRICATES ++ CONSONANTS).

Definition remove_stress (s : pystr) : pystr :=
  re_sub (RClass [Ch.stress1; Ch.stress2]) [] s.

Definition final_check (phones_str7 : pystr) : bool :=
  let units : gset pystr := list_to_set (py_split (remove_stress phones_str7)) in
  bool_decide (PHONEMES_set ∩ units = units).

(** [ipa = entry.get('ipa').strip('/')] and the three [replace]s. *)
Definition clean_ipa (raw : pystr) : pystr :=
  py_replace [Ch.lparen; Ch.schwa; Ch.rparen] []
    (py_replace [Ch.lparen; Ch.turned_r; Ch.rparen] []
       (py_replace [Ch.dot] [] (py_strip [Ch.slash] raw))).

(** ** check_char *)

Definition check_char (entry : gmap string pyval)
  : res (bool * gmap string pyval) :=
  (* line 46: the flag set here is reassigned at line 56 *)
  _ ← py_in Ch.lbracket (dict_get entry "ipa");
  raw ← as_str (dict_get entry "ipa");
  let ipa := clean_ipa raw in
  st ← tokenize ipa;
  let phones_str := py_join [Ch.space] (phones st) in
  let phones_str7 := phones_str7_of phones_str in
  let phones_str8 := phones_str8_of phones_str7 in
  let error := if final_check phones_str7 then error st else true in
  Ok (error, <["ipa" := PyStr phones_str7]> entry).

(** ** The loop over the pronunciation variants of one entry (lines 131-144) *)

Fixpoint clean_sounds (variants : list (gmap string pyval))
    (sounds : list (gmap string pyval)) : res (list (gmap string pyval)) :=
  match variants with
  | [] => Ok sounds
  | s :: rest =>
      if truthy (dict_get s "ipa") then
        '(rejected, data) ←
          check_char {[ "ipa" := dict_get s "ipa"; "tags" := dict_get s "tags" ]};
        if (rejected : bool) then Ok sounds
        else clean_sounds rest (sounds ++ [data])
      else clean_sounds rest sounds
  end.

(** ** Entries as objects

    [check_char] receives a reference to a dictionary, updates that
    dictionary in place ([entry.update]) and returns the same reference.
    The store maps references to dictionaries; nothing is written before
    the last statement, so a call that raises leaves the store as it was. *)

Definition check_char_obj (h : gmap nat (gmap string pyval)) (l : nat)
  : res (bool * nat) * gmap nat (gmap string pyval) :=
  match h !! l with
  | None => (Raise TypeError, h)
  | Some entry =>
      match check_char entry with
      | Ok (error, entry') => (Ok (error, l), <[l := entry']> h)
      | Raise e => (Raise e, h)
      end
  end.

(** *** Evaluation on concrete transcriptions *)

Definition entry_of (ipa : pystr) : gmap string pyval :=
  {[ "ipa" := PyStr ipa; "tags" := PyNone ]}.

Definition run (ipa : pystr) : option (bool * pystr) :=
  match check_char (entry_of ipa) with
  | Ok (e, r) => match r !! "ipa" with Some (PyStr s) => Some (e, s) | _ => None end
  | Raise _ => None
  end.

(** ** Auxiliary definitions for the proofs *)

Definition lit_result (x s : pystr) : list mresult :=
  if is_prefix x s then [(x, [], drop (length x) s)] else [].

Definition BIPHONES : list pystr := AFFRICATES ++ LONG_VOWELS ++ DIPTHONGS.

(** The characters that can begin a biphone. *)
Definition biphone_openers : list pystr := heads BIPHONES.

Definition fold_hook (x : N) : N :=
  if x =? Ch.schwa_hook then Ch.schwa else x.

Definition cells_at (ipa : pystr) (k : nat) : list (pystr * nat * nat) :=
  imap (fun j x => ([if bool_decide (j < k)%nat then fold_hook x else x], j, S j))
       ipa.

Definition scan_inv (ipa : pystr) (k : nat) (st : scan_state) : Prop :=
  ipa_all st = cells_at ipa k
  ∧ last_c st = match k with
                | O => None
                | S j => (fun x => [fold_hook x]) <$> ipa !! j
                end
  ∧ (k = O → last_was_biphone st = false).

(** What iteration [k] does to the state, given the raw character [x] at
    index [k]: the effect of [loop_body] written without the cells. *)
Definition opens_at (ipa : pystr) (k : nat) (c : N) : bool :=
  bool_decide ([c] ∈ biphone_openers)
  && bool_decide (S k < length ipa)%nat
  && negb (bool_decide (last ipa = Some c)).

Definition step_spec (ipa : pystr) (k : nat) (x : N) (st : scan_state)
  : scan_state :=
  let c := fold_hook x in
  let cells := cells_at ipa (S k) in
  if last_was_biphone st then
    let lc := default [] (last_c st) in
    if matches is_biphone (lc ++ [c]) then
      ScanState cells false (Some [c]) (phones st ++ [lc ++ [c]]) (error st)
    else if bool_decide ([c] ∈ PHONEMES) then
      ScanState cells false (Some [c]) (phones st ++ [lc; [c]]) (error st)
    else
      ScanState cells false (Some [c]) (phones st) true
  else if opens_at ipa k c then
    ScanState cells true (Some [c]) (phones st) (error st)
  else
    ScanState cells false (Some [c]) (phones st ++ [[c]]) (error st).

(** The state after [k] iterations, as a function. *)
Fixpoint scan_spec (ipa : pystr) (k : nat) : scan_state :=
  match k with
  | O => scan_init ipa
  | S j =>
      match ipa !! j with
      | Some x => step_spec ipa j x (scan_spec ipa j)
      | None => scan_spec ipa j
      end
  end.

(** The string that [check_char] stores under ['ipa'], from the final
    state of the loop. *)
Definition normalized (st : scan_state) : pystr :=
  phones_str7_of (py_join [Ch.space] (phones st)).

Definition strut_stream : pystr :=
  [Ch.stress1; Ch.space; Ch.s; Ch.space; Ch.t; Ch.space; Ch.r; Ch.space;
   Ch.turned_v; Ch.space; Ch.k; Ch.space; Ch.esh; Ch.space; Ch.schwa;
   Ch.space; Ch.n].

Definition strut_expected : pystr :=
  [Ch.s; Ch.space; Ch.t; Ch.space; Ch.r; Ch.space; Ch.stress1; Ch.turned_v;
   Ch.space; Ch.k; Ch.space; Ch.esh; Ch.space; Ch.schwa; Ch.space; Ch.n].

Definition variant_arg (s : gmap string pyval) : gmap string pyval :=
  {[ "ipa" := dict_get s "ipa"; "tags" := dict_get s "tags" ]}.

(** The flag and the string of a call on a record whose ['ipa'] is [raw]. *)
Definition engine (raw : pystr) : bool * pystr :=
  let st := scan_spec (clean_ipa raw) (length (clean_ipa raw)) in
  (error st || negb (final_check (normalized st)), normalized st).

(** One phoneme of the inventory, alone or behind one stress marker. *)
Definition single_units : list pystr :=
  flat_map (fun p => [p; Ch.stress1 :: p; Ch.stress2 :: p]) PHONEMES.

(** ** The claims that fail, as stated *)

(** C1, as stated.  A biphone at positions [k], [k+1] of the transcription
    comes out of the two iterations that read it as one token. *)
Definition biphone_precedence : Prop :=
  ∀ (ipa : pystr) (k : nat) (a b : N) (st st2 : scan_state),
    ipa !! k = Some a → ipa !! S k = Some b → [a; b] ∈ BIPHONES →
    scan_upto ipa k = Ok st → scan_upto ipa (S (S k)) = Ok st2 →
    phones st2 = phones st ++ [[a; b]].

(** C2, as stated: at every position the scanner is pending after the
    iteration exactly when the current character opens a biphone and
    differs from the final character. *)
Definition pending_iff_opener : Prop :=
  ∀ (ipa : pystr) (k : nat) (c : N) (st' : scan_state),
    ipa !! k = Some c → scan_upto ipa (S k) = Ok st' →
    (last_was_biphone st' = true
     ↔ [fold_hook c] ∈ biphone_openers ∧ last ipa ≠ Some (fold_hook c)).

(** C3, as stated: the stream [ˈ s t r ʌ k ʃ ə n] is rewritten to
    [s t r ˈʌ k ʃ ə n]. *)
Definition strut_example : Prop :=
  phones_str7_of strut_stream = strut_expected.

(** C4, as stated: wherever a marker is followed by at most four
    consonant or affricate tokens and a vowel token, the output has the
    marker immediately in front of that vowel. *)
Definition stress_relocation : Prop :=
  ∀ (pre cl post : list pystr) (m : N) (v : pystr),
    m = Ch.stress1 ∨ m = Ch.stress2 →
    Forall (fun t => t ∈ CONSONANTS ++ AFFRICATES) cl →
    (length cl ≤ 4)%nat →
    v ∈ VOWELS →
    ∃ X Y, phones_str7_of (py_join [Ch.space] (pre ++ [m] :: cl ++ v :: post))
           = X ++ m :: v ++ Y.

(** C5, as stated: a second run on the output of a run gives the same
    output, and no error when the first run gave none. *)
Definition idempotence : Prop :=
  ∀ (raw out : pystr) (e : bool),
    run raw = Some (e, out) →
    ∃ e', run out = Some (e', out) ∧ (e = false → e' = false).

(** C7, as stated: of three variants of which the first and the third
    validate and the second does not, the first alone is accepted. *)
Definition abort_on_first_failure : Prop :=
  ∀ (V1 V2 V3 r1 r2 r3 : gmap string pyval) (i1 i2 i3 : pystr),
    V1 !! "ipa" = Some (PyStr i1) →
    V2 !! "ipa" = Some (PyStr i2) →
    V3 !! "ipa" = Some (PyStr i3) →
    check_char (variant_arg V1) = Ok (false, r1) →
    check_char (variant_arg V2) = Ok (true, r2) →
    check_char (variant_arg V3) = Ok (false, r3) →
    clean_sounds [V1; V2; V3] [] = Ok [r1].

(** ** Auxiliary definitions for the stress passes *)

Definition is_marker (c : N) : bool :=
  bool_decide (c ∈ [Ch.stress2; Ch.stress1]).

(** The part of a stress pattern after the marker. *)
Fixpoint tail_pattern (vs : list pystr) (k : nat) : regex :=
  match k with
  | O => RSeq (RChar Ch.space) (RGroup (ralts vs))
  | S k' => RSeq (RChar Ch.space) (RSeq CONS_OR_AFF (tail_pattern vs k'))
  end.

(** [" c1 c2 ... ck"] and ["c1 c2 ... ck "] *)
Definition onset (cs : list pystr) : pystr :=
  mjoin ((fun c => Ch.space :: c) <$> cs).

Definition onset' (cs : list pystr) : pystr :=
  mjoin ((fun c => c ++ [Ch.space]) <$> cs).

(** The alternative of [VOWELS] that matches first where [v] stands. *)
Definition first_alt (v : pystr) : pystr :=
  if bool_decide (take 1 v ∈ SHORT_VOWELS) then take 1 v else v.

Definition needs_space (r : regex) : Prop :=
  ∀ b s, head s ≠ Some Ch.space → rmatch r b s = [].

Definition cons_or_aff (c : pystr) : Prop :=
  (∃ x, c = [x] ∧ x ∈ mjoin CONSONANTS) ∨ c ∈ AFFRICATES.

(** A string without stress markers in which every space is followed by
    a character: no stress pattern matches at any of its positions. *)
Fixpoint guarded (p q : N → bool) (U : pystr) : bool :=
  match U with
  | [] => true
  | c :: t =>
      (if p c then match t with d :: _ => q d | [] => false end else true)
      && guarded p q t
  end.

Definition quiet (U : pystr) : bool :=
  forallb (fun c => negb (is_marker c)) U
  && guarded (fun c => c =? Ch.space) (fun c => negb (is_marker c)) U.

(** Tokens without stress markers and without spaces at their ends. *)
Definition calm (t : pystr) : Prop := t ≠ [] ∧ quiet t = true.

Definition at_boundary (bd : pystr) (b : bool) : Prop :=
  bd = [Ch.space] ∨ (bd = [] ∧ b = true).

Definition tail_pass (j : nat) (R : pystr) : pystr :=
  sub_from (stress_pattern VOWELS j) (stress_template j) O false R.

Definition tail_passes (R : pystr) : pystr :=
  tail_pass 1 (tail_pass 2 (tail_pass 3 (tail_pass 4 R))).

Definition py_rstrip (chars s : pystr) : pystr :=
  reverse (py_lstrip chars (reverse s)).

Definition solid (t : pystr) : bool :=
  negb (is_nil t)
  && forallb (fun c => negb (is_marker c) && negb (c =? Ch.space)
                       && negb (bool_decide (c ∈ REMOVE))) t.

Definition sturdy (Q : pystr) : bool :=
  match Q with [] => false | c :: _ => negb (c =? Ch.space) end
  && guarded (fun c => c =? Ch.space) (fun d => negb (d =? Ch.space)) Q
  && forallb (fun c => negb (bool_decide (c ∈ REMOVE))) Q.

Definition fuse_guard (a : N) (Q : pystr) : bool :=
  guarded (fun c => c =? a) (fun d => negb (d =? Ch.space)) Q.

(** Strip, collapse of doubled spaces and removal of the marks of
    [REMOVE], on a sturdy prefix. *)
Definition tidy_tail (Y : pystr) : pystr :=
  filter (fun c => c ∉ REMOVE)
         (replace_from [Ch.space; Ch.space] [Ch.space] O
                       (py_rstrip [Ch.space] Y)).

Definition plain (t : pystr) : Prop :=
  t ∈ PHONEMES ∧ t ≠ [Ch.stress1] ∧ t ≠ [Ch.stress2].

Definition plain_onset (t : pystr) : Prop :=
  t ∈ CONSONANTS ++ AFFRICATES ∧ t ≠ [Ch.stress1] ∧ t ≠ [Ch.stress2].

Definition finish (s4 : pystr) : pystr :=
  py_replace [Ch.stress1; Ch.space] [Ch.stress1]
    (py_replace [Ch.stress2; Ch.space] [Ch.stress2]
       (re_sub (RClass REMOVE) []
          (py_replace [Ch.space; Ch.space] [Ch.space]
             (py_strip [Ch.space] s4)))).

Definition fuse_tail (Y : pystr) : pystr :=
  py_replace [Ch.stress1; Ch.space] [Ch.stress1]
    (py_replace [Ch.stress2; Ch.space] [Ch.stress2] (tidy_tail Y)).

(** The continuation of a match by the vowel group of the pattern. *)
Definition then_vowel (vs : list pystr) (front : mresult) : list mresult :=
  let '(m1, g1, s1) := front in
  map (fun '(v', g, rest) => (m1 ++ v', g1 ++ g, rest))
      (rmatch (RGroup (ralts vs)) false s1).

(** The stress pattern without its vowel group. *)
Fixpoint front_tail (k : nat) : regex :=
  match k with
  | O => RChar Ch.space
  | S k' => RSeq (RChar Ch.space) (RSeq CONS_OR_AFF (front_tail k'))
  end.

Definition front_pattern (k : nat) : regex :=
  RSeq stress_boundary (RSeq stress_marker (front_tail k)).

(** All references of the template but the last are to groups of the
    front. *)
Definition front_item (n : nat) (it : titem) : Prop :=
  match it with
  | TLit _ => True
  | TRef O => False
  | TRef (S i) => (i < n)%nat
  end.

(** ** Auxiliary definitions for sequences with several stress markers *)

(** A stretch of the token sequence around one stress marker: the tokens
    in front of the marker, the marker, the onset and the vowel. *)
Record syllable := Syllable {
  syl_lead : list pystr;
  syl_mark : N;
  syl_onset : list pystr;
  syl_vowel : pystr
}.

(** The tokens of a syllable as the tokenizer emits them, and with the
    marker moved in front of the vowel. *)
Definition spelled (g : syllable) : list pystr :=
  syl_lead g ++ [syl_mark g] :: syl_onset g ++ [syl_vowel g].

Definition relocated (g : syllable) : list pystr :=
  syl_lead g ++ syl_onset g ++ [syl_mark g :: syl_vowel g].

Definition well_formed (g : syllable) : Prop :=
  Forall plain (syl_lead g)
  ∧ (syl_mark g = Ch.stress1 ∨ syl_mark g = Ch.stress2)
  ∧ Forall plain_onset (syl_onset g)
  ∧ (length (syl_onset g) ≤ 4)%nat
  ∧ syl_vowel g ∈ VOWELS.

(** The tokens of a syllable after the pass for onsets of [j] tokens, and
    after the four passes. *)
Definition after_pass (j : nat) (g : syllable) : list pystr :=
  if bool_decide (length (syl_onset g) = j) then relocated g else spelled g.

Definition after_passes (g : syllable) : list pystr :=
  if is_nil (syl_onset g) then spelled g else relocated g.

(** A syllable with a flag: has its marker been moved? *)
Definition show (b : bool * syllable) : list pystr :=
  if b.1 then relocated b.2 else spelled b.2.

Definition pass_step (j : nat) (b : bool * syllable) : bool * syllable :=
  (b.1 || bool_decide (length (syl_onset b.2) = j), b.2).

Definition fuse_step (a : N) (b : bool * syllable) : bool * syllable :=
  (b.1 || (syl_mark b.2 =? a), b.2).

(** The text of a token sequence at the start of the string ([b]) and
    behind other tokens; [strp] is the text in front of a further token. *)
Definition str (b : bool) (ts : list pystr) : pystr :=
  if b then py_join [Ch.space] ts else onset ts.

Definition strp (b : bool) (ts : list pystr) : pystr :=
  if b then onset' ts else onset ts ++ [Ch.space].

Definition settle (g : syllable) : bool * syllable :=
  (negb (is_nil (syl_onset g)), g).

Definition settled (b : bool * syllable) : Prop :=
  b.1 = true ∨ syl_onset b.2 = [].

(** ** Auxiliary definitions for the tokens and for the stored string *)

(** The character held back by a pending scanner. *)
Definition held (st : scan_state) : pystr :=
  if last_was_biphone st then default [] (last_c st) else [].

(** A token as the loop can emit it. *)
Definition token_shape (t : pystr) : Prop :=
  (∃ c, t = [c]) ∨ t ∈ BIPHONES.

(** Spaces, stress markers and the marks of [REMOVE] are layout; what is
    left of a string without them is its phonetic content. *)
Definition is_layout (c : N) : bool :=
  (c =? Ch.space) || is_marker c || bool_decide (c ∈ REMOVE).

Definition phonetic (s : pystr) : pystr :=
  filter (fun c => is_layout c = false) s.

(** A character that is no whitespace, occurs in no phoneme of the
    inventory and is not touched by the cleaning of the transcription or by
    the removal of [REMOVE]. *)
Definition foreign (x : N) : bool :=
  negb (py_isspace x)
  && negb (bool_decide (x ∈ mjoin PHONEMES))
  && negb (bool_decide (x ∈ [Ch.slash; Ch.dot; Ch.lparen; Ch.rparen; Ch.tie;
                             Ch.schwa_hook])).

(** ** check_chars.py, line 129: the filter on the head word

    [re.match("^[a-zA-Z]*[-.']*[a-zA-Z]+$", word)].  The pattern is a
    sequence of character classes under [*] or [+] between [^] and [$];
    the matcher backtracks over the number of characters that each class
    takes, longest first, and only the outcome (a match or none) is
    used. *)

Inductive witem :=
| WStar (cls : N → bool)
| WPlus (cls : N → bool).

(** [[a-zA-Z]] and [[-.']] *)
Definition is_ascii_letter (c : N) : bool :=
  ((0x61 <=? c) && (c <=? 0x7a)) || ((0x41 <=? c) && (c <=? 0x5a)).

Definition is_word_punct (c : N) : bool :=
  (c =? 0x2d) || (c =? 0x2e) || (c =? 0x27).

(** [$] without [re.MULTILINE]: at the end of the string, and in front of
    a newline that ends the string. *)
Definition at_dollar (s : pystr) : bool :=
  match s with
  | [] => true
  | [c] => c =? 0x0a
  | _ => false
  end.

(** [cls*] followed by what [k] matches. *)
Fixpoint class_star (cls : N → bool) (k : pystr → bool) (s : pystr) : bool :=
  match s with
  | c :: t => if cls c then class_star cls k t || k s else k s
  | [] => k []
  end.

(** [cls+] followed by what [k] matches. *)
Definition class_plus (cls : N → bool) (k : pystr → bool) (s : pystr) : bool :=
  match s with
  | c :: t => if cls c then class_star cls k t else false
  | [] => false
  end.

Fixpoint match_items (items : list witem) (s : pystr) : bool :=
  match items with
  | [] => at_dollar s
  | WStar cls :: rest => class_star cls (match_items rest) s
  | WPlus cls :: rest => class_plus cls (match_items rest) s
  end.

Definition word_pattern : list witem :=
  [WStar is_ascii_letter; WStar is_word_punct; WPlus is_ascii_letter].

Definition word_match (word : pystr) : bool := match_items word_pattern word.

(** ** check_chars.py, lines 117-176: the program around [check_char]

    The lines of the input are [json.loads]ed: a line is an arbitrary JSON
    value.  The program reads numbers for their truth value only; of the
    numbers the integers are modelled. *)

#[warnings="-register-all"]
Inductive json :=
| JNull
| JBool (b : bool)
| JNum (z : Z)
| JStr (s : pystr)
| JArr (l : list json)
| JObj (o : gmap string json).

(** Truth value of [v] in a condition. *)
Definition json_truthy (v : json) : bool :=
  match v with
  | JNull => false
  | JBool b => b
  | JNum z => negb (z =? 0)%Z
  | JStr s => negb (is_nil s)
  | JArr l => negb (is_nil l)
  | JObj o => negb (is_nil (map_to_list o))
  end.

(** The exceptions of this part of the program: those of [check_char],
    and [KeyError]. *)
Inductive pyexn :=
| Exn (e : exn)
| KeyError.

Inductive outcome (A : Type) :=
| Return (a : A)
| Throw (e : pyexn).
Arguments Return {A} a.
Arguments Throw {A} e.

#[global] Instance outcome_ret : MRet outcome := @Return.
#[global] Instance outcome_bind : MBind outcome := fun A B f m =>
  match m with Return a => f a | Throw e => Throw e end.

Definition of_res {A} (m : res A) : outcome A :=
  match m with Ok a => Return a | Raise e => Throw (Exn e) end.

(** The key [k] of a dictionary as a Python string. *)
Definition pystr_of_string (k : string) : pystr :=
  Ascii.N_of_ascii <$> String.list_ascii_of_string k.

(** [v.get(k)] *)
Definition json_get (v : json) (k : string) : outcome json :=
  match v with
  | JObj o => Return (default JNull (o !! k))
  | _ => Throw (Exn AttributeError)
  end.

(** [del v[k]] *)
Definition json_del (v : json) (k : string) : outcome json :=
  match v with
  | JObj o =>
      match o !! k with
      | Some _ => Return (JObj (delete k o))
      | None => Throw KeyError
      end
  | _ => Throw (Exn TypeError)
  end.

(** [v.update({k: x})] *)
Definition json_update (v : json) (k : string) (x : json) : outcome json :=
  match v with
  | JObj o => Return (JObj (<[k := x]> o))
  | _ => Throw (Exn AttributeError)
  end.

(** The elements that [for s in v] visits.  A dictionary yields its keys
    (here in the order of [map_to_list], not in the order of insertion). *)
Definition json_iter (v : json) : outcome (list json) :=
  match v with
  | JArr l => Return l
  | JStr s => Return ((fun c => JStr [c]) <$> s)
  | JObj o => Return ((fun kv => JStr (pystr_of_string kv.1)) <$> map_to_list o)
  | _ => Throw (Exn TypeError)
  end.

(** *** [check_char] on a dictionary of JSON values (lines 45-102) *)

(** ['[' in v] *)
Definition contains_bracket (v : json) : outcome bool :=
  match v with
  | JStr s => Return (py_contains Ch.lbracket s)
  | JArr l =>
      Return (existsb (fun x => match x with
                                | JStr [c] => c =? Ch.lbracket
                                | _ => false
                                end) l)
  | JObj o => Return (bool_decide (is_Some (o !! "[")))
  | _ => Throw (Exn TypeError)
  end.

(** The receiver of a [str] method. *)
Definition json_str (v : json) : outcome pystr :=
  match v with
  | JStr s => Return s
  | _ => Throw (Exn AttributeError)
  end.

Definition check_char_json (entry : gmap string json)
  : outcome (bool * gmap string json) :=
  _ ← contains_bracket (default JNull (entry !! "ipa"));
  raw ← json_str (default JNull (entry !! "ipa"));
  let ipa := clean_ipa raw in
  st ← of_res (tokenize ipa);
  let phones_str := py_join [Ch.space] (phones st) in
  let phones_str7 := phones_str7_of phones_str in
  let phones_str8 := phones_str8_of phones_str7 in
  let error := if final_check phones_str7 then error st else true in
  Return (error, <["ipa" := JStr phones_str7]> entry).

(** *** One line of the input (lines 125-157) *)

(** [re.match("^[a-zA-Z]*[-.']*[a-zA-Z]+$", word)], as a truth value. *)
Definition re_match_word (word : json) : outcome bool :=
  match word with
  | JStr w => Return (word_match w)
  | _ => Throw (Exn TypeError)
  end.

(** Lines 133-144. *)
Fixpoint sounds_loop (variants : list json) (sounds : list json)
  : outcome (list json) :=
  match variants with
  | [] => Return sounds
  | s :: rest =>
      c ← json_get s "ipa";
      if json_truthy c then
        ipa ← json_get s "ipa";
        tags ← json_get s "tags";
        '(rejected, data) ← check_char_json {[ "ipa" := ipa; "tags" := tags ]};
        if (rejected : bool) then Return sounds
        else sounds_loop rest (sounds ++ [JObj data])
      else sounds_loop rest sounds
  end.

(** Lines 147-152, for one sense. *)
Definition clean_sense (s : json) : outcome json :=
  rg ← json_get s "raw_glosses";
  sense ← (if json_truthy rg then json_del s "raw_glosses" else Return s);
  cat ← json_get sense "categories";
  if json_truthy cat then json_del sense "categories" else Return sense.

Fixpoint senses_loop (l : list json) (senses : list json)
  : outcome (list json) :=
  match l with
  | [] => Return senses
  | s :: rest => sense ← clean_sense s; senses_loop rest (senses ++ [sense])
  end.

(** The body of the [try]: [None] for a line that the filter on the head
    word turns away, the updated entry otherwise. *)
Definition process_line (entry : json) : outcome (option json) :=
  word ← json_get entry "word";
  m ← re_match_word word;
  if negb m then Return None
  else
    variants ← json_get entry "sounds" ≫= json_iter;
    sounds ← sounds_loop variants [];
    l ← json_get entry "senses" ≫= json_iter;
    senses ← senses_loop l [];
    entry ← json_update entry "sounds" (JArr sounds);
    entry ← json_update entry "senses" (JArr senses);
    Return (Some entry).

(** The [while] loop: a line whose processing raises is passed over. *)
Fixpoint main_loop (lines : list json) (entries : list json) : list json :=
  match lines with
  | [] => entries
  | line :: rest =>
      match process_line line with
      | Return (Some entry) => main_loop rest (entries ++ [entry])
      | _ => main_loop rest entries
      end
  end.

(** *** The dictionary that is printed (lines 162-175) *)

(** [wiki_dict]: a dictionary with string keys, in the order of
    insertion. *)
Definition wiki := list (pystr * list json).

Definition wiki_lookup (d : wiki) (w : pystr) : option (list json) :=
  snd <$> find (fun kv => bool_decide (kv.1 = w)) d.

(** [wiki_dict[w]] *)
Definition wiki_item (d : wiki) (w : pystr) : outcome (list json) :=
  match wiki_lookup d w with
  | Some v => Return v
  | None => Throw KeyError
  end.

(** [wiki_dict.update({w: v})] *)
Fixpoint wiki_update (d : wiki) (w : pystr) (v : list json) : wiki :=
  match d with
  | [] => [(w, v)]
  | (k, x) :: rest =>
      if bool_decide (k = w) then (k, v) :: rest
      else (k, x) :: wiki_update rest w v
  end.

(** [{'ety': l.get('etymology_text'), 'pos': l.get('pos')}] *)
Definition shortened (loaded_line : json) : outcome json :=
  ety ← json_get loaded_line "etymology_text";
  pos ← json_get loaded_line "pos";
  Return (JObj {[ "ety" := ety; "pos" := pos ]}).

Fixpoint compress (wikipedia_list : list pystr) (entries : list json)
    (wiki_dict : wiki) : outcome wiki :=
  match entries with
  | [] => Return wiki_dict
  | loaded_line :: rest =>
      word ← json_get loaded_line "word";
      match word with
      | JStr w =>
          if negb (bool_decide (w ∈ wikipedia_list))
          then compress wikipedia_list rest wiki_dict
          else
            if bool_decide (is_Some (wiki_lookup wiki_dict w)) then
              pos_list ← wiki_item wiki_dict w;
              loaded_line ← json_del loaded_line "word";
              loaded_line_shortened ← shortened loaded_line;
              compress wikipedia_list rest
                (wiki_update wiki_dict w
                             (pos_list ++ [loaded_line_shortened]))
            else
              loaded_line ← json_del loaded_line "word";
              loaded_line_shortened ← shortened loaded_line;
              compress wikipedia_list rest
                (wiki_update wiki_dict w [loaded_line_shortened])
      | _ => compress wikipedia_list rest wiki_dict
      end
  end.

(** The program: the lines of the input, the word list, the dictionary. *)
Definition main (lines : list json) (wikipedia_list : list pystr)
  : outcome wiki :=
  compress wikipedia_list (main_loop lines []) [].

(** ** Auxiliary definitions for the program around [check_char] *)

(** A record of the accepted list: a normalized transcription, every unit
    of which is a phoneme of the inventory, and the tags of the variant. *)
Definition validated (d : json) : Prop :=
  ∃ out tags,
    d = JObj {[ "ipa" := JStr out; "tags" := tags ]}
    ∧ ∀ u, u ∈ py_split (remove_stress out) → u ∈ PHONEMES.

(** A variant that [check_char] rejects. *)
Definition rejected_variant (s : json) : Prop :=
  ∃ o raw, s = JObj o ∧ o !! "ipa" = Some (JStr raw) ∧ raw ≠ []
           ∧ (engine raw).1 = true.

(** What lines 148-151 leave of a sense. *)
Definition cleaned (o : gmap string json) : gmap string json :=
  let o1 := if json_truthy (default JNull (o !! "raw_glosses"))
            then delete "raw_glosses" o else o in
  if json_truthy (default JNull (o1 !! "categories"))
  then delete "categories" o1 else o1.

(** The record that the loop keeps for the variant [v]. *)
Definition accepted (v d : json) : Prop :=
  ∃ o raw,
    v = JObj o ∧ o !! "ipa" = Some (JStr raw) ∧ (engine raw).1 = false
    ∧ d = JObj {[ "ipa" := JStr (engine raw).2;
                  "tags" := default JNull (o !! "tags") ]}.

(** Whether the line reaches [entries]. *)
Definition kept (line : json) : bool :=
  match process_line line with
  | Return (Some _) => true
  | _ => false
  end.

(** The value stored for a line: its etymology and its part of speech. *)
Definition summary (o : gmap string json) : json :=
  JObj {[ "ety" := default JNull (o !! "etymology_text");
          "pos" := default JNull (o !! "pos") ]}.

(** The head word of a line, when it is a string. *)
Definition word_of (line : json) : option pystr :=
  match line with
  | JObj o => match o !! "word" with Some (JStr w) => Some w | _ => None end
  | _ => None
  end.

(** The summaries of the [entries] whose head word is [w], in order. *)
Definition group (w : pystr) (entries : list json) : list json :=
  omap (fun e => match e with
                 | JObj o => if bool_decide (word_of e = Some w)
                             then Some (summary o) else None
                 | _ => None
                 end) entries.

(** A variant as the extraction writes it: an object whose [ipa], when
    there is one, is a string. *)
Definition plain_variant (v : json) : Prop :=
  ∃ o, v = JObj o
       ∧ (o !! "ipa" = None ∨ o !! "ipa" = Some JNull
          ∨ ∃ raw, o !! "ipa" = Some (JStr raw)).

(** What the loop over the senses leaves of the sense [s]. *)
Definition sense_cleaned (s s' : json) : Prop :=
  ∃ os os',
    s = JObj os ∧ s' = JObj os'
    ∧ ∀ k : string,
        os' !! k
        = if (bool_decide (k = "raw_glosses") || bool_decide (k = "categories"))
             && json_truthy (default JNull (os !! k))
          then None else os !! k.
(** * Properties *)

(** ** The monad of results *)

Lemma Ok_pair_inj {A B} (a c : A) (b d : B) :
  @Ok (A * B) (a, b) = Ok (c, d) → a = c ∧ b = d.
Proof. by intros [= -> ->]. Qed.

Lemma Ok_bind {A B} (a : A) (f : A → res B) : Ok a ≫= f = f a.
Proof. done. Qed.

Lemma bind_Ok_r {A} (m : res A) : m ≫= Ok = m.
Proof. by destruct m. Qed.

(** ** The matcher on literal alternations *)

Lemma is_prefix_nil s : is_prefix [] s = true.
Proof. apply bool_decide_eq_true, prefix_nil. Qed.

Lemma is_prefix_cons x p y s :
  is_prefix (x :: p) (y :: s) = (x =? y) && is_prefix p s.
Proof.
  unfold is_prefix. destruct (N.eqb_spec x y) as [->|Hne]; simpl.
  - apply bool_decide_ext. split; [apply prefix_cons_inv_2 | apply prefix_cons].
  - apply bool_decide_eq_false. intros H. by apply prefix_cons_inv_1 in H.
Qed.

Lemma is_prefix_cons_nil x p : is_prefix (x :: p) [] = false.
Proof. apply bool_decide_eq_false. intros H. by apply prefix_nil_inv in H. Qed.

Lemma rmatch_rlit x at0 s : rmatch (rlit x) at0 s = lit_result x s.
Proof.
  revert at0 s. induction x as [|c x IH]; intros at0 s.
  - unfold lit_result. by rewrite is_prefix_nil.
  - destruct x as [|c' x].
    + unfold lit_result. destruct s as [|y s]; cbn [rlit rmatch].
      * by rewrite is_prefix_cons_nil.
      * rewrite is_prefix_cons, is_prefix_nil, (N.eqb_sym c y).
        destruct (N.eqb_spec y c) as [->|]; cbn [andb length drop]; done.
    + change (rlit (c :: c' :: x)) with (RSeq (RChar c) (rlit (c' :: x))).
      cbn [rmatch]. unfold lit_result. destruct s as [|y s].
      * by rewrite is_prefix_cons_nil.
      * rewrite is_prefix_cons, (N.eqb_sym c y).
        destruct (N.eqb_spec y c) as [->|]; cbn [andb flat_map]; [|done].
        rewrite IH. unfold lit_result.
        destruct (is_prefix (c' :: x) s); done.
Qed.

Lemma ngroups_rlit x : ngroups (rlit x) = O.
Proof.
  induction x as [|c x IH]; [done|].
  destruct x as [|c' x]; [done|].
  change (rlit (c :: c' :: x)) with (RSeq (RChar c) (rlit (c' :: x))).
  cbn [ngroups]. by rewrite IH.
Qed.

Lemma ngroups_ralts l : ngroups (ralts l) = O.
Proof.
  induction l as [|x l IH]; [done|].
  destruct l as [|y l]; [apply ngroups_rlit|].
  change (ralts (x :: y :: l)) with (RAlt (rlit x) (ralts (y :: l))).
  cbn [ngroups]. by rewrite ngroups_rlit, IH.
Qed.

Lemma map_pad_nil_r (l : list mresult) :
  map (fun '(m, g, s') => (m, g ++ [], s')) l = l.
Proof.
  induction l as [|[[m g] s'] l IH]; cbn [map]; [done|].
  by rewrite app_nil_r, IH.
Qed.

Lemma map_pad_nil_l (l : list mresult) :
  map (fun '(m, g, s') => (m, [] ++ g, s')) l = l.
Proof. induction l as [|[[m g] s'] l IH]; cbn [map]; [done|]. by rewrite IH. Qed.

Lemma rmatch_ralts l at0 s :
  l ≠ [] →
  rmatch (ralts l) at0 s = flat_map (fun x => lit_result x s) l.
Proof.
  induction l as [|x l IH]; intros Hne; [done|].
  destruct l as [|y l].
  - cbn [ralts flat_map]. by rewrite rmatch_rlit, app_nil_r.
  - change (ralts (x :: y :: l)) with (RAlt (rlit x) (ralts (y :: l))).
    cbn [rmatch]. rewrite ngroups_rlit, ngroups_ralts. cbn [replicate].
    rewrite map_pad_nil_r, map_pad_nil_l, rmatch_rlit, IH by done.
    done.
Qed.

(** A group around an alternation of literals matches exactly when one of
    the literals is a prefix of the subject. *)
Lemma matches_group_alts l s :
  l ≠ [] →
  matches (RGroup (ralts l)) s = existsb (fun x => is_prefix x s) l.
Proof.
  intros Hne. unfold matches, re_match. cbn [rmatch].
  rewrite rmatch_ralts by done. clear Hne.
  induction l as [|x l IH]; [done|].
  simpl. unfold lit_result at 1. destruct (is_prefix x s); simpl; [done|].
  apply IH.
Qed.

Lemma existsb_prefix_elem (l : list pystr) (s : pystr) :
  Forall (fun x => (length s ≤ length x)%nat) l →
  existsb (fun x => is_prefix x s) l = bool_decide (s ∈ l).
Proof.
  intros Hl. induction Hl as [|x l Hx Hl IH]; [done|].
  simpl. rewrite IH. unfold is_prefix.
  destruct (decide (x `prefix_of` s)) as [Hp|Hp].
  - assert (x = s) as ->.
    { destruct Hp as [k ->]. rewrite length_app in Hx.
      destruct k; [by rewrite app_nil_r | simpl in Hx; lia]. }
    rewrite (bool_decide_eq_true_2 _ (reflexivity s)).
    symmetry. apply bool_decide_eq_true. left.
  - rewrite (bool_decide_eq_false_2 _ Hp). simpl.
    apply bool_decide_ext. rewrite elem_of_cons.
    split; [tauto|]. intros [->|]; [|done]. by destruct Hp.
Qed.

Lemma matches_is_biphone a b :
  matches is_biphone [a; b] = bool_decide ([a; b] ∈ BIPHONES).
Proof.
  unfold is_biphone. rewrite matches_group_alts by done.
  apply existsb_prefix_elem. by vm_compute; repeat constructor.
Qed.

Lemma matches_first_char_biphone c :
  matches first_char_biphone [c] = bool_decide ([c] ∈ biphone_openers).
Proof.
  unfold first_char_biphone. rewrite matches_group_alts by done.
  rewrite existsb_prefix_elem by (vm_compute; repeat constructor; lia).
  done.
Qed.

Lemma insert_by_len_perm x l : insert_by_len x l ≡ₚ x :: l.
Proof.
  induction l as [|y l IH]; simpl; [done|].
  destruct (length x <? length y)%nat; [|done].
  rewrite IH. apply Permutation_swap.
Qed.

Lemma sorted_len_desc_perm l : sorted_len_desc l ≡ₚ l.
Proof.
  induction l as [|x l IH]; simpl; [done|].
  rewrite insert_by_len_perm. by rewrite IH.
Qed.

Lemma matches_regex_phonemes c :
  matches regex_phonemes [c] = bool_decide ([c] ∈ PHONEMES).
Proof.
  unfold regex_phonemes. rewrite matches_group_alts by done.
  rewrite existsb_prefix_elem.
  - apply bool_decide_ext. by rewrite sorted_len_desc_perm.
  - vm_compute. repeat constructor; lia.
Qed.

(** ** The tokenizer loop never raises

    After [k] iterations the first [k] cells of [ipa_all] hold folded
    characters, the others the characters of [ipa] as they were, and
    [last_c] is bound as soon as one iteration has run. *)

Lemma replace_hook x :
  py_replace [Ch.schwa_hook] [Ch.schwa] [x] = [fold_hook x].
Proof.
  unfold py_replace, fold_hook. cbn [replace_from].
  rewrite is_prefix_cons, is_prefix_nil, (N.eqb_sym Ch.schwa_hook x).
  by destruct (x =? Ch.schwa_hook).
Qed.

Lemma length_cells_at ipa k : length (cells_at ipa k) = length ipa.
Proof. apply length_imap. Qed.

Lemma cells_at_lookup ipa k j :
  cells_at ipa k !! j =
  (fun x => ([if bool_decide (j < k)%nat then fold_hook x else x], j, S j))
    <$> ipa !! j.
Proof. unfold cells_at. by rewrite list_lookup_imap. Qed.

Lemma cells_at_insert ipa k x :
  ipa !! k = Some x →
  <[k := ([fold_hook x], k, S k)]> (cells_at ipa k) = cells_at ipa (S k).
Proof.
  intros Hk. apply list_eq. intros j.
  destruct (decide (k = j)) as [<-|Hne].
  - rewrite list_lookup_insert_eq
      by (rewrite length_cells_at; by eapply lookup_lt_Some).
    rewrite cells_at_lookup, Hk. simpl.
    by rewrite bool_decide_eq_true_2 by lia.
  - rewrite list_lookup_insert_ne by done.
    rewrite !cells_at_lookup. destruct (ipa !! j) as [y|]; [simpl|done].
    by rewrite (bool_decide_ext (j < k)%nat (j < S k)%nat) by lia.
Qed.

Lemma last_cells_at ipa k :
  last (cells_at ipa k) =
  (fun x => ([if bool_decide (length ipa ≤ k)%nat then fold_hook x else x],
             pred (length ipa), length ipa)) <$> last ipa.
Proof.
  rewrite !last_lookup, length_cells_at, cells_at_lookup.
  destruct (ipa !! pred (length ipa)) as [x|] eqn:Hx; [simpl|done].
  apply lookup_lt_Some in Hx.
  replace (S (pred (length ipa))) with (length ipa) by lia.
  by rewrite (bool_decide_ext (pred (length ipa) < k)%nat (length ipa ≤ k)%nat)
    by lia.
Qed.

Lemma loop_body_spec ipa k x st :
  scan_inv ipa k st → ipa !! k = Some x →
  loop_body k st = Ok (step_spec ipa k x st)
  ∧ scan_inv ipa (S k) (step_spec ipa k x st).
Proof.
  intros (Hcells & Hlast & Hk0) Hx.
  assert (Hlt := lookup_lt_Some _ _ _ Hx).
  split.
  - unfold loop_body. rewrite Hcells, cells_at_lookup, Hx. simpl fmap.
    cbv beta iota. rewrite bool_decide_eq_false_2 by lia.
    rewrite replace_hook, (cells_at_insert _ _ _ Hx).
    unfold step_spec.
    destruct (last_was_biphone st) eqn:Hlwb.
    + destruct k as [|j]; [by specialize (Hk0 eq_refl)|].
      rewrite Hlast.
      destruct (ipa !! j) as [y|] eqn:Hy;
        [|apply lookup_ge_None in Hy; lia].
      simpl. destruct (matches is_biphone _); [done|].
      rewrite matches_regex_phonemes.
      by destruct (bool_decide ([fold_hook x] ∈ PHONEMES)).
    + unfold opens_at. rewrite matches_first_char_biphone.
      destruct (bool_decide ([fold_hook x] ∈ biphone_openers)); simpl;
        [|done].
      unfold py_last. rewrite last_cells_at.
      destruct (last ipa) as [z|] eqn:Hz;
        [|apply last_None in Hz; subst ipa; simpl in Hlt; lia].
      simpl.
      destruct (decide (S k < length ipa)%nat) as [Hin|Hin].
      * rewrite (bool_decide_eq_true_2 (S k < _)%nat) by done.
        rewrite (bool_decide_eq_false_2 (_ ≤ S k)%nat) by lia. simpl.
        rewrite (bool_decide_ext ([z] = [fold_hook x])
                                 (Some z = Some (fold_hook x)))
          by (split; congruence).
        by destruct (bool_decide (Some z = Some (fold_hook x))).
      * rewrite (bool_decide_eq_false_2 (S k < _)%nat) by done.
        rewrite (bool_decide_eq_true_2 (_ ≤ S k)%nat) by lia. simpl.
        assert (z = x) as ->.
        { rewrite last_lookup in Hz.
          replace (pred (length ipa)) with k in Hz by lia. congruence. }
        by rewrite bool_decide_eq_true_2.
  - unfold scan_inv, step_spec. rewrite Hx.
    destruct (last_was_biphone st); [destruct (matches _ _);
      [|destruct (bool_decide _)]|destruct (opens_at _ _ _)]; done.
Qed.

Lemma run_loop_snoc n i st :
  run_loop (S n) i st = run_loop n i st ≫= loop_body (i + n).
Proof.
  revert i st. induction n as [|n IH]; intros i st.
  - cbn [run_loop]. rewrite Nat.add_0_r, Ok_bind. apply bind_Ok_r.
  - change (run_loop (S (S n)) i st)
      with (loop_body i st ≫= run_loop (S n) (S i)).
    change (run_loop (S n) i st)
      with (loop_body i st ≫= run_loop n (S i)).
    destruct (loop_body i st) as [st'|e]; [|done].
    rewrite !Ok_bind, IH.
    by replace (S i + n)%nat with (i + S n)%nat by lia.
Qed.

Lemma scan_upto_S ipa k :
  scan_upto ipa (S k) = scan_upto ipa k ≫= loop_body k.
Proof. unfold scan_upto. by rewrite run_loop_snoc. Qed.

Lemma scan_upto_spec ipa k :
  (k ≤ length ipa)%nat →
  scan_upto ipa k = Ok (scan_spec ipa k) ∧ scan_inv ipa k (scan_spec ipa k).
Proof.
  induction k as [|k IH]; intros Hk.
  - split; [done|]. by repeat split.
  - destruct IH as [Hrun Hinv]; [lia|].
    destruct (ipa !! k) as [x|] eqn:Hx;
      [|apply lookup_ge_None in Hx; lia].
    destruct (loop_body_spec _ _ _ _ Hinv Hx) as [Hbody Hinv'].
    rewrite scan_upto_S, Hrun. cbn [scan_spec]. rewrite Hx. by split.
Qed.

Lemma tokenize_spec ipa : tokenize ipa = Ok (scan_spec ipa (length ipa)).
Proof. by apply scan_upto_spec. Qed.

Lemma scan_upto_Ok ipa k st :
  (k ≤ length ipa)%nat → scan_upto ipa k = Ok st →
  st = scan_spec ipa k ∧ scan_inv ipa k st.
Proof.
  intros Hk Hrun. destruct (scan_upto_spec ipa k Hk) as [Hspec Hinv].
  rewrite Hspec in Hrun. by injection Hrun as <-.
Qed.

Lemma scan_upto_step ipa k x st :
  scan_upto ipa k = Ok st → ipa !! k = Some x →
  scan_upto ipa (S k) = Ok (step_spec ipa k x st).
Proof.
  intros Hrun Hx. assert (Hlt := lookup_lt_Some _ _ _ Hx).
  destruct (scan_upto_Ok ipa k st) as [_ Hinv]; [lia|done|].
  rewrite scan_upto_S, Hrun, Ok_bind.
  by apply loop_body_spec.
Qed.

Lemma step_spec_error_mono ipa k x st :
  error st = true → error (step_spec ipa k x st) = true.
Proof.
  intros He. unfold step_spec.
  destruct (last_was_biphone st);
    [destruct (matches _ _); [|destruct (bool_decide _)]
    |destruct (opens_at _ _ _)]; done.
Qed.

Lemma scan_spec_error_mono ipa j k :
  (j ≤ k)%nat → error (scan_spec ipa j) = true →
  error (scan_spec ipa k) = true.
Proof.
  intros Hjk He. induction Hjk as [|k Hjk IH]; [done|].
  cbn [scan_spec]. destruct (ipa !! k); [|done].
  by apply step_spec_error_mono.
Qed.

(** Biphones do not contain the character that the scan folds away, and
    their first characters open a biphone. *)
Lemma biphone_chars a b :
  [a; b] ∈ BIPHONES →
  fold_hook a = a ∧ fold_hook b = b ∧ [a] ∈ biphone_openers ∧ a ≠ b.
Proof.
  intros H. vm_compute in H.
  repeat (apply elem_of_cons in H as [H|H];
          [injection H as -> ->; vm_compute; split_and!;
             [done|done|repeat constructor|done]|]).
  by apply elem_of_nil in H.
Qed.

(** ** The shape of a call of [check_char] *)

Lemma check_char_str entry raw :
  entry !! "ipa" = Some (PyStr raw) →
  check_char entry =
  Ok (error (scan_spec (clean_ipa raw) (length (clean_ipa raw)))
      || negb (final_check
                 (normalized (scan_spec (clean_ipa raw)
                                        (length (clean_ipa raw))))),
      <["ipa" := PyStr (normalized (scan_spec (clean_ipa raw)
                                              (length (clean_ipa raw))))]>
        entry).
Proof.
  intros Hipa. unfold check_char, dict_get. rewrite Hipa.
  cbn [from_option id py_in as_str]. rewrite !Ok_bind, tokenize_spec, Ok_bind.
  unfold normalized.
  destruct (final_check _); [by rewrite orb_false_r | by rewrite orb_true_r].
Qed.

Lemma check_char_inv entry e r :
  check_char entry = Ok (e, r) →
  ∃ raw st,
    entry !! "ipa" = Some (PyStr raw)
    ∧ tokenize (clean_ipa raw) = Ok st
    ∧ e = error st || negb (final_check (normalized st))
    ∧ r = <["ipa" := PyStr (normalized st)]> entry.
Proof.
  intros Hrun.
  destruct (entry !! "ipa") as [[|raw|l]|] eqn:Hipa;
    try (unfold check_char, dict_get in Hrun; rewrite Hipa in Hrun;
         discriminate).
  rewrite (check_char_str _ _ Hipa) in Hrun.
  apply Ok_pair_inj in Hrun as [He Hr].
  exists raw, (scan_spec (clean_ipa raw) (length (clean_ipa raw))).
  by rewrite tokenize_spec.
Qed.

(** ** The stress passes *)

Lemma flat_map_singleton {A B} (f : A → list B) (a : A) :
  flat_map f [a] = f a.
Proof. cbn. apply app_nil_r. Qed.

Lemma rmatch_seq_char c r at0 s :
  rmatch (RSeq (RChar c) r) at0 s
  = match s with
    | x :: t =>
        if x =? c
        then map (fun '(m, g, rest) => (x :: m, g, rest)) (rmatch r false t)
        else []
    | [] => []
    end.
Proof.
  cbn [rmatch]. destruct s as [|x t]; [done|].
  destruct (x =? c); [|done].
  rewrite flat_map_singleton, andb_false_r. done.
Qed.

Lemma rmatch_seq_group_class cs r at0 s :
  rmatch (RSeq (RGroup (RClass cs)) r) at0 s
  = match s with
    | x :: t =>
        if bool_decide (x ∈ cs)
        then map (fun '(m, g, rest) => (x :: m, Some [x] :: g, rest))
                 (rmatch r false t)
        else []
    | [] => []
    end.
Proof.
  cbn [rmatch]. destruct s as [|x t]; [done|].
  destruct (bool_decide (x ∈ cs)); [|done].
  cbn [map]. rewrite flat_map_singleton, andb_false_r. done.
Qed.

Lemma rmatch_boundary r at0 s :
  rmatch (RSeq stress_boundary r) at0 s
  = match s with
    | x :: t =>
        if x =? Ch.space
        then map (fun '(m, g, rest) => (x :: m, Some [x] :: g, rest))
                 (rmatch r false t)
        else []
    | [] => []
    end
    ++ (if at0
        then map (fun '(m, g, rest) => (m, Some [] :: g, rest))
                 (rmatch r true s)
        else []).
Proof.
  unfold stress_boundary. cbn [rmatch ngroups replicate].
  rewrite map_pad_nil_r, map_pad_nil_l, map_app, flat_map_app.
  f_equal.
  - destruct s as [|x t]; [done|]. destruct (x =? Ch.space); [|done].
    cbn [map]. rewrite flat_map_singleton, andb_false_r. done.
  - destruct at0; [|done]. cbn [map]. rewrite flat_map_singleton. done.
Qed.

Lemma rmatch_CONS_OR_AFF b s :
  rmatch CONS_OR_AFF b s
  = match s with
    | x :: t =>
        if bool_decide (x ∈ mjoin CONSONANTS)
        then [([x], [Some [x]], t)]
        else []
    | [] => []
    end
    ++ map (fun '(m, g, rest) => (m, [Some m], rest))
           (lit_result [Ch.d; Ch.ezh] s ++ lit_result [Ch.t; Ch.esh] s).
Proof.
  unfold CONS_OR_AFF. cbn [rmatch ngroups].
  rewrite ngroups_ralts. cbn [replicate Nat.add].
  rewrite map_pad_nil_r, map_pad_nil_l, rmatch_ralts by done.
  rewrite map_app. f_equal.
  - destruct s as [|x t]; [done|]. by destruct (bool_decide _).
  - cbn [AFFRICATES flat_map]. rewrite app_nil_r.
    unfold lit_result.
    destruct (is_prefix [Ch.d; Ch.ezh] s), (is_prefix [Ch.t; Ch.esh] s); done.
Qed.

Lemma rmatch_seq_cons c r b s :
  cons_or_aff c → needs_space r →
  rmatch (RSeq CONS_OR_AFF r) b (c ++ Ch.space :: s)
  = map (fun '(m, g, rest) => (c ++ m, Some c :: g, rest))
        (rmatch r false (Ch.space :: s)).
Proof.
  intros Hc Hr. cbn [rmatch]. rewrite rmatch_CONS_OR_AFF.
  destruct Hc as [(x & -> & Hx)|Hc].
  - cbn [app]. rewrite (bool_decide_eq_true_2 _ Hx).
    unfold lit_result. rewrite !is_prefix_cons.
    replace (Ch.ezh =? Ch.space) with false by done.
    replace (Ch.esh =? Ch.space) with false by done.
    rewrite !andb_false_r. cbn [app map]. rewrite flat_map_singleton.
    by rewrite andb_false_r.
  - apply elem_of_cons in Hc as [->|Hc];
      [|apply list_elem_of_singleton in Hc as ->].
    + cbn [app]. rewrite (bool_decide_eq_true_2 (Ch.d ∈ mjoin CONSONANTS))
        by (vm_compute; repeat constructor).
      unfold lit_result. rewrite !is_prefix_cons, is_prefix_nil.
      replace (Ch.d =? Ch.d) with true by done.
      replace (Ch.ezh =? Ch.ezh) with true by done.
      replace (Ch.t =? Ch.d) with false by done.
      cbn [andb app map flat_map length drop].
      rewrite (Hr _ (Ch.ezh :: _)) by (intros [= H]; by vm_compute in H).
      rewrite !andb_false_r, app_nil_r. done.
    + cbn [app]. rewrite (bool_decide_eq_true_2 (Ch.t ∈ mjoin CONSONANTS))
        by (vm_compute; repeat constructor).
      unfold lit_result. rewrite !is_prefix_cons, is_prefix_nil.
      replace (Ch.t =? Ch.t) with true by done.
      replace (Ch.esh =? Ch.esh) with true by done.
      replace (Ch.d =? Ch.t) with false by done.
      cbn [andb app map flat_map length drop].
      rewrite (Hr _ (Ch.esh :: _)) by (intros [= H]; by vm_compute in H).
      rewrite !andb_false_r, app_nil_r. done.
Qed.

Lemma tail_needs_space vs k : needs_space (tail_pattern vs k).
Proof.
  intros b s Hs. destruct k; cbn [tail_pattern]; rewrite rmatch_seq_char;
    (destruct s as [|x t]; [done|]);
    (destruct (N.eqb_spec x Ch.space) as [->|]; [by destruct Hs|done]).
Qed.

Lemma onset_nil : onset [] = [].
Proof. done. Qed.

Lemma onset_cons c cs : onset (c :: cs) = Ch.space :: c ++ onset cs.
Proof. done. Qed.

Lemma onset'_cons c cs : onset' (c :: cs) = c ++ Ch.space :: onset' cs.
Proof. unfold onset'. cbn. by rewrite <- app_assoc. Qed.

Lemma onset_then_space cs w :
  ∃ s', onset cs ++ Ch.space :: w = Ch.space :: s'.
Proof.
  destruct cs as [|c cs]; [by eexists|].
  rewrite onset_cons. by eexists.
Qed.

Lemma rmatch_tail_onset vs cs b w :
  Forall cons_or_aff cs →
  rmatch (tail_pattern vs (length cs)) b (onset cs ++ Ch.space :: w)
  = map (fun '(m, g, rest) =>
           (onset cs ++ Ch.space :: m, (Some <$> cs) ++ g, rest))
        (rmatch (RGroup (ralts vs)) false w).
Proof.
  intros Hcs. revert b. induction Hcs as [|c cs Hc Hcs IH]; intros b.
  - cbn [length tail_pattern]. rewrite onset_nil, rmatch_seq_char.
    cbn [app]. rewrite N.eqb_refl.
    apply map_ext. by intros [[m g] rest].
  - cbn [length tail_pattern]. rewrite onset_cons, rmatch_seq_char.
    cbn [app]. rewrite N.eqb_refl, <- app_assoc.
    destruct (onset_then_space cs w) as [s' Hs']. rewrite Hs'.
    rewrite rmatch_seq_cons by (done || apply tail_needs_space).
    rewrite <- Hs', IH, !map_map. apply map_ext.
    intros [[m g] rest]. cbn. by rewrite <- app_assoc.
Qed.

(** A longer pattern fails on a shorter onset. *)
Lemma rmatch_tail_short vs cs j b w :
  Forall cons_or_aff cs →
  (∀ x, head w = Some x → x ∉ mjoin CONSONANTS) →
  rmatch (tail_pattern vs (length cs + S j)) b (onset cs ++ Ch.space :: w)
  = [].
Proof.
  intros Hcs Hw. revert b. induction Hcs as [|c cs Hc Hcs IH]; intros b.
  - cbn [length Nat.add tail_pattern]. rewrite onset_nil, rmatch_seq_char.
    cbn [app]. rewrite N.eqb_refl.
    cbn [rmatch]. rewrite rmatch_CONS_OR_AFF.
    destruct w as [|x w]; [done|].
    specialize (Hw x eq_refl).
    rewrite (bool_decide_eq_false_2 _ Hw).
    unfold lit_result. rewrite !is_prefix_cons.
    assert (Ch.d ∈ mjoin CONSONANTS) as Hd by (vm_compute; repeat constructor).
    assert (Ch.t ∈ mjoin CONSONANTS) as Ht by (vm_compute; repeat constructor).
    destruct (N.eqb_spec Ch.d x) as [<-|]; [done|].
    destruct (N.eqb_spec Ch.t x) as [<-|]; [done|].
    done.
  - cbn [length Nat.add tail_pattern]. rewrite onset_cons, rmatch_seq_char.
    cbn [app]. rewrite N.eqb_refl, <- app_assoc.
    destruct (onset_then_space cs w) as [s' Hs']. rewrite Hs'.
    rewrite rmatch_seq_cons by (done || apply tail_needs_space).
    by rewrite <- Hs', IH.
Qed.

(** No vowel of the inventory begins with a consonant character. *)
Lemma rmatch_vowel_on_cons b x w :
  x ∈ mjoin CONSONANTS →
  rmatch (RGroup (ralts VOWELS)) b (x :: w) = [].
Proof.
  intros Hx. cbn [rmatch]. rewrite rmatch_ralts by done.
  assert (Forall (fun v => ∃ y t, v = y :: t ∧ y ∉ mjoin CONSONANTS) VOWELS)
    as Hv.
  { repeat (apply Forall_cons; split;
            [eexists _, _; split; [reflexivity|];
             apply (bool_decide_eq_false_1 (_ ∈ _)); vm_compute; reflexivity|]).
    apply Forall_nil_2. }
  induction Hv as [|v vs (y & t & -> & Hy) Hv IH]; [done|].
  cbn [flat_map]. unfold lit_result at 1. rewrite is_prefix_cons.
  destruct (N.eqb_spec y x) as [->|]; [done|].
  cbn [andb app map]. apply IH.
Qed.

Lemma cons_or_aff_head c :
  cons_or_aff c → ∃ x t, c = x :: t ∧ x ∈ mjoin CONSONANTS.
Proof.
  intros [(x & -> & Hx)|Hc]; [by eexists _, _|].
  apply elem_of_cons in Hc as [->|Hc];
    [|apply list_elem_of_singleton in Hc as ->];
    (eexists _, _; split; [reflexivity|vm_compute; repeat constructor]).
Qed.

(** A shorter pattern fails on a longer onset. *)
Lemma rmatch_tail_long cs1 c cs2 b w :
  Forall cons_or_aff cs1 → cons_or_aff c →
  rmatch (tail_pattern VOWELS (length cs1)) b
         (onset (cs1 ++ c :: cs2) ++ Ch.space :: w)
  = [].
Proof.
  intros Hcs1 Hc. unfold onset. rewrite fmap_app, join_app. fold (onset cs1).
  rewrite fmap_cons. cbn [mjoin list_join]. rewrite <- !app_assoc.
  cbn [app]. rewrite rmatch_tail_onset by done.
  destruct (cons_or_aff_head c Hc) as (x & t & -> & Hx).
  cbn [app]. by rewrite rmatch_vowel_on_cons.
Qed.

(** *** Scanning with [sub_from] *)

Lemma sub_from_skip r tpl X Y b :
  X ≠ [] →
  sub_from r tpl (length X) b (X ++ Y) = sub_from r tpl O false Y.
Proof.
  revert b. induction X as [|c X IH]; intros b Hne; [done|].
  destruct X as [|c' X]; [by destruct Y|].
  cbn [length app sub_from]. by apply (IH false).
Qed.

Lemma sub_from_match r tpl b mt gs rest x :
  mt ≠ [] →
  head (rmatch r b (mt ++ rest)) = Some (mt, gs, x) →
  sub_from r tpl O b (mt ++ rest)
  = expand tpl mt gs ++ sub_from r tpl O false rest.
Proof.
  intros Hne Hm. destruct mt as [|c m']; [done|].
  cbn [app sub_from]. cbn [app] in Hm. rewrite Hm. f_equal.
  destruct m' as [|c' m']; [done|].
  by apply sub_from_skip.
Qed.

Lemma sub_from_no_match r tpl b c t :
  rmatch r b (c :: t) = [] →
  sub_from r tpl O b (c :: t) = c :: sub_from r tpl O false t.
Proof. intros Hm. cbn [sub_from]. by rewrite Hm. Qed.

Lemma stress_pattern_tail vs k :
  (k ≤ 4)%nat →
  stress_pattern vs k
  = RSeq stress_boundary (RSeq stress_marker (tail_pattern vs k)).
Proof.
  intros Hk. destruct k as [|[|[|[|[|k]]]]]; try reflexivity. lia.
Qed.

(** The matches of a stress pattern, from those of its tail. *)
Lemma rmatch_stress vs k b s :
  (k ≤ 4)%nat →
  rmatch (stress_pattern vs k) b s
  = match s with
    | x :: m :: t =>
        if (x =? Ch.space) && is_marker m
        then map (fun '(mt, g, rest) =>
                    ([x; m] ++ mt, Some [x] :: Some [m] :: g, rest))
                 (rmatch (tail_pattern vs k) false t)
        else []
    | _ => []
    end
    ++ match s with
       | m :: t =>
           if b && is_marker m
           then map (fun '(mt, g, rest) =>
                       ([m] ++ mt, Some [] :: Some [m] :: g, rest))
                    (rmatch (tail_pattern vs k) false t)
           else []
       | [] => []
       end.
Proof.
  intros Hk. rewrite stress_pattern_tail by done.
  rewrite rmatch_boundary. unfold stress_marker, is_marker.
  f_equal.
  - destruct s as [|x s]; [done|].
    destruct (x =? Ch.space); [|by destruct s]. cbn [andb].
    rewrite rmatch_seq_group_class. destruct s as [|m t]; [done|].
    destruct (bool_decide _); [|done].
    rewrite map_map. apply map_ext. by intros [[mt g] rest].
  - destruct b; [|by destruct s]. rewrite rmatch_seq_group_class.
    destruct s as [|m t]; [done|]. cbn [andb].
    destruct (bool_decide _); [|done].
    rewrite map_map. apply map_ext. by intros [[mt g] rest].
Qed.

Lemma quiet_cons c U :
  quiet (c :: U) = true →
  is_marker c = false
  ∧ (c = Ch.space → ∃ d t, U = d :: t ∧ is_marker d = false)
  ∧ quiet U = true.
Proof.
  unfold quiet. cbn [forallb guarded]. intros H.
  apply andb_prop in H as [H1 H2].
  apply andb_prop in H1 as [Hc H1]. apply andb_prop in H2 as [Hs H2].
  apply negb_true_iff in Hc. split_and!; [done| |by rewrite H1, H2].
  intros ->. rewrite N.eqb_refl in Hs. destruct U as [|d t]; [done|].
  apply negb_true_iff in Hs. eauto.
Qed.

Lemma sub_from_quiet vs k tpl U rest b :
  (k ≤ 4)%nat → quiet U = true →
  sub_from (stress_pattern vs k) tpl O b (U ++ rest)
  = U ++ sub_from (stress_pattern vs k) tpl O (b && is_nil U) rest.
Proof.
  intros Hk. revert b. induction U as [|c U IH]; intros b HU.
  - by rewrite andb_true_r.
  - apply quiet_cons in HU as (Hc & Hsp & HU).
    cbn [app]. rewrite sub_from_no_match.
    + rewrite IH by done. by rewrite andb_false_r.
    + rewrite rmatch_stress by done. rewrite Hc, andb_false_r.
      destruct (N.eqb_spec c Ch.space) as [Heq|Hne].
      * destruct (Hsp Heq) as (d & t & -> & Hd). cbn [app].
        by rewrite Hd, andb_false_r.
      * by destruct (U ++ rest).
Qed.

Lemma vowel_head v R :
  v ∈ VOWELS →
  head (rmatch (RGroup (ralts VOWELS)) false (v ++ R))
  = Some (first_alt v, [Some (first_alt v)], drop (length (first_alt v)) v ++ R)
  ∧ first_alt v ++ drop (length (first_alt v)) v = v
  ∧ first_alt v ≠ []
  ∧ quiet (drop (length (first_alt v)) v) = true.
Proof.
  intros Hv. vm_compute in Hv.
  repeat (apply elem_of_cons in Hv as [->|Hv];
          [split_and!; [vm_compute; reflexivity ..|by vm_compute
                        |vm_compute; reflexivity]|]).
  by apply elem_of_nil in Hv.
Qed.

Lemma quiet_cons_intro c U :
  is_marker c = false →
  (c = Ch.space → ∃ d t, U = d :: t ∧ is_marker d = false) →
  quiet U = true →
  quiet (c :: U) = true.
Proof.
  unfold quiet. cbn [forallb guarded]. intros Hc Hsp HU.
  apply andb_prop in HU as [H1 H2]. rewrite Hc, H1, H2. cbn [negb andb].
  rewrite andb_true_r.
  destruct (N.eqb_spec c Ch.space) as [Heq|]; [|done].
  destruct (Hsp Heq) as (d & t & -> & Hd). by rewrite Hd.
Qed.

Lemma quiet_app U V :
  quiet U = true → quiet V = true → quiet (U ++ V) = true.
Proof.
  intros HU HV. induction U as [|c U IH]; [done|].
  apply quiet_cons in HU as (Hc & Hsp & HU).
  cbn [app]. apply quiet_cons_intro; [done| |by apply IH].
  intros Heq. destruct (Hsp Heq) as (d & t & -> & Hd). by eexists _, _.
Qed.

Lemma quiet_head U d t : quiet U = true → U = d :: t → is_marker d = false.
Proof. intros HU ->. by apply quiet_cons in HU as (? & _). Qed.

Lemma quiet_space V :
  quiet V = true → V ≠ [] → quiet (Ch.space :: V) = true.
Proof.
  intros HV Hne. apply quiet_cons_intro; [done| |done].
  intros _. destruct V as [|d t]; [done|].
  exists d, t. split; [done|]. by eapply quiet_head.
Qed.

Lemma quiet_onset cs : Forall calm cs → quiet (onset cs) = true.
Proof.
  induction 1 as [|c cs [Hne Hc] Hcs IH]; [done|].
  rewrite onset_cons. apply quiet_space.
  - by apply quiet_app.
  - by destruct c.
Qed.

Lemma py_join_cons sep x y l :
  py_join sep (x :: y :: l) = x ++ sep ++ py_join sep (y :: l).
Proof. done. Qed.

Lemma py_join_onset t ts : py_join [Ch.space] (t :: ts) = t ++ onset ts.
Proof.
  revert t. induction ts as [|t' ts IH]; intros t.
  - cbn. by rewrite app_nil_r.
  - by rewrite py_join_cons, IH, onset_cons.
Qed.

Lemma quiet_join ts : Forall calm ts → quiet (py_join [Ch.space] ts) = true.
Proof.
  intros Hts. destruct Hts as [|t ts [Hne Ht] Hts]; [done|].
  rewrite py_join_onset. apply quiet_app; [done|by apply quiet_onset].
Qed.

(** *** Expansion of the replacement template *)

Lemma lookup_cons2 {A} (x y : A) (l : list A) (i : nat) :
  (x :: y :: l) !! S (S i) = l !! i.
Proof. done. Qed.

Lemma expand_onset_items (m : pystr) (g1 g2 : option pystr)
    (cs : list pystr) (tl : list (option pystr)) (a n : nat) :
  (a + n ≤ length cs)%nat →
  flat_map (expand_item m (g1 :: g2 :: (Some <$> cs) ++ tl))
           (flat_map (fun i => [TRef (3 + i); TLit [Ch.space]]) (seq a n))
  = onset' (take n (drop a cs)).
Proof.
  revert a. induction n as [|n IH]; intros a Han.
  - done.
  - cbn [seq flat_map app]. rewrite IH by lia.
    change (expand_item m (g1 :: g2 :: (Some <$> cs) ++ tl) (TRef (3 + a)))
      with (default [] (mjoin ((g1 :: g2 :: (Some <$> cs) ++ tl)
                                 !! S (S a)))).
    change (expand_item m (g1 :: g2 :: (Some <$> cs) ++ tl)
                        (TLit [Ch.space]))
      with [Ch.space].
    destruct (cs !! a) as [c|] eqn:Hc;
      [|apply lookup_ge_None in Hc; lia].
    rewrite lookup_cons2, lookup_app_l by (rewrite length_fmap; lia).
    rewrite list_lookup_fmap, Hc.
    change (default [] (mjoin (Some <$> Some c))) with c.
    rewrite (drop_S _ _ _ Hc). cbn [take]. rewrite onset'_cons.
    done.
Qed.

Lemma expand_stress_template cs bd mk v' mt :
  expand (stress_template (length cs)) mt
         (Some bd :: Some [mk] :: (Some <$> cs) ++ [Some v'])
  = bd ++ onset' cs ++ mk :: v'.
Proof.
  unfold expand, stress_template. rewrite !flat_map_app.
  rewrite expand_onset_items by lia.
  rewrite drop_0, firstn_all.
  change (flat_map _ [TRef 1]) with (bd ++ []).
  change (flat_map ?f [TRef 2; TRef (3 + length cs)])
    with ([mk] ++ default [] (mjoin ((Some bd :: Some [mk]
             :: (Some <$> cs) ++ [Some v']) !! S (S (length cs)))) ++ []).
  rewrite lookup_cons2, lookup_app_r by (rewrite length_fmap; lia).
  rewrite length_fmap, Nat.sub_diag.
  change (default [] (mjoin ([Some v'] !! 0%nat))) with v'.
  by rewrite !app_nil_r.
Qed.

Ltac list_norm :=
  repeat (rewrite <- app_assoc || rewrite <- app_comm_cons).

(** *** The position of the marker *)

Lemma is_marker_not_space m : is_marker m = true → (m =? Ch.space) = false.
Proof.
  unfold is_marker. intros H. apply bool_decide_eq_true in H.
  apply elem_of_cons in H as [->|H]; [done|].
  by apply list_elem_of_singleton in H as ->.
Qed.

Lemma rmatch_stress_at vs k b bd m t :
  (k ≤ 4)%nat → is_marker m = true → at_boundary bd b →
  rmatch (stress_pattern vs k) b (bd ++ m :: t)
  = map (fun '(mt, g, rest) =>
           (bd ++ m :: mt, Some bd :: Some [m] :: g, rest))
        (rmatch (tail_pattern vs k) false t).
Proof.
  intros Hk Hm [->|[-> ->]]; rewrite rmatch_stress by done; cbn [app].
  - rewrite N.eqb_refl, Hm. cbn [andb].
    replace (is_marker Ch.space) with false by done.
    by rewrite andb_false_r, app_nil_r.
  - rewrite Hm, (is_marker_not_space _ Hm). cbn [andb].
    by destruct t.
Qed.

Lemma vowel_not_cons v R x :
  v ∈ VOWELS → head (v ++ R) = Some x → x ∉ mjoin CONSONANTS.
Proof.
  intros Hv. vm_compute in Hv.
  repeat (apply elem_of_cons in Hv as [->|Hv];
          [intros [= <-]; apply (bool_decide_eq_false_1 (_ ∈ _));
           vm_compute; reflexivity|]).
  by apply elem_of_nil in Hv.
Qed.

Lemma vowel_quiet v :
  v ∈ VOWELS → quiet v = true ∧ head v ≠ Some Ch.space ∧ v ≠ [].
Proof.
  intros Hv. vm_compute in Hv.
  repeat (apply elem_of_cons in Hv as [->|Hv];
          [split_and!; [vm_compute; reflexivity|by vm_compute|done]|]).
  by apply elem_of_nil in Hv.
Qed.

(** The pass whose length is that of the onset rewrites. *)
Lemma sub_stress_hit cs m v R b bd :
  (length cs ≤ 4)%nat → is_marker m = true → Forall cons_or_aff cs →
  v ∈ VOWELS → at_boundary bd b →
  sub_from (stress_pattern VOWELS (length cs)) (stress_template (length cs))
           O b (bd ++ m :: onset cs ++ Ch.space :: v ++ R)
  = bd ++ onset' cs ++ m :: v
    ++ sub_from (stress_pattern VOWELS (length cs))
                (stress_template (length cs)) O false R.
Proof.
  intros Hk Hm Hcs Hv Hbd.
  destruct (vowel_head v R Hv) as (Hhd & Hsplit & Hne & Hq).
  set (v' := first_alt v) in *. set (u := drop (length v') v) in *.
  assert (bd ++ m :: onset cs ++ Ch.space :: v ++ R
          = (bd ++ m :: onset cs ++ Ch.space :: v') ++ (u ++ R)) as Heq.
  { rewrite <- Hsplit at 1. by list_norm. }
  rewrite Heq. erewrite sub_from_match; cycle 1.
  - by destruct bd.
  - rewrite <- Heq.
    rewrite rmatch_stress_at, rmatch_tail_onset by done.
    destruct (rmatch (RGroup (ralts VOWELS)) false (v ++ R))
      as [|[[v0 g0] r0] l]; [done|].
    injection Hhd as -> -> ->. cbn [map head]. reflexivity.
  - rewrite expand_stress_template, sub_from_quiet by done.
    rewrite andb_false_l. rewrite <- Hsplit.
    by list_norm.
Qed.

(** Where the tail of the pattern fails behind the marker, the marker and
    the quiet text after it are copied. *)
Lemma sub_stress_no vs j tpl b bd m X R :
  (j ≤ 4)%nat → is_marker m = true → at_boundary bd b →
  rmatch (tail_pattern vs j) false (X ++ R) = [] →
  quiet X = true →
  sub_from (stress_pattern vs j) tpl O b (bd ++ m :: X ++ R)
  = bd ++ m :: X ++ sub_from (stress_pattern vs j) tpl O false R.
Proof.
  intros Hj Hm Hbd Htail HX.
  assert (sub_from (stress_pattern vs j) tpl O false (m :: X ++ R)
          = m :: X ++ sub_from (stress_pattern vs j) tpl O false R) as Hstep.
  { rewrite sub_from_no_match.
    - by rewrite sub_from_quiet, andb_false_l.
    - rewrite rmatch_stress by done. rewrite (is_marker_not_space _ Hm).
      cbn [andb]. by destruct (X ++ R). }
  pose proof (rmatch_stress_at vs j b bd m (X ++ R) Hj Hm Hbd) as Hat.
  rewrite Htail in Hat. cbn [map] in Hat.
  destruct Hbd as [->|[-> ->]]; cbn [app] in *.
  - by rewrite sub_from_no_match, Hstep.
  - rewrite sub_from_no_match by done. f_equal.
    by rewrite sub_from_quiet, andb_false_l.
Qed.

Lemma rmatch_tail_miss cs j v R :
  j ≠ length cs → Forall cons_or_aff cs → v ∈ VOWELS →
  rmatch (tail_pattern VOWELS j) false (onset cs ++ Ch.space :: v ++ R) = [].
Proof.
  intros Hj Hcs Hv.
  destruct (decide (length cs < j)%nat) as [Hlt|Hge].
  - replace j with (length cs + S (j - S (length cs)))%nat by lia.
    apply rmatch_tail_short; [done|].
    intros x. by apply vowel_not_cons.
  - assert (j < length cs)%nat as Hlt by lia.
    destruct (cs !! j) as [c|] eqn:Hc; [|apply lookup_ge_None in Hc; lia].
    rewrite <- (take_drop_middle cs j c Hc).
    assert (length (take j cs) = j) as Hlen by (rewrite length_take; lia).
    rewrite <- Hlen at 1. apply rmatch_tail_long.
    + by apply Forall_take.
    + by apply (Forall_lookup_1 _ _ _ _ Hcs Hc).
Qed.

Lemma sub_stress_miss cs j tpl b bd m v R :
  (j ≤ 4)%nat → j ≠ length cs → is_marker m = true →
  Forall cons_or_aff cs → Forall calm cs → v ∈ VOWELS →
  at_boundary bd b →
  sub_from (stress_pattern VOWELS j) tpl O b
           (bd ++ m :: onset cs ++ Ch.space :: v ++ R)
  = bd ++ m :: onset cs ++ Ch.space :: v
    ++ sub_from (stress_pattern VOWELS j) tpl O false R.
Proof.
  intros Hj Hne Hm Hcs Hq Hv Hbd.
  pose proof (sub_stress_no VOWELS j tpl b bd m
                (onset cs ++ Ch.space :: v) R Hj Hm Hbd) as H.
  revert H. list_norm. intros H. apply H.
  - by apply rmatch_tail_miss.
  - destruct (vowel_quiet v Hv) as (Hqv & _ & Hnv).
    apply quiet_app; [by apply quiet_onset|by apply quiet_space].
Qed.

Lemma sub_stress_fused j tpl b bd m v R :
  (j ≤ 4)%nat → is_marker m = true → v ∈ VOWELS → at_boundary bd b →
  sub_from (stress_pattern VOWELS j) tpl O b (bd ++ m :: v ++ R)
  = bd ++ m :: v ++ sub_from (stress_pattern VOWELS j) tpl O false R.
Proof.
  intros Hj Hm Hv Hbd.
  destruct (vowel_quiet v Hv) as (Hqv & Hhd & Hnv).
  apply sub_stress_no; try done.
  apply tail_needs_space. by destruct v.
Qed.

(** *** Tokens joined by spaces *)

Lemma onset'_join cs : cs ≠ [] → onset' cs = py_join [Ch.space] cs ++ [Ch.space].
Proof.
  intros Hne. induction cs as [|c cs IH]; [done|].
  rewrite onset'_cons. destruct cs as [|c' cs]; [done|].
  rewrite IH by done. rewrite py_join_cons. by list_norm.
Qed.

(** *** The steps after the passes *)

Lemma lstrip_app chars Y c Q :
  c ∉ chars →
  py_lstrip chars (Y ++ c :: Q) = py_lstrip chars Y ++ c :: Q.
Proof.
  intros Hc. induction Y as [|y Y IH]; cbn [app py_lstrip].
  - by rewrite (bool_decide_eq_false_2 _ Hc).
  - destruct (bool_decide (y ∈ chars)); [done|by list_norm].
Qed.

Lemma strip_keep chars c Q d Y :
  c ∉ chars → d ∉ chars →
  py_strip chars ((c :: Q ++ [d]) ++ Y) = (c :: Q ++ [d]) ++ py_rstrip chars Y.
Proof.
  intros Hc Hd. unfold py_strip, py_rstrip.
  change ((c :: Q ++ [d]) ++ Y) with (c :: (Q ++ [d]) ++ Y).
  cbn [py_lstrip]. rewrite (bool_decide_eq_false_2 _ Hc).
  rewrite reverse_cons, !reverse_app, reverse_singleton.
  list_norm. cbn [app]. rewrite lstrip_app by done.
  rewrite reverse_app, reverse_cons, reverse_app, reverse_singleton,
    reverse_involutive.
  by list_norm.
Qed.

Lemma replace_guarded a new Q Y :
  guarded (fun c => c =? a) (fun d => negb (d =? Ch.space)) Q = true →
  replace_from [a; Ch.space] new O (Q ++ Y)
  = Q ++ replace_from [a; Ch.space] new O Y.
Proof.
  induction Q as [|c Q IH]; intros HQ; [done|].
  cbn [guarded] in HQ. apply andb_prop in HQ as [Hc HQ].
  specialize (IH HQ).
  cbn [app replace_from]. rewrite is_prefix_cons, (N.eqb_sym a c).
  destruct (c =? a); cbn [andb]; [|by rewrite IH].
  destruct Q as [|d Q]; [done|]. cbn [app] in *.
  rewrite is_prefix_cons, (N.eqb_sym Ch.space d).
  apply negb_true_iff in Hc. rewrite Hc. cbn [andb].
  by rewrite IH.
Qed.

Lemma replace_occurrence a Q1 Q2 Y :
  guarded (fun c => c =? a) (fun d => negb (d =? Ch.space)) Q1 = true →
  guarded (fun c => c =? a) (fun d => negb (d =? Ch.space)) Q2 = true →
  replace_from [a; Ch.space] [a] O (Q1 ++ a :: Ch.space :: Q2 ++ Y)
  = Q1 ++ a :: Q2 ++ replace_from [a; Ch.space] [a] O Y.
Proof.
  intros H1 H2. rewrite replace_guarded by done. f_equal.
  cbn [replace_from]. rewrite !is_prefix_cons, is_prefix_nil, !N.eqb_refl.
  cbn [andb length pred app]. f_equal.
  by rewrite replace_guarded.
Qed.

Lemma sub_class_filter cs b s :
  sub_from (RClass cs) [] O b s = filter (fun c => c ∉ cs) s.
Proof.
  revert b. induction s as [|c s IH]; intros b; [done|].
  cbn [sub_from rmatch]. rewrite filter_cons.
  destruct (decide (c ∈ cs)) as [Hc|Hc].
  - rewrite (bool_decide_eq_true_2 _ Hc). cbn [head length expand flat_map app].
    rewrite decide_False by tauto. apply IH.
  - rewrite (bool_decide_eq_false_2 _ Hc). cbn [head].
    rewrite decide_True by done. by rewrite IH.
Qed.

Lemma guarded_app p q X W :
  guarded p q X = true → guarded p q W = true →
  guarded p q (X ++ W) = true.
Proof.
  intros HX HW. induction X as [|c X IH]; [done|].
  cbn [guarded] in HX. apply andb_prop in HX as [Hc HX].
  cbn [app guarded]. rewrite IH by done. rewrite andb_true_r.
  destruct (p c); [|done]. by destruct X.
Qed.

Lemma guarded_none p q X :
  forallb (fun c => negb (p c)) X = true → guarded p q X = true.
Proof.
  induction X as [|c X IH]; [done|]. cbn [forallb guarded].
  intros H. apply andb_prop in H as [Hc H]. apply negb_true_iff in Hc.
  by rewrite Hc, IH.
Qed.

(** *** Strings that the steps after the passes leave alone *)

Lemma solid_inv t :
  solid t = true →
  t ≠ []
  ∧ forallb (fun c => negb (is_marker c)) t = true
  ∧ forallb (fun c => negb (c =? Ch.space)) t = true
  ∧ forallb (fun c => negb (bool_decide (c ∈ REMOVE))) t = true.
Proof.
  unfold solid. intros H. apply andb_prop in H as [Hne H].
  split; [by destruct t|]. clear Hne.
  induction t as [|c t IH]; [done|]. cbn [forallb] in *.
  apply andb_prop in H as [Hc H]. apply andb_prop in Hc as [Hc H3].
  apply andb_prop in Hc as [H1 H2]. destruct (IH H) as (? & ? & ?).
  rewrite H1, H2, H3. by split_and!.
Qed.

Lemma solid_calm t : solid t = true → calm t.
Proof.
  intros (Hne & Hm & Hs & _)%solid_inv. split; [done|].
  unfold quiet. rewrite Hm. cbn [andb].
  apply guarded_none. exact Hs.
Qed.

Lemma solid_sturdy t : solid t = true → sturdy t = true.
Proof.
  intros (Hne & _ & Hs & Hr)%solid_inv. unfold sturdy.
  rewrite Hr, (guarded_none _ _ _ Hs), !andb_true_r.
  destruct t as [|c t]; [done|]. cbn [forallb] in Hs.
  by apply andb_prop in Hs as [-> _].
Qed.

Lemma forallb_app' {A} (f : A → bool) l1 l2 :
  forallb f l1 = true → forallb f l2 = true → forallb f (l1 ++ l2) = true.
Proof. intros H1 H2. by rewrite forallb_app, H1, H2. Qed.

Lemma no_marker_fuse_guard a X :
  is_marker a = true →
  forallb (fun c => negb (is_marker c)) X = true →
  fuse_guard a X = true.
Proof.
  intros Ha HX. apply guarded_none. induction X as [|c X IH]; [done|].
  cbn [forallb] in *. apply andb_prop in HX as [Hc HX].
  rewrite IH by done. rewrite andb_true_r.
  destruct (N.eqb_spec c a) as [->|]; [|done].
  by rewrite Ha in Hc.
Qed.

Lemma sturdy_ends Q :
  sturdy Q = true →
  ∃ c Q', Q = c :: Q' ∧ c ≠ Ch.space
          ∧ ∃ Q'' d, Q = Q'' ++ [d] ∧ d ≠ Ch.space.
Proof.
  unfold sturdy. intros H. apply andb_prop in H as [H _].
  apply andb_prop in H as [Hh Hg].
  destruct Q as [|c Q]; [done|]. exists c, Q. split; [done|].
  split; [by apply negb_true_iff, N.eqb_neq in Hh|].
  clear Hh. revert c Hg. induction Q as [|c' Q IH]; intros c Hg.
  - exists [], c. split; [done|]. cbn [guarded] in Hg.
    intros ->. by rewrite N.eqb_refl in Hg.
  - cbn [guarded] in Hg. apply andb_prop in Hg as [_ Hg].
    destruct (IH c' Hg) as (Q'' & d & -> & Hd).
    by exists (c :: Q''), d.
Qed.

Lemma tidy_sturdy Q Y :
  sturdy Q = true →
  re_sub (RClass REMOVE) []
         (py_replace [Ch.space; Ch.space] [Ch.space]
                     (py_strip [Ch.space] (Q ++ Y)))
  = Q ++ tidy_tail Y.
Proof.
  intros HQ. destruct (sturdy_ends Q HQ) as (c & Q' & Hc & Hcs & Q'' & d & Hd & Hds).
  assert (py_strip [Ch.space] (Q ++ Y) = Q ++ py_rstrip [Ch.space] Y) as ->.
  { destruct Q'' as [|c0 Q''].
    - cbn [app] in Hd. subst Q. injection Hd as -> ->.
      unfold py_strip, py_rstrip. cbn [app py_lstrip].
      rewrite bool_decide_eq_false_2 by (by intros ?%list_elem_of_singleton).
      rewrite reverse_cons. rewrite lstrip_app
        by (by intros ?%list_elem_of_singleton).
      rewrite reverse_app, reverse_singleton. done.
    - assert (c0 = c) as -> by (rewrite Hd in Hc; by injection Hc).
      rewrite Hd. cbn [app].
      apply (strip_keep [Ch.space] c Q'' d Y);
        by intros ?%list_elem_of_singleton. }
  unfold sturdy in HQ. apply andb_prop in HQ as [HQ Hr].
  apply andb_prop in HQ as [_ Hg].
  unfold py_replace, re_sub, tidy_tail.
  rewrite replace_guarded by done.
  rewrite !sub_class_filter, filter_app. f_equal.
  clear -Hr. induction Q as [|c Q IH]; [done|].
  cbn [forallb] in Hr. apply andb_prop in Hr as [Hc Hr].
  apply negb_true_iff, bool_decide_eq_false in Hc.
  rewrite filter_cons, decide_True by done. by rewrite IH.
Qed.

(** *** Tokens of the inventory *)

Lemma plain_solid t : plain t → solid t = true.
Proof.
  intros (Hin & H1 & H2). vm_compute in Hin.
  repeat (apply elem_of_cons in Hin as [->|Hin];
          [first [done | vm_compute; reflexivity]|]).
  by apply elem_of_nil in Hin.
Qed.

Lemma plain_onset_cons_or_aff t : plain_onset t → cons_or_aff t.
Proof.
  intros (Hin & _). apply elem_of_app in Hin as [Hin|Hin]; [left|by right].
  vm_compute in Hin.
  repeat (apply elem_of_cons in Hin as [->|Hin];
          [eexists; split; [reflexivity|vm_compute; repeat constructor]|]).
  by apply elem_of_nil in Hin.
Qed.

Lemma plain_onset_plain t : plain_onset t → plain t.
Proof.
  intros (Hin & H1 & H2). split; [|done]. unfold PHONEMES.
  rewrite !elem_of_app in *. tauto.
Qed.

Lemma vowel_solid v : v ∈ VOWELS → solid v = true.
Proof.
  intros Hin. vm_compute in Hin.
  repeat (apply elem_of_cons in Hin as [->|Hin]; [vm_compute; reflexivity|]).
  by apply elem_of_nil in Hin.
Qed.

Lemma marker_cases m :
  is_marker m = true → m = Ch.stress2 ∨ m = Ch.stress1.
Proof.
  unfold is_marker. intros H%bool_decide_eq_true.
  apply elem_of_cons in H as [->|H]; [by left|].
  apply list_elem_of_singleton in H as ->. by right.
Qed.

Lemma onset_app xs ys : onset (xs ++ ys) = onset xs ++ onset ys.
Proof. unfold onset. by rewrite fmap_app, join_app. Qed.

Lemma onset'_app xs ys : onset' (xs ++ ys) = onset' xs ++ onset' ys.
Proof. unfold onset'. by rewrite fmap_app, join_app. Qed.

Lemma py_join_split xs y ys :
  py_join [Ch.space] (xs ++ y :: ys) = onset' xs ++ y ++ onset ys.
Proof.
  induction xs as [|x xs IH]; [apply py_join_onset|].
  cbn [app]. rewrite py_join_onset, onset'_cons.
  assert (onset (xs ++ y :: ys)
          = Ch.space :: py_join [Ch.space] (xs ++ y :: ys)) as ->.
  { destruct (xs ++ y :: ys) as [|t ts] eqn:E; [by destruct xs|].
    by rewrite onset_cons, py_join_onset. }
  rewrite IH. by list_norm.
Qed.

Lemma lead_boundary pre :
  Forall calm pre →
  ∃ U bd, onset' pre = U ++ bd ∧ quiet U = true ∧ at_boundary bd (is_nil U).
Proof.
  intros Hpre. destruct pre as [|t pre].
  - exists [], []. split_and!; [done|done|by right].
  - exists (py_join [Ch.space] (t :: pre)), [Ch.space].
    split_and!; [by apply onset'_join|by apply quiet_join|by left].
Qed.

(** *** The two replacements that fuse a marker with what follows *)

Lemma sturdy_marker_vowel m v :
  is_marker m = true → solid v = true →
  sturdy (m :: v) = true ∧ sturdy (m :: Ch.space :: v) = true.
Proof.
  intros Hm Hv. pose proof (solid_sturdy _ Hv) as Hs.
  destruct (solid_inv _ Hv) as (Hne & _ & _ & _).
  unfold sturdy in *. apply andb_prop in Hs as [Hs H3].
  apply andb_prop in Hs as [H1 H2].
  assert (bool_decide (m ∈ REMOVE) = false) as Hr
    by (destruct (marker_cases m Hm) as [->| ->]; by vm_compute).
  cbn [guarded forallb]. rewrite (is_marker_not_space _ Hm), Hr, H2, H3.
  destruct v as [|c v]; [done|]. rewrite H1.
  by vm_compute.
Qed.

Lemma fuse_guard_marker_vowel a m v :
  is_marker a = true → solid v = true → fuse_guard a (m :: v) = true.
Proof.
  intros Ha Hv. destruct (solid_inv _ Hv) as (Hne & Hm & Hs & _).
  pose proof (no_marker_fuse_guard a v Ha Hm) as Hg.
  unfold fuse_guard in *. cbn [guarded]. rewrite Hg, andb_true_r.
  destruct v as [|c v]; [done|]. cbn [forallb] in Hs.
  apply andb_prop in Hs as [-> _]. by destruct (m =? a).
Qed.

(** *** From the passes to the stored string *)

Lemma phones_str7_finish s : phones_str7_of s = finish (phones_str4_of s).
Proof. done. Qed.

Lemma is_marker_stress1 : is_marker Ch.stress1 = true.
Proof. done. Qed.

Lemma is_marker_stress2 : is_marker Ch.stress2 = true.
Proof. done. Qed.

(** ** Sequences with several stress markers *)

Lemma onset_space ts : onset ts ++ [Ch.space] = Ch.space :: onset' ts.
Proof.
  induction ts as [|t ts IH]; [done|].
  rewrite onset_cons, onset'_cons. list_norm. by rewrite IH.
Qed.

Lemma str_split b pre x more :
  str b (pre ++ x :: more) = strp b pre ++ x ++ onset more.
Proof.
  destruct b; cbn [str strp]; [apply py_join_split|].
  rewrite onset_app, onset_cons. by list_norm.
Qed.

Lemma strp_app b pre pre' : strp b (pre ++ pre') = strp b pre ++ onset' pre'.
Proof.
  destruct b; cbn [str strp]; [apply onset'_app|].
  rewrite onset_app. list_norm. by rewrite onset_space.
Qed.

Lemma str_snoc b pre x : str b (pre ++ [x]) = strp b pre ++ x.
Proof. by rewrite str_split, onset_nil, app_nil_r. Qed.

Lemma str_app b ts more :
  ts ≠ [] → str b (ts ++ more) = str b ts ++ onset more.
Proof.
  intros Hne. destruct (exists_last Hne) as (pre & x & ->).
  list_norm. cbn [app]. rewrite str_split, str_snoc. by list_norm.
Qed.

Lemma strp_boundary b pre :
  Forall calm pre →
  ∃ U bd, strp b pre = U ++ bd ∧ quiet U = true
          ∧ at_boundary bd (b && is_nil U).
Proof.
  intros Hpre. destruct b; cbn [strp andb].
  - by apply lead_boundary.
  - exists (onset pre), [Ch.space]. split_and!; [done| |by left].
    by apply quiet_onset.
Qed.

Lemma str_quiet b ts :
  Forall calm ts → ts ≠ [] → quiet (str b ts) = true ∧ str b ts ≠ [].
Proof.
  intros Hts Hne. destruct b; cbn [str].
  - split; [by apply quiet_join|].
    destruct Hts as [|t ts [Ht _] _]; [done|].
    rewrite py_join_onset. by destruct t.
  - split; [by apply quiet_onset|]. destruct ts; [done|].
    by rewrite onset_cons.
Qed.

Lemma relocated_snoc g :
  relocated g = (syl_lead g ++ syl_onset g) ++ [syl_mark g :: syl_vowel g].
Proof. unfold relocated. by rewrite app_assoc. Qed.

Lemma relocated_more g more :
  relocated g ++ more
  = (syl_lead g ++ syl_onset g) ++ (syl_mark g :: syl_vowel g) :: more.
Proof. unfold relocated. by list_norm. Qed.

Lemma spelled_more g more :
  spelled g ++ more
  = syl_lead g ++ [syl_mark g] :: (syl_onset g ++ syl_vowel g :: more).
Proof. unfold spelled. by list_norm. Qed.

(** *** One pass over a sequence of syllables *)

Section Passes.
Variable j : nat.
Hypothesis Hj : (j ≤ 4)%nat.

Lemma scan_syllable b f g more R :
  well_formed g →
  sub_from (stress_pattern VOWELS j) (stress_template j) O b
           (str b (show (f, g) ++ more) ++ R)
  = str b (show (pass_step j (f, g)))
    ++ sub_from (stress_pattern VOWELS j) (stress_template j) O false
                (onset more ++ R).
Proof.
  intros (Hlead & Hm & Hons & Hlen & Hv).
  assert (is_marker (syl_mark g) = true) as Hmk
    by (by destruct Hm as [-> | ->]).
  assert (Forall calm (syl_lead g)) as Hlead_q.
  { eapply Forall_impl; [exact Hlead|]. intros t Ht.
    by apply solid_calm, plain_solid. }
  assert (Forall calm (syl_onset g)) as Hons_q.
  { eapply Forall_impl; [exact Hons|]. intros t Ht.
    by apply solid_calm, plain_solid, plain_onset_plain. }
  assert (Forall cons_or_aff (syl_onset g)) as Hons_c
    by (eapply Forall_impl; [exact Hons|apply plain_onset_cons_or_aff]).
  unfold pass_step, show. cbn [fst snd]. destruct f; cbn [orb].
  - rewrite relocated_more, str_split, relocated_snoc, str_snoc.
    destruct (strp_boundary b (syl_lead g ++ syl_onset g))
      as (U & bd & -> & HU & Hbd); [by apply Forall_app|].
    list_norm. rewrite sub_from_quiet by done.
    by rewrite sub_stress_fused.
  - rewrite spelled_more, str_split.
    destruct (strp_boundary b (syl_lead g) Hlead_q)
      as (U & bd & HUbd & HU & Hbd).
    rewrite onset_app, onset_cons.
    destruct (decide (length (syl_onset g) = j)) as [<-|Hne].
    + rewrite bool_decide_eq_true_2 by done.
      rewrite relocated_snoc, str_snoc, strp_app, HUbd. list_norm.
      cbn [app]. rewrite sub_from_quiet by done.
      by rewrite sub_stress_hit.
    + rewrite bool_decide_eq_false_2 by done.
      rewrite <- (app_nil_r (spelled g)), spelled_more, str_split, HUbd.
      rewrite onset_app, onset_cons, onset_nil.
      list_norm. cbn [app]. rewrite sub_from_quiet by done.
      rewrite sub_stress_miss by done. by list_norm.
Qed.

Lemma show_nonempty b : show b ≠ [].
Proof.
  destruct b as [[] g]; unfold show, relocated, spelled; cbn [fst snd];
    intros H; repeat apply app_eq_nil in H as [_ H]; done.
Qed.

Lemma shown_nonempty (bs : list (bool * syllable)) fin :
  bs ≠ [] → flat_map show bs ++ fin ≠ [].
Proof.
  destruct bs as [|b bs]; [done|]. intros _ H. cbn [flat_map] in H.
  apply app_eq_nil in H as [H _]. apply app_eq_nil in H as [H _].
  by apply show_nonempty in H.
Qed.

Lemma scan_syllables b (bs : list (bool * syllable)) fin R :
  Forall (fun x => well_formed x.2) bs → Forall plain fin →
  sub_from (stress_pattern VOWELS j) (stress_template j) O b
           (str b (flat_map show bs ++ fin) ++ R)
  = str b (flat_map show (pass_step j <$> bs) ++ fin)
    ++ sub_from (stress_pattern VOWELS j) (stress_template j) O
                (b && is_nil (flat_map show bs ++ fin)) R.
Proof.
  intros Hbs Hfin. revert b. induction Hbs as [|[f g] bs Hg _ IH]; intros b.
  - cbn [flat_map fmap list_fmap app].
    destruct fin as [|t fin']; [by destruct b|].
    assert (Forall calm (t :: fin')) as Hq.
    { eapply Forall_impl; [exact Hfin|]. intros u Hu.
      by apply solid_calm, plain_solid. }
    destruct (str_quiet b (t :: fin') Hq) as [HU Hne]; [done|].
    rewrite sub_from_quiet by done. cbn [is_nil]. rewrite andb_false_r.
    by destruct (str b (t :: fin')), b.
  - cbn [flat_map fmap list_fmap]. list_norm.
    rewrite scan_syllable by done.
    specialize (IH false). cbn [str andb] in IH. rewrite IH.
    rewrite (str_app b (show (pass_step j (f, g)))) by apply show_nonempty.
    list_norm. f_equal. f_equal.
    destruct (show (f, g) ++ flat_map show bs ++ fin) eqn:E;
      [|by rewrite andb_false_r].
    apply app_eq_nil in E as [E _]. by apply show_nonempty in E.
Qed.

(** The pass on a sequence of syllables followed by tokens without
    markers and by any text. *)
Lemma pass_syllables (bs : list (bool * syllable)) fin R :
  Forall (fun x => well_formed x.2) bs → Forall plain fin →
  flat_map show bs ++ fin ≠ [] →
  stress_pass VOWELS j (py_join [Ch.space] (flat_map show bs ++ fin) ++ R)
  = py_join [Ch.space] (flat_map show (pass_step j <$> bs) ++ fin)
    ++ tail_pass j R.
Proof.
  intros Hbs Hfin Hne. unfold stress_pass, re_sub, tail_pass.
  pose proof (scan_syllables true bs fin R Hbs Hfin) as H.
  cbn [str] in H. rewrite H. f_equal.
  by destruct (flat_map show bs ++ fin).
Qed.
End Passes.

(** *** The four passes *)

Lemma pass_step_wf j (bs : list (bool * syllable)) :
  Forall (fun x => well_formed x.2) bs →
  Forall (fun x => well_formed x.2) (pass_step j <$> bs).
Proof. intros H. apply Forall_fmap. by eapply Forall_impl. Qed.

Lemma pass_step_nonempty j (bs : list (bool * syllable)) fin :
  flat_map show bs ++ fin ≠ [] →
  flat_map show (pass_step j <$> bs) ++ fin ≠ [].
Proof. destruct bs; [done|]. intros _. by apply shown_nonempty. Qed.

Lemma passes_syllables (bs : list (bool * syllable)) fin R :
  Forall (fun x => well_formed x.2) bs → Forall plain fin →
  flat_map show bs ++ fin ≠ [] →
  phones_str4_of (py_join [Ch.space] (flat_map show bs ++ fin) ++ R)
  = py_join [Ch.space]
      (flat_map show
         (pass_step 1 <$> (pass_step 2 <$> (pass_step 3
                                              <$> (pass_step 4 <$> bs))))
       ++ fin)
    ++ tail_passes R.
Proof.
  intros Hbs Hfin Hne. unfold phones_str4_of, tail_passes.
  rewrite !pass_syllables;
    auto using pass_step_wf, pass_step_nonempty with lia.
Qed.

Lemma fresh_spelled gs : flat_map show (pair false <$> gs) = flat_map spelled gs.
Proof. induction gs as [|g gs IH]; [done|]. cbn. by rewrite <- IH. Qed.

Lemma fresh_wf gs :
  Forall well_formed gs →
  Forall (fun x : bool * syllable => well_formed x.2) (pair false <$> gs).
Proof. intros H. apply Forall_fmap. by eapply Forall_impl. Qed.

Lemma pass_step_fresh j gs :
  flat_map show (pass_step j <$> (pair false <$> gs))
  = flat_map (after_pass j) gs.
Proof.
  induction gs as [|g gs IH]; [done|]. cbn [fmap list_fmap flat_map] in *.
  by rewrite IH.
Qed.

Lemma passes_fresh gs :
  Forall well_formed gs →
  pass_step 1 <$> (pass_step 2 <$> (pass_step 3
                     <$> (pass_step 4 <$> (pair false <$> gs))))
  = settle <$> gs.
Proof.
  induction 1 as [|g gs (_ & _ & _ & Hlen & _) _ IH]; [done|].
  cbn [fmap list_fmap] in *. rewrite IH. f_equal.
  unfold pass_step, settle. cbn [fst snd orb]. f_equal.
  destruct (syl_onset g) as [|? [|? [|? [|? [|? ?]]]]]; cbn in *; done || lia.
Qed.

Lemma settle_after gs : flat_map show (settle <$> gs) = flat_map after_passes gs.
Proof.
  induction gs as [|g gs IH]; [done|]. cbn [fmap list_fmap flat_map] in *.
  rewrite IH. f_equal. unfold show, settle, after_passes. cbn [fst snd].
  by destruct (syl_onset g).
Qed.

(** *** The steps after the passes, on a sequence of syllables *)

Lemma sturdy_join ts :
  Forall (fun t => sturdy t = true) ts → ts ≠ [] →
  sturdy (py_join [Ch.space] ts) = true.
Proof.
  induction 1 as [|t ts Ht Hts IH]; [done|]. intros _.
  destruct ts as [|t' ts]; [done|]. rewrite py_join_cons.
  specialize (IH ltac:(done)). revert IH.
  generalize (py_join [Ch.space] (t' :: ts)). intros Q HQ.
  unfold sturdy in *.
  apply andb_prop in Ht as [Ht H3]. apply andb_prop in Ht as [H1 H2].
  apply andb_prop in HQ as [HQ Q3]. apply andb_prop in HQ as [Q1 Q2].
  apply andb_true_intro; split; [apply andb_true_intro; split|].
  - destruct t; [done|]. done.
  - apply guarded_app; [done|]. cbn [app guarded].
    rewrite N.eqb_refl, Q2, andb_true_r. by destruct Q.
  - apply forallb_app'; [done|]. cbn [app forallb]. by rewrite Q3.
Qed.

Lemma onset_no_marker toks :
  Forall (fun t => solid t = true) toks →
  forallb (fun c => negb (is_marker c)) (onset toks) = true.
Proof.
  induction 1 as [|t toks Ht _ IH]; [done|].
  rewrite onset_cons.
  destruct (solid_inv _ Ht) as (_ & Hm & _ & _).
  cbn [forallb]. by apply forallb_app'.
Qed.

Lemma sturdy_marker m : is_marker m = true → sturdy [m] = true.
Proof. intros [-> | ->]%marker_cases; vm_compute; reflexivity. Qed.

Lemma fuse_guard_other a c Q :
  (c =? a) = false → fuse_guard a Q = true → fuse_guard a (c :: Q) = true.
Proof. unfold fuse_guard. cbn [guarded]. by intros -> ->. Qed.

Section Fusing.
Variable g : syllable.
Hypothesis Hg : well_formed g.

Lemma wf_marker : is_marker (syl_mark g) = true.
Proof. destruct Hg as (_ & [-> | ->] & _); done. Qed.

Lemma wf_lead_solid : Forall (fun t => solid t = true) (syl_lead g).
Proof.
  destruct Hg as (H & _). eapply Forall_impl; [exact H|apply plain_solid].
Qed.

Lemma wf_onset_solid : Forall (fun t => solid t = true) (syl_onset g).
Proof.
  destruct Hg as (_ & _ & H & _). eapply Forall_impl; [exact H|].
  intros t Ht. by apply plain_solid, plain_onset_plain.
Qed.

Lemma wf_vowel_solid : solid (syl_vowel g) = true.
Proof. destruct Hg as (_ & _ & _ & _ & H). by apply vowel_solid. Qed.

Lemma show_sturdy f : Forall (fun t => sturdy t = true) (show (f, g)).
Proof.
  pose proof wf_marker. pose proof wf_vowel_solid.
  assert (∀ ts, Forall (fun t => solid t = true) ts →
                Forall (fun t => sturdy t = true) ts) as Hs
    by (intros ts Hts; eapply Forall_impl; [exact Hts|apply solid_sturdy]).
  destruct f; unfold show, relocated, spelled; cbn [fst snd].
  - repeat apply Forall_app_2; auto using wf_lead_solid, wf_onset_solid.
    apply Forall_singleton. by apply sturdy_marker_vowel.
  - apply Forall_app_2; [auto using wf_lead_solid|].
    apply Forall_cons_2; [by apply sturdy_marker|].
    apply Forall_app_2; [auto using wf_onset_solid|].
    apply Forall_singleton. by apply solid_sturdy.
Qed.

(** One of the two replacements, on the text of one syllable. *)
Lemma fuse_syllable a f Y :
  is_marker a = true → settled (f, g) →
  replace_from [a; Ch.space] [a] O (onset (show (f, g)) ++ Y)
  = onset (show (fuse_step a (f, g))) ++ replace_from [a; Ch.space] [a] O Y.
Proof.
  intros Ha Hset. pose proof wf_marker as Hm. pose proof wf_vowel_solid as Hv.
  assert ((Ch.space =? a) = false) as Hsp
    by (apply N.eqb_neq; intros <-; by vm_compute in Ha).
  unfold fuse_step, show. cbn [fst snd].
  destruct f; cbn [orb].
  - apply replace_guarded. rewrite relocated_snoc, onset_app, onset_cons.
    rewrite onset_nil, app_nil_r.
    apply guarded_app.
    + apply no_marker_fuse_guard; [done|]. apply onset_no_marker.
      apply Forall_app_2; auto using wf_lead_solid, wf_onset_solid.
    + apply fuse_guard_other; [done|]. by apply fuse_guard_marker_vowel.
  - destruct Hset as [?|Hnil]; [done|]. cbn [fst snd] in Hnil.
    pose proof (onset_no_marker _ wf_lead_solid) as HL.
    destruct (solid_inv _ Hv) as (_ & Hvm & _ & _).
    destruct (N.eqb_spec (syl_mark g) a) as [Heq|Hne];
      unfold spelled, relocated; rewrite Hnil; cbn [app];
      rewrite !onset_app, !onset_cons, !onset_nil, !app_nil_r.
    + rewrite Heq.
      pose proof (replace_occurrence a (onset (syl_lead g) ++ [Ch.space])
                    (syl_vowel g) Y) as H.
      revert H. list_norm. cbn [app]. intros H. apply H.
      * apply guarded_app; [by apply no_marker_fuse_guard|].
        cbn [guarded]. by rewrite Hsp.
      * by apply no_marker_fuse_guard.
    + pose proof (replace_guarded a [a]
                    (onset (syl_lead g)
                     ++ Ch.space :: syl_mark g :: Ch.space :: syl_vowel g)
                    Y) as H.
      revert H. list_norm. cbn [app]. intros H. apply H.
      apply guarded_app; [by apply no_marker_fuse_guard|].
      cbn [guarded]. rewrite Hsp, (proj2 (N.eqb_neq _ _) Hne). cbn [andb].
      by apply no_marker_fuse_guard.
Qed.
End Fusing.

Lemma fuse_step_wf a (bs : list (bool * syllable)) :
  Forall (fun x => well_formed x.2) bs →
  Forall (fun x => well_formed x.2) (fuse_step a <$> bs).
Proof. intros H. apply Forall_fmap. by eapply Forall_impl. Qed.

Lemma fuse_step_settled a (bs : list (bool * syllable)) :
  Forall settled bs → Forall settled (fuse_step a <$> bs).
Proof.
  intros H. apply Forall_fmap. eapply Forall_impl; [exact H|].
  intros [f g] [Hf|Hnil]; [left|by right]. cbn in *. by rewrite Hf.
Qed.

Lemma fuse_syllables a (bs : list (bool * syllable)) fin Y :
  is_marker a = true →
  Forall (fun x => well_formed x.2) bs → Forall settled bs →
  Forall plain fin →
  replace_from [a; Ch.space] [a] O (onset (flat_map show bs ++ fin) ++ Y)
  = onset (flat_map show (fuse_step a <$> bs) ++ fin)
    ++ replace_from [a; Ch.space] [a] O Y.
Proof.
  intros Ha Hbs Hset Hfin. induction Hbs as [|[f g] bs Hg _ IH].
  - cbn [flat_map fmap list_fmap app]. apply replace_guarded.
    apply no_marker_fuse_guard; [done|]. apply onset_no_marker.
    eapply Forall_impl; [exact Hfin|apply plain_solid].
  - apply Forall_cons in Hset as [Hs Hset].
    cbn [flat_map fmap list_fmap]. list_norm. rewrite !onset_app. list_norm.
    rewrite fuse_syllable by done. f_equal.
    specialize (IH Hset). rewrite !onset_app in IH. revert IH.
    by list_norm.
Qed.

Lemma onset_join ts :
  ts ≠ [] → onset ts = Ch.space :: py_join [Ch.space] ts.
Proof. destruct ts; [done|]. intros _. by rewrite onset_cons, py_join_onset. Qed.

Lemma fuse_joined a (bs : list (bool * syllable)) fin Y :
  is_marker a = true →
  Forall (fun x => well_formed x.2) bs → Forall settled bs →
  Forall plain fin → flat_map show bs ++ fin ≠ [] →
  py_replace [a; Ch.space] [a]
             (py_join [Ch.space] (flat_map show bs ++ fin) ++ Y)
  = py_join [Ch.space] (flat_map show (fuse_step a <$> bs) ++ fin)
    ++ py_replace [a; Ch.space] [a] Y.
Proof.
  intros Ha Hbs Hset Hfin Hne.
  pose proof (fuse_syllables a bs fin Y Ha Hbs Hset Hfin) as H.
  assert (flat_map show (fuse_step a <$> bs) ++ fin ≠ []) as Hne'
    by (destruct bs; [done|by apply shown_nonempty]).
  rewrite !onset_join in H by done.
  assert ((Ch.space =? a) = false) as Hsp
    by (apply N.eqb_neq; intros <-; by vm_compute in Ha).
  pose proof (replace_guarded a [a] [Ch.space]
                (py_join [Ch.space] (flat_map show bs ++ fin) ++ Y)) as H'.
  cbn [app guarded] in H, H'. rewrite Hsp in H'.
  rewrite H' in H by done. by injection H.
Qed.

Lemma fused_relocated (bs : list (bool * syllable)) :
  Forall (fun x => well_formed x.2) bs →
  flat_map show (fuse_step Ch.stress1 <$> (fuse_step Ch.stress2 <$> bs))
  = flat_map (fun x => relocated x.2) bs.
Proof.
  induction 1 as [|[f g] bs (_ & Hm & _) _ IH]; [done|].
  cbn [flat_map fmap list_fmap] in *. rewrite IH. f_equal.
  unfold show, fuse_step. cbn [fst snd] in *.
  destruct Hm as [-> | ->]; by destruct f.
Qed.

Lemma finish_syllables (bs : list (bool * syllable)) fin T :
  Forall (fun x => well_formed x.2) bs → Forall settled bs →
  Forall plain fin → flat_map show bs ++ fin ≠ [] →
  finish (py_join [Ch.space] (flat_map show bs ++ fin) ++ T)
  = py_join [Ch.space] (flat_map (fun x => relocated x.2) bs ++ fin)
    ++ fuse_tail T.
Proof.
  intros Hbs Hset Hfin Hne. unfold finish, fuse_tail.
  rewrite tidy_sturdy.
  - rewrite !fuse_joined;
      auto using fuse_step_wf, fuse_step_settled, is_marker_stress1,
        is_marker_stress2.
    + by rewrite fused_relocated.
    + destruct bs; [done|]. by apply shown_nonempty.
  - apply sturdy_join; [|done]. apply Forall_app_2.
    + clear Hset Hne. induction Hbs as [|[f g] bs Hg _ IH]; [done|].
      cbn [flat_map]. apply Forall_app_2; [by apply show_sturdy|done].
    + eapply Forall_impl; [exact Hfin|]. intros t Ht.
      by apply solid_sturdy, plain_solid.
Qed.

Lemma settle_settled gs : Forall settled (settle <$> gs).
Proof.
  apply Forall_fmap, Forall_forall. intros g _. unfold settled, settle.
  cbn [fst snd compose]. destruct (syl_onset g); [by right|by left].
Qed.

Lemma settle_wf gs :
  Forall well_formed gs →
  Forall (fun x : bool * syllable => well_formed x.2) (settle <$> gs).
Proof. intros H. apply Forall_fmap. by eapply Forall_impl. Qed.

Lemma settle_relocated gs :
  flat_map (fun x : bool * syllable => relocated x.2) (settle <$> gs)
  = flat_map relocated gs.
Proof. induction gs as [|g gs IH]; [done|]. cbn in *. by rewrite IH. Qed.

(** ** The iteration order of [VOWELS] does not matter *)

(** What a match consumes is a prefix of the subject, and it fills as many
    groups as the pattern has. *)
Lemma rmatch_sound r b s m g rest :
  (m, g, rest) ∈ rmatch r b s → s = m ++ rest ∧ length g = ngroups r.
Proof.
  revert b s m g rest. induction r as [| c | cs | | r1 IH1 r2 IH2
                                       | r1 IH1 r2 IH2 | r IH];
    intros b s m g rest Hin; cbn [rmatch ngroups] in *.
  - apply list_elem_of_singleton in Hin. by injection Hin as -> -> ->.
  - destruct s as [|x t]; [by apply elem_of_nil in Hin|].
    destruct (x =? c); [|by apply elem_of_nil in Hin].
    apply list_elem_of_singleton in Hin. by injection Hin as -> -> ->.
  - destruct s as [|x t]; [by apply elem_of_nil in Hin|].
    destruct (bool_decide _); [|by apply elem_of_nil in Hin].
    apply list_elem_of_singleton in Hin. by injection Hin as -> -> ->.
  - destruct b; [|by apply elem_of_nil in Hin].
    apply list_elem_of_singleton in Hin. by injection Hin as -> -> ->.
  - apply list_elem_of_In, in_flat_map in Hin as ([[m1 g1] s1] & H1 & H2).
    apply in_map_iff in H2 as ([[m2 g2] s2] & Heq & H2).
    injection Heq as <- <- <-.
    apply list_elem_of_In, IH1 in H1 as [-> Hg1].
    apply list_elem_of_In, IH2 in H2 as [-> Hg2].
    rewrite length_app, app_assoc. by rewrite Hg1, Hg2.
  - apply elem_of_app in Hin as [Hin|Hin];
      apply list_elem_of_In, in_map_iff in Hin as ([[m1 g1] s1] & Heq & H1);
      injection Heq as <- <- <-;
      [apply list_elem_of_In, IH1 in H1 as [-> Hg]
      |apply list_elem_of_In, IH2 in H1 as [-> Hg]];
      rewrite length_app, length_replicate; split; [done|lia|done|lia].
  - apply list_elem_of_In, in_map_iff in Hin as ([[m1 g1] s1] & Heq & H1).
    injection Heq as <- <- <-.
    apply list_elem_of_In, IH in H1 as [-> Hg]. by rewrite <- Hg.
Qed.

Lemma flat_map_flat_map {A B C} (f : B → list C) (g : A → list B) l :
  flat_map f (flat_map g l) = flat_map (fun x => flat_map f (g x)) l.
Proof.
  induction l as [|x l IH]; [done|].
  cbn [flat_map]. by rewrite flat_map_app, IH.
Qed.

Lemma map_flat_map {A B C} (f : B → C) (g : A → list B) l :
  map f (flat_map g l) = flat_map (fun x => map f (g x)) l.
Proof.
  induction l as [|x l IH]; [done|].
  cbn [flat_map]. by rewrite map_app, IH.
Qed.

Lemma flat_map_map {A B C} (f : B → list C) (g : A → B) l :
  flat_map f (map g l) = flat_map (fun x => f (g x)) l.
Proof. induction l as [|x l IH]; [done|]. cbn [map flat_map]. by rewrite IH. Qed.

Lemma rmatch_seq_then_vowel vs r1 r2 r2v b s :
  (∀ b s, rmatch r2v b s = flat_map (then_vowel vs) (rmatch r2 b s)) →
  rmatch (RSeq r1 r2v) b s
  = flat_map (then_vowel vs) (rmatch (RSeq r1 r2) b s).
Proof.
  intros H2. cbn [rmatch]. rewrite flat_map_flat_map.
  apply flat_map_ext. intros [[ma ga] sa].
  rewrite H2, map_flat_map, flat_map_map.
  apply flat_map_ext. intros [[m2 g2] s2].
  unfold then_vowel. rewrite map_map. apply map_ext.
  intros [[v' g] rest]. by rewrite !app_assoc.
Qed.

Lemma rmatch_tail_split vs k b s :
  rmatch (tail_pattern vs k) b s
  = flat_map (then_vowel vs) (rmatch (front_tail k) b s).
Proof.
  revert b s. induction k as [|k IH]; intros b s.
  - cbn [tail_pattern front_tail]. rewrite rmatch_seq_char.
    cbn [rmatch]. destruct s as [|x t]; [done|].
    destruct (x =? Ch.space); [|done].
    cbn [flat_map then_vowel]. rewrite app_nil_r.
    fold (rmatch (RGroup (ralts vs)) false t).
    apply map_ext. by intros [[v' g] rest].
  - cbn [tail_pattern front_tail].
    apply rmatch_seq_then_vowel. intros b' s'.
    by apply rmatch_seq_then_vowel.
Qed.

Lemma rmatch_stress_split vs k b s :
  (k ≤ 4)%nat →
  rmatch (stress_pattern vs k) b s
  = flat_map (then_vowel vs) (rmatch (front_pattern k) b s).
Proof.
  intros Hk. rewrite stress_pattern_tail by done. unfold front_pattern.
  apply rmatch_seq_then_vowel. intros b' s'.
  apply rmatch_seq_then_vowel. intros b'' s''.
  apply rmatch_tail_split.
Qed.

Lemma rmatch_vowel_find vs s1 :
  vs ≠ [] →
  head (rmatch (RGroup (ralts vs)) false s1)
  = (fun v => (v, [Some v], drop (length v) s1))
      <$> find (fun v => is_prefix v s1) vs.
Proof.
  intros Hne. cbn [rmatch]. rewrite rmatch_ralts by done. clear Hne.
  induction vs as [|v vs IH]; [done|].
  cbn [flat_map find]. unfold lit_result at 1.
  destruct (is_prefix v s1); [done|]. apply IH.
Qed.

Lemma find_perm_none {A} (P : A → bool) (l l' : list A) :
  l ≡ₚ l' → find P l = None → find P l' = None.
Proof.
  intros Hp Hn. destruct (find P l') as [x|] eqn:Hx; [|done].
  apply find_some in Hx as [Hin HP].
  apply list_elem_of_In in Hin. rewrite <- Hp in Hin.
  apply list_elem_of_In in Hin.
  by rewrite (find_none _ _ Hn x Hin) in HP.
Qed.

(** The first match of the whole pattern, under two orders of the
    alternation: none under both, or the same front followed by two
    vowels that are both prefixes of what follows the front. *)
Lemma head_then_vowel vs vs' fronts :
  vs ≠ [] → vs ≡ₚ vs' →
  (head (flat_map (then_vowel vs) fronts) = None
   ∧ head (flat_map (then_vowel vs') fronts) = None)
  ∨ ∃ m1 g1 s1 v v',
      (m1, g1, s1) ∈ fronts
      ∧ v ∈ vs ∧ v' ∈ vs'
      ∧ is_prefix v s1 = true ∧ is_prefix v' s1 = true
      ∧ head (flat_map (then_vowel vs) fronts)
        = Some (m1 ++ v, g1 ++ [Some v], drop (length v) s1)
      ∧ head (flat_map (then_vowel vs') fronts)
        = Some (m1 ++ v', g1 ++ [Some v'], drop (length v') s1).
Proof.
  intros Hne Hp.
  assert (vs' ≠ []) as Hne'
    by (intros ->; by apply Permutation_nil_r in Hp).
  induction fronts as [|[[m1 g1] s1] fronts IH]; [by left|].
  cbn [flat_map].
  assert (∀ ws, ws ≠ [] →
            head (then_vowel ws (m1, g1, s1) ++ flat_map (then_vowel ws) fronts)
            = match find (fun v => is_prefix v s1) ws with
              | Some v => Some (m1 ++ v, g1 ++ [Some v], drop (length v) s1)
              | None => head (flat_map (then_vowel ws) fronts)
              end) as Hhd.
  { intros ws Hws. pose proof (rmatch_vowel_find ws s1 Hws) as Hf.
    unfold then_vowel.
    destruct (rmatch (RGroup (ralts ws)) false s1) as [|[[v0 g0] r0] l];
      destruct (find _ ws) as [v|]; try done.
    cbn in Hf. by injection Hf as -> -> ->. }
  rewrite !Hhd by done.
  destruct (find (fun v => is_prefix v s1) vs) as [v|] eqn:Hv.
  - destruct (find (fun v => is_prefix v s1) vs') as [v'|] eqn:Hv';
      [|by rewrite (find_perm_none _ _ _ (symmetry Hp) Hv') in Hv].
    right. apply find_some in Hv as [Hin HP], Hv' as [Hin' HP'].
    exists m1, g1, s1, v, v'.
    split_and!; try done; [left|by apply list_elem_of_In ..].
  - rewrite (find_perm_none _ _ _ Hp Hv).
    destruct IH as [IH|(m2 & g2 & s2 & v & v' & Hin & IH)]; [by left|].
    right. exists m2, g2, s2, v, v'. split; [by right|done].
Qed.

Lemma vowel_shape v :
  v ∈ VOWELS →
  (length v = 1 ∨ length v = 2)%nat ∧ Ch.space ∉ v.
Proof.
  intros Hin. vm_compute in Hin.
  repeat (apply elem_of_cons in Hin as [->|Hin];
          [split; [cbn; lia|
                   apply (bool_decide_eq_false_1 (_ ∈ _));
                   vm_compute; reflexivity]|]).
  by apply elem_of_nil in Hin.
Qed.

Lemma vowel_prefix_cases v v' r r' :
  v ∈ VOWELS → v' ∈ VOWELS → v ++ r = v' ++ r' →
  (v = v' ∧ r = r')
  ∨ (∃ y, v' = v ++ [y] ∧ r = y :: r' ∧ y ≠ Ch.space)
  ∨ (∃ y, v = v' ++ [y] ∧ r' = y :: r ∧ y ≠ Ch.space).
Proof.
  intros [Hl Hs]%vowel_shape [Hl' Hs']%vowel_shape Heq.
  destruct v as [|x [|y [|z v]]]; cbn [length] in Hl; try lia;
    destruct v' as [|x' [|y' [|z' v']]]; cbn [length] in Hl'; try lia;
    cbn [app] in Heq.
  - injection Heq as Hx Hr. subst. by left.
  - injection Heq as Hx Hr. subst. right. left. exists y'.
    split_and!; [done|done|]. intros ->. apply Hs'. set_solver.
  - injection Heq as Hx Hr. subst. right. right. exists y.
    split_and!; [done|done|]. intros ->. apply Hs. set_solver.
  - injection Heq as Hx Hy Hr. subst. by left.
Qed.

Lemma ngroups_front k : ngroups (front_pattern k) = (k + 2)%nat.
Proof.
  unfold front_pattern. cbn [ngroups stress_boundary stress_marker].
  induction k as [|k IH]; [done|].
  cbn [front_tail ngroups CONS_OR_AFF]. rewrite ngroups_ralts. lia.
Qed.

Lemma expand_front_items mt mt' g1 x y items :
  Forall (front_item (length g1)) items →
  flat_map (expand_item mt (g1 ++ x)) items
  = flat_map (expand_item mt' (g1 ++ y)) items.
Proof.
  induction 1 as [|it items Hit _ IH]; [done|].
  cbn [flat_map]. rewrite IH. f_equal.
  destruct it as [s|[|i]]; [done|done|]. cbn [expand_item front_item] in *.
  by rewrite !lookup_app_l.
Qed.

Lemma expand_vowel_last k mt g1 v :
  length g1 = (k + 2)%nat →
  expand (stress_template k) mt (g1 ++ [Some v])
  = expand (stress_template k) [] (g1 ++ [Some []]) ++ v.
Proof.
  intros Hlen. unfold expand, stress_template.
  rewrite (app_assoc [TRef 1]).
  change [TRef 2; TRef (3 + k)] with ([TRef 2] ++ [TRef (3 + k)]).
  rewrite (app_assoc _ [TRef 2]), !(flat_map_app _ _ [TRef (3 + k)]).
  rewrite (expand_front_items mt [] g1 [Some v] [Some []]).
  - assert (∀ m w, flat_map (expand_item m (g1 ++ [Some w])) [TRef (3 + k)]
                   = w) as Hlast.
    { intros m w. cbn [flat_map expand_item Nat.add]. rewrite app_nil_r.
      rewrite lookup_app_r by lia.
      by replace (S (S k) - length g1)%nat with 0%nat by lia. }
    by rewrite !Hlast, app_nil_r.
  - rewrite !Forall_app. split_and!.
    + repeat constructor. cbn. lia.
    + apply Forall_forall. intros it Hit.
      apply list_elem_of_In, in_flat_map in Hit as (i & Hi & Hit).
      apply in_seq in Hi. destruct Hit as [<-|[<-|[]]]; cbn; [lia|done].
    + repeat constructor. cbn. lia.
Qed.

Lemma stress_no_match_nonspace vs k y t :
  (k ≤ 4)%nat → y ≠ Ch.space →
  rmatch (stress_pattern vs k) false (y :: t) = [].
Proof.
  intros Hk Hy. rewrite rmatch_stress by done.
  rewrite (proj2 (N.eqb_neq y Ch.space)) by done. by destruct t.
Qed.

(** The result of a pass does not depend on the order in which the
    pattern lists the vowels. *)
Theorem stress_pass_order vs k s :
  vs ≡ₚ VOWELS → (k ≤ 4)%nat →
  stress_pass vs k s = stress_pass VOWELS k s.
Proof.
  intros Hp Hk. unfold stress_pass, re_sub. generalize true.
  assert (vs ≠ []) as Hne
    by (intros ->; by apply Permutation_nil_l in Hp).
  remember (length s) as n eqn:Hn.
  assert (length s ≤ n)%nat as Hlen by lia. clear Hn. revert s Hlen.
  induction n as [|n IH]; intros s Hlen b.
  { destruct s; [done|cbn in Hlen; lia]. }
  destruct s as [|c t]; [done|].
  destruct (head_then_vowel vs VOWELS (rmatch (front_pattern k) b (c :: t))
              Hne Hp)
    as [[H1 H2]|(m1 & g1 & s1 & v & v' & Hin & Hv & Hv' & Hpre & Hpre'
                 & H1 & H2)];
    rewrite <- !rmatch_stress_split in H1, H2 by done.
  - cbn [sub_from]. rewrite H1, H2. f_equal. apply IH.
    cbn in Hlen. lia.
  - apply rmatch_sound in Hin as [Hs Hg]. rewrite ngroups_front in Hg.
    assert (v ∈ VOWELS) as HvV by (by rewrite <- Hp).
    apply bool_decide_eq_true in Hpre as [r Hr], Hpre' as [r' Hr'].
    assert (drop (length v) s1 = r) as Hd
      by (by rewrite Hr, drop_app_length).
    assert (drop (length v') s1 = r') as Hd'
      by (by rewrite Hr', drop_app_length).
    rewrite Hd in H1. rewrite Hd' in H2.
    assert (v ≠ [] ∧ v' ≠ []) as [Hvn Hvn'].
    { apply vowel_shape in HvV as [Hl _], Hv' as [Hl' _].
      split; intros ->; cbn in *; lia. }
    assert (c :: t = (m1 ++ v) ++ r) as E1
      by (by rewrite Hs, Hr, app_assoc).
    assert (c :: t = (m1 ++ v') ++ r') as E2
      by (by rewrite Hs, Hr', app_assoc).
    assert (length s1 ≤ S n)%nat as Hs1.
    { rewrite Hs, length_app in Hlen. lia. }
    transitivity (expand (stress_template k) [] (g1 ++ [Some []])
                  ++ v ++ sub_from (stress_pattern vs k) (stress_template k)
                                   O false r).
    { rewrite E1. erewrite sub_from_match;
        [|by destruct m1, v|rewrite <- E1; exact H1].
      by rewrite expand_vowel_last, <- app_assoc. }
    transitivity (expand (stress_template k) [] (g1 ++ [Some []])
                  ++ v' ++ sub_from (stress_pattern VOWELS k)
                                    (stress_template k) O false r');
      cycle 1.
    { symmetry. rewrite E2. erewrite sub_from_match;
        [|by destruct m1, v'|rewrite <- E2; exact H2].
      by rewrite expand_vowel_last, <- app_assoc. }
    f_equal.
    assert (v ++ r = v' ++ r') as Heq by congruence.
    rewrite Hr, length_app in Hs1.
    destruct (vowel_prefix_cases v v' r r' HvV Hv' Heq)
      as [[-> ->]|[(y & -> & -> & Hy)|(y & -> & -> & Hy)]].
    + f_equal. apply IH. destruct v'; [done|cbn [length] in Hs1; lia].
    + rewrite sub_from_no_match
        by (by apply stress_no_match_nonspace).
      rewrite <- app_assoc. cbn [app]. do 2 f_equal. apply IH.
      cbn [length] in Hs1. lia.
    + rewrite (sub_from_no_match (stress_pattern VOWELS k))
        by (by apply stress_no_match_nonspace).
      rewrite <- app_assoc. cbn [app]. do 2 f_equal. apply IH.
      rewrite length_app in Hs1. cbn [length] in Hs1. lia.
Qed.

Lemma existsb_perm {A} (f : A → bool) (l l' : list A) :
  l ≡ₚ l' → existsb f l = existsb f l'.
Proof.
  intros Hp. apply eq_true_iff_eq. rewrite !existsb_exists.
  split; intros (x & Hin & Hx); exists x; split; try done;
    apply list_elem_of_In; apply list_elem_of_In in Hin;
    [by rewrite <- Hp|by rewrite Hp].
Qed.

(** The tests [is_biphone.match], [regex_phonemes.match] and
    [first_char_biphone.match] are alternations of literals: their outcome
    does not depend on the order of the alternatives either. *)
Lemma matches_alts_order l l' s :
  l ≡ₚ l' →
  matches (RGroup (ralts l)) s = matches (RGroup (ralts l')) s.
Proof.
  intros Hp. destruct l as [|x l].
  - by apply Permutation_nil_l in Hp as ->.
  - assert (l' ≠ []) as Hne'
      by (intros ->; by apply Permutation_nil_r in Hp).
    rewrite !matches_group_alts by done. by apply existsb_perm.
Qed.

(** The four passes under any order of the vowels. *)
Corollary phones_str4_order vs s :
  vs ≡ₚ VOWELS →
  stress_pass vs 1 (stress_pass vs 2 (stress_pass vs 3 (stress_pass vs 4 s)))
  = phones_str4_of s.
Proof.
  intros Hp. unfold phones_str4_of.
  by rewrite !(stress_pass_order vs) by (done || lia).
Qed.

(** * The claims *)

(** ** C1: biphone precedence *)

(** C1 fails: in [dʒd] the affricate [dʒ] stands at positions 0 and 1, its
    first character equals the final character of the transcription, and
    the tokens are [d], [ʒ], [d].  In [ɪtʃ] the scanner holds [ɪ], which
    opens a diphthong, when it reads [t]; it emits [ɪ] and [t], and [ʃ]
    comes out alone. *)
Lemma biphone_precedence_fails :
  [Ch.d; Ch.ezh] ∈ AFFRICATES
  ∧ (phones <$> tokenize [Ch.d; Ch.ezh; Ch.d]) = Ok [[Ch.d]; [Ch.ezh]; [Ch.d]]
  ∧ [Ch.t; Ch.esh] ∈ AFFRICATES
  ∧ (phones <$> tokenize [Ch.small_i; Ch.t; Ch.esh])
    = Ok [[Ch.small_i]; [Ch.t]; [Ch.esh]]
  ∧ ¬ biphone_precedence.
Proof.
  split_and!;
    [by left|vm_compute; reflexivity|by right; left|vm_compute; reflexivity|].
  intros H.
  specialize (H [Ch.d; Ch.ezh; Ch.d] 0%nat Ch.d Ch.ezh
                (scan_spec [Ch.d; Ch.ezh; Ch.d] 0)
                (scan_spec [Ch.d; Ch.ezh; Ch.d] 2)).
  assert (phones (scan_spec [Ch.d; Ch.ezh; Ch.d] 2)
          = phones (scan_spec [Ch.d; Ch.ezh; Ch.d] 0) ++ [[Ch.d; Ch.ezh]])
    as Hph.
  { apply H; [done|done|by left|..];
      apply scan_upto_spec; simpl; lia. }
  vm_compute in Hph. discriminate Hph.
Qed.

(** C1, amended.  A biphone at positions [k], [k+1] is emitted as one
    token when the scanner reaches position [k] with no biphone pending
    and the first character of the biphone differs from the final
    character of the transcription. *)
Theorem biphone_emitted_as_one_token
    (ipa : pystr) (k : nat) (a b : N) (st : scan_state) :
  ipa !! k = Some a → ipa !! S k = Some b → [a; b] ∈ BIPHONES →
  scan_upto ipa k = Ok st →
  last_was_biphone st = false →
  last ipa ≠ Some a →
  ∃ st2, scan_upto ipa (S (S k)) = Ok st2
         ∧ phones st2 = phones st ++ [[a; b]]
         ∧ last_was_biphone st2 = false
         ∧ error st2 = error st.
Proof.
  intros Ha Hb Hbi Hrun Hlwb Hlast.
  destruct (biphone_chars _ _ Hbi) as (Hfa & Hfb & Hopen & _).
  assert (Hlt := lookup_lt_Some _ _ _ Hb).
  pose proof (scan_upto_step _ _ _ _ Hrun Ha) as Hrun1.
  pose proof (scan_upto_step _ _ _ _ Hrun1 Hb) as Hrun2.
  eexists. split; [exact Hrun2|].
  assert (step_spec ipa k a st
          = ScanState (cells_at ipa (S k)) true (Some [a]) (phones st)
                      (error st)) as ->.
  { unfold step_spec, opens_at. rewrite Hlwb, Hfa.
    rewrite (bool_decide_eq_true_2 _ Hopen).
    rewrite (bool_decide_eq_true_2 (S k < length ipa)%nat) by done.
    by rewrite (bool_decide_eq_false_2 _ Hlast). }
  unfold step_spec. cbn [last_was_biphone last_c phones error default
                         from_option id app].
  rewrite Hfb, matches_is_biphone, (bool_decide_eq_true_2 _ Hbi).
  done.
Qed.

Lemma biphone_emitted_as_one_token_witness :
  ∃ st2, scan_upto [Ch.t; Ch.esh; Ch.e; Ch.small_i; Ch.n] 4 = Ok st2
         ∧ phones st2
           = phones (scan_spec [Ch.t; Ch.esh; Ch.e; Ch.small_i; Ch.n] 2)
             ++ [[Ch.e; Ch.small_i]]
         ∧ last_was_biphone st2 = false
         ∧ error st2
           = error (scan_spec [Ch.t; Ch.esh; Ch.e; Ch.small_i; Ch.n] 2).
Proof.
  apply (biphone_emitted_as_one_token
           [Ch.t; Ch.esh; Ch.e; Ch.small_i; Ch.n] 2 Ch.e Ch.small_i).
  - reflexivity.
  - reflexivity.
  - vm_compute. repeat constructor.
  - vm_compute. reflexivity.
  - vm_compute. reflexivity.
  - vm_compute. discriminate.
Defined.

(** ** C2: entering the pending state *)

(** C2 fails: in [eɪt] the character [ɪ] at position 1 opens a biphone
    and differs from the final [t], and the scanner, which reaches it with
    [e] pending, is not pending afterwards. *)
Lemma pending_iff_opener_fails :
  [Ch.small_i] ∈ biphone_openers
  ∧ last [Ch.e; Ch.small_i; Ch.t] ≠ Some Ch.small_i
  ∧ (last_was_biphone <$> scan_upto [Ch.e; Ch.small_i; Ch.t] 2) = Ok false
  ∧ ¬ pending_iff_opener.
Proof.
  assert ([Ch.small_i] ∈ biphone_openers) as Hop
    by (vm_compute; repeat constructor).
  split_and!; [done|by vm_compute|by vm_compute|].
  intros H.
  specialize (H [Ch.e; Ch.small_i; Ch.t] 1%nat Ch.small_i
                (scan_spec [Ch.e; Ch.small_i; Ch.t] 2) eq_refl).
  destruct H as [_ H]; [by apply scan_upto_spec; simpl; lia|].
  assert (last_was_biphone (scan_spec [Ch.e; Ch.small_i; Ch.t] 2) = true)
    as Hp by (apply H; split; [done|by vm_compute]).
  vm_compute in Hp. discriminate Hp.
Qed.

(** C2, amended.  At a position that the scanner reaches with no biphone
    pending, it becomes pending exactly when the current character (after
    folding) opens a biphone, is not at the final position, and differs
    from the final character; otherwise the character is emitted as a
    single token.  At a position reached with a biphone pending, the
    pending state is cleared. *)
Theorem pending_iff_opener_when_idle
    (ipa : pystr) (k : nat) (c : N) (st : scan_state) :
  ipa !! k = Some c → scan_upto ipa k = Ok st →
  ∃ st', scan_upto ipa (S k) = Ok st'
    ∧ (last_was_biphone st = true → last_was_biphone st' = false)
    ∧ (last_was_biphone st = false →
       (last_was_biphone st' = true
        ↔ [fold_hook c] ∈ biphone_openers
          ∧ (S k < length ipa)%nat
          ∧ last ipa ≠ Some (fold_hook c))
       ∧ (last_was_biphone st' = true → phones st' = phones st)
       ∧ (last_was_biphone st' = false →
          phones st' = phones st ++ [[fold_hook c]])).
Proof.
  intros Hc Hrun.
  eexists. split; [by apply scan_upto_step|].
  unfold step_spec. split.
  - intros ->. destruct (matches _ _); [|destruct (bool_decide _)]; done.
  - intros ->. unfold opens_at.
    destruct (decide ([fold_hook c] ∈ biphone_openers)) as [Ho|Ho];
      [rewrite (bool_decide_eq_true_2 _ Ho)
      |rewrite (bool_decide_eq_false_2 _ Ho)];
      cbn [andb]; [|split_and!; [split|..]; naive_solver].
    destruct (decide (S k < length ipa)%nat) as [Hk|Hk];
      [rewrite (bool_decide_eq_true_2 _ Hk)
      |rewrite (bool_decide_eq_false_2 _ Hk)];
      cbn [andb]; [|split_and!; [split|..]; naive_solver].
    destruct (decide (last ipa = Some (fold_hook c))) as [Hl|Hl];
      [rewrite (bool_decide_eq_true_2 _ Hl)
      |rewrite (bool_decide_eq_false_2 _ Hl)];
      cbn [negb]; split_and!; [split|..]; naive_solver.
Qed.

Lemma pending_iff_opener_when_idle_witness :
  ∃ st', scan_upto [Ch.d; Ch.ezh; Ch.d] 1 = Ok st'
    ∧ (last_was_biphone (scan_init [Ch.d; Ch.ezh; Ch.d]) = true →
       last_was_biphone st' = false)
    ∧ (last_was_biphone (scan_init [Ch.d; Ch.ezh; Ch.d]) = false →
       (last_was_biphone st' = true
        ↔ [fold_hook Ch.d] ∈ biphone_openers
          ∧ (1 < length [Ch.d; Ch.ezh; Ch.d])%nat
          ∧ last [Ch.d; Ch.ezh; Ch.d] ≠ Some (fold_hook Ch.d))
       ∧ (last_was_biphone st' = true →
          phones st' = phones (scan_init [Ch.d; Ch.ezh; Ch.d]))
       ∧ (last_was_biphone st' = false →
          phones st'
          = phones (scan_init [Ch.d; Ch.ezh; Ch.d]) ++ [[fold_hook Ch.d]])).
Proof.
  apply (pending_iff_opener_when_idle [Ch.d; Ch.ezh; Ch.d] 0 Ch.d).
  - reflexivity.
  - reflexivity.
Defined.

(** ** C3: the worked example of the stress repositioner *)

(** C3 fails: [r] is not a consonant of the inventory and [ʌ] is not one
    of its vowels, so no pass matches and the marker stays in front of
    [s]; run from the raw transcription, the tokenizer moreover drops
    [t r] as an unresolvable pair and the call reports an error. *)
Lemma strut_example_fails :
  ([Ch.r] ∉ CONSONANTS) ∧ ([Ch.turned_v] ∉ VOWELS)
  ∧ phones_str7_of strut_stream
    = [Ch.stress1; Ch.s; Ch.space; Ch.t; Ch.space; Ch.r; Ch.space;
       Ch.turned_v; Ch.space; Ch.k; Ch.space; Ch.esh; Ch.space; Ch.schwa;
       Ch.space; Ch.n]
  ∧ run [Ch.stress1; Ch.s; Ch.t; Ch.r; Ch.turned_v; Ch.k; Ch.esh; Ch.schwa;
         Ch.n]
    = Some (true, [Ch.stress1; Ch.s; Ch.space; Ch.turned_v; Ch.space; Ch.k;
                   Ch.space; Ch.esh; Ch.space; Ch.schwa; Ch.space; Ch.n])
  ∧ ¬ strut_example.
Proof.
  split_and!.
  - apply (bool_decide_eq_false_1 ([Ch.r] ∈ CONSONANTS)). by vm_compute.
  - apply (bool_decide_eq_false_1 ([Ch.turned_v] ∈ VOWELS)). by vm_compute.
  - by vm_compute.
  - by vm_compute.
  - unfold strut_example. intros H. vm_compute in H. discriminate H.
Qed.

(** C3, amended.  With the inventory's own symbols, [ɹ] for the third
    onset consonant and [ɐ] for the nucleus: the transcription
    [ˈstɹɐkʃən] is tokenized to [ˈ s t ɹ ɐ k ʃ ə n], the 4-consonant pass
    leaves it alone, the 3-consonant pass rewrites it to
    [s t ɹ ˈɐ k ʃ ə n], and that is the normalized output, without
    error. *)
Theorem strut_example_in_inventory :
  let raw := [Ch.stress1; Ch.s; Ch.t; Ch.turned_r; Ch.turned_a; Ch.k;
              Ch.esh; Ch.schwa; Ch.n] in
  let stream := [Ch.stress1; Ch.space; Ch.s; Ch.space; Ch.t; Ch.space;
                 Ch.turned_r; Ch.space; Ch.turned_a; Ch.space; Ch.k;
                 Ch.space; Ch.esh; Ch.space; Ch.schwa; Ch.space; Ch.n] in
  let out := [Ch.s; Ch.space; Ch.t; Ch.space; Ch.turned_r; Ch.space;
              Ch.stress1; Ch.turned_a; Ch.space; Ch.k; Ch.space; Ch.esh;
              Ch.space; Ch.schwa; Ch.space; Ch.n] in
  ((py_join [Ch.space] ∘ phones) <$> tokenize raw) = Ok stream
  ∧ stress_pass VOWELS 4 stream = stream
  ∧ stress_pass VOWELS 3 stream = out
  ∧ phones_str7_of stream = out
  ∧ check_char (entry_of raw) = Ok (false, <["ipa" := PyStr out]> (entry_of raw)).
Proof. cbv zeta. split_and!; vm_compute; reflexivity. Qed.

(** ** C4: relocation of the stress marker *)

(** C4 fails: the stress markers are themselves listed in [CONSONANTS].
    In [ˌ s ˈ t æ] the 3-consonant pass takes [s ˈ t] for the onset of
    [ˌ] and moves [ˌ] in front of [æ]; the marker [ˈ], which stands before
    the onset [t] and the vowel [æ], stays where it was. *)
Lemma stress_relocation_fails :
  [Ch.stress1] ∈ CONSONANTS
  ∧ phones_str7_of (py_join [Ch.space]
                      [[Ch.stress2]; [Ch.s]; [Ch.stress1]; [Ch.t]; [Ch.ash]])
    = [Ch.s; Ch.space; Ch.stress1; Ch.t; Ch.space; Ch.stress2; Ch.ash]
  ∧ ¬ stress_relocation.
Proof.
  split_and!.
  - vm_compute. repeat constructor.
  - vm_compute. reflexivity.
  - intros H.
    destruct (H [[Ch.stress2]; [Ch.s]] [[Ch.t]] [] Ch.stress1 [Ch.ash])
      as (X & Y & HXY).
    + by left.
    + repeat constructor.
    + simpl. lia.
    + vm_compute. repeat constructor.
    + set (out := phones_str7_of _) in HXY.
      assert (out = [Ch.s; Ch.space; Ch.stress1; Ch.t; Ch.space; Ch.stress2;
                     Ch.ash]) as -> by (vm_compute; reflexivity).
      unfold Ch.s, Ch.space, Ch.stress1, Ch.stress2, Ch.t, Ch.ash in HXY.
      do 7 (destruct X as [|? X]; cbn [app] in HXY;
            [discriminate HXY|injection HXY as _ HXY]).
      destruct X; discriminate HXY.
Qed.

(** C4, amended.  Take a token sequence made of syllables, each of them
    tokens of the inventory other than stress markers, a stress marker,
    an onset of 0 to 4 consonant or affricate tokens other than stress
    markers, and a vowel of the inventory; then tokens [fin] of the
    inventory other than stress markers; then any tokens [post].  The
    stored string begins with the tokens of the syllables and of [fin],
    every marker moved in front of the vowel of its syllable and written
    without a space before it, and it is exactly that when [post] is
    empty.  The four passes, in the order 4, 3, 2, 1, have moved the
    markers of the syllables with a non-empty onset, and each pass alone
    moves those of the syllables whose onset has its length; the marker of
    a syllable without onset is joined to its vowel by the replacement of
    marker and space that follows the passes. *)
Theorem stress_markers_relocated
    (gs : list syllable) (fin post : list pystr) :
  Forall well_formed gs → Forall plain fin →
  let stream := py_join [Ch.space] (flat_map spelled gs ++ fin ++ post) in
  (∃ Y, phones_str7_of stream
        = py_join [Ch.space] (flat_map relocated gs ++ fin) ++ Y
        ∧ (post = [] → Y = []))
  ∧ (∃ Y, phones_str4_of stream
          = py_join [Ch.space] (flat_map after_passes gs ++ fin) ++ Y
          ∧ (post = [] → Y = []))
  ∧ (∀ j, (1 ≤ j ≤ 4)%nat →
     ∃ Y, stress_pass VOWELS j stream
          = py_join [Ch.space] (flat_map (after_pass j) gs ++ fin) ++ Y
          ∧ (post = [] → Y = [])).
Proof.
  intros Hgs Hfin stream.
  destruct (decide (flat_map spelled gs ++ fin = [])) as [Hnil|Hne].
  { apply app_eq_nil in Hnil as [Hgs0 ->].
    assert (gs = []) as ->.
    { destruct gs as [|g gs]; [done|]. cbn [flat_map] in Hgs0.
      apply app_eq_nil in Hgs0 as [H0 _]. unfold spelled in H0.
      by apply app_eq_nil in H0 as [_ H0]. }
    subst stream. cbn [flat_map app].
    split_and!; [| |intros j Hj]; eexists; (split; [done|]);
      by intros ->. }
  assert (stream
          = py_join [Ch.space] (flat_map show (pair false <$> gs) ++ fin)
            ++ onset post) as Hstream.
  { unfold stream. rewrite fresh_spelled, app_assoc.
    by apply (str_app true). }
  rewrite <- fresh_spelled in Hne.
  pose proof (fresh_wf gs Hgs) as Hwf.
  split_and!.
  - exists (fuse_tail (tail_passes (onset post))). split; [|by intros ->].
    rewrite phones_str7_finish, Hstream, passes_syllables by done.
    rewrite passes_fresh by done.
    rewrite finish_syllables;
      auto using settle_wf, settle_settled.
    + by rewrite settle_relocated.
    + rewrite <- passes_fresh by done. by do 4 apply pass_step_nonempty.
  - exists (tail_passes (onset post)). split; [|by intros ->].
    rewrite Hstream, passes_syllables by done.
    by rewrite passes_fresh, settle_after by done.
  - intros j Hj. exists (tail_pass j (onset post)). split; [|by intros ->].
    rewrite Hstream, pass_syllables by (done || lia).
    by rewrite pass_step_fresh.
Qed.

Lemma stress_markers_relocated_witness :
  let gs := [Syllable [] Ch.stress2 [] [Ch.small_i];
             Syllable [[Ch.n]; [Ch.t]; [Ch.schwa]] Ch.stress1 [[Ch.n]]
                      [Ch.ash]] in
  let fin := [[Ch.esh]; [Ch.schwa]; [Ch.n]; [Ch.schwa]; [Ch.l]] in
  let post : list pystr := [] in
  let stream := py_join [Ch.space] (flat_map spelled gs ++ fin ++ post) in
  (∃ Y, phones_str7_of stream
        = py_join [Ch.space] (flat_map relocated gs ++ fin) ++ Y
        ∧ (post = [] → Y = []))
  ∧ (∃ Y, phones_str4_of stream
          = py_join [Ch.space] (flat_map after_passes gs ++ fin) ++ Y
          ∧ (post = [] → Y = []))
  ∧ (∀ j, (1 ≤ j ≤ 4)%nat →
     ∃ Y, stress_pass VOWELS j stream
          = py_join [Ch.space] (flat_map (after_pass j) gs ++ fin) ++ Y
          ∧ (post = [] → Y = [])).
Proof.
  apply (stress_markers_relocated
           [Syllable [] Ch.stress2 [] [Ch.small_i];
            Syllable [[Ch.n]; [Ch.t]; [Ch.schwa]] Ch.stress1 [[Ch.n]]
                     [Ch.ash]]
           [[Ch.esh]; [Ch.schwa]; [Ch.n]; [Ch.schwa]; [Ch.l]] []).
  - repeat first [apply Forall_cons_2 | apply Forall_nil_2 | split];
      cbn [syl_lead syl_mark syl_onset syl_vowel length];
      first [by left | by right | lia | discriminate
            | vm_compute; repeat constructor].
  - repeat first [apply Forall_cons_2 | apply Forall_nil_2 | split];
      first [discriminate | vm_compute; repeat constructor].
Defined.

(** ** C5: running the engine on its own output *)

Lemma check_char_engine entry raw :
  entry !! "ipa" = Some (PyStr raw) →
  check_char entry
  = Ok ((engine raw).1, <["ipa" := PyStr (engine raw).2]> entry).
Proof. apply check_char_str. Qed.

(** C5 fails: the output [t æ p] of [tæp] contains the separating spaces;
    run again, the scanner finds [t] followed by a space unresolvable and
    takes the other spaces for tokens: the second run reports an error
    and returns [æ  p]. *)
Lemma idempotence_fails :
  run [Ch.t; Ch.ash; Ch.p]
  = Some (false, [Ch.t; Ch.space; Ch.ash; Ch.space; Ch.p])
  ∧ run [Ch.t; Ch.space; Ch.ash; Ch.space; Ch.p]
    = Some (true, [Ch.ash; Ch.space; Ch.space; Ch.p])
  ∧ ¬ idempotence.
Proof.
  assert (run [Ch.t; Ch.ash; Ch.p]
          = Some (false, [Ch.t; Ch.space; Ch.ash; Ch.space; Ch.p])) as H1
    by (vm_compute; reflexivity).
  assert (run [Ch.t; Ch.space; Ch.ash; Ch.space; Ch.p]
          = Some (true, [Ch.ash; Ch.space; Ch.space; Ch.p])) as H2
    by (vm_compute; reflexivity).
  split_and!; [done|done|].
  intros H. destruct (H _ _ _ H1) as (e' & Hrun & _).
  rewrite H2 in Hrun. discriminate Hrun.
Qed.

Lemma engine_single_units out :
  out ∈ single_units → engine out = (false, out).
Proof.
  intros Hin. apply list_elem_of_In in Hin.
  apply (bool_decide_eq_true_1 (engine out = (false, out))).
  revert out Hin. apply forallb_forall. vm_compute. reflexivity.
Qed.

(** C5, amended.  When the output of a run is a single unit, one phoneme
    of the inventory alone or behind one stress marker, a run on that
    output returns the same string and reports no error. *)
Theorem idempotent_on_single_units
    (entry r entry2 : gmap string pyval) (e : bool) (out : pystr) :
  check_char entry = Ok (e, r) →
  r !! "ipa" = Some (PyStr out) →
  out ∈ single_units →
  entry2 !! "ipa" = Some (PyStr out) →
  check_char entry2 = Ok (false, <["ipa" := PyStr out]> entry2).
Proof.
  intros _ _ Hunit Hipa.
  rewrite (check_char_engine _ _ Hipa).
  by rewrite (engine_single_units _ Hunit).
Qed.

Lemma idempotent_on_single_units_witness :
  check_char (entry_of [Ch.stress1; Ch.t; Ch.esh])
  = Ok (false, <["ipa" := PyStr [Ch.stress1; Ch.t; Ch.esh]]>
                 (entry_of [Ch.stress1; Ch.t; Ch.esh])).
Proof.
  apply (idempotent_on_single_units
           (entry_of [Ch.slash; Ch.stress1; Ch.t; Ch.dot; Ch.esh; Ch.slash])
           (<["ipa" := PyStr [Ch.stress1; Ch.t; Ch.esh]]>
              (entry_of [Ch.slash; Ch.stress1; Ch.t; Ch.dot; Ch.esh;
                         Ch.slash]))
           _ false [Ch.stress1; Ch.t; Ch.esh]).
  - vm_compute. reflexivity.
  - vm_compute. reflexivity.
  - vm_compute. repeat constructor.
  - vm_compute. reflexivity.
Defined.

(** ** C6: alphabet closure *)

Lemma PHONEMES_set_elem u : u ∈ PHONEMES_set → u ∈ PHONEMES.
Proof.
  unfold PHONEMES_set, PHONEMES. rewrite elem_of_list_to_set.
  rewrite !elem_of_app. tauto.
Qed.

(** C6.  When [check_char] reports no error, every whitespace-delimited
    unit of the string stored under ['ipa'], stress markers deleted, is a
    phoneme of the inventory. *)
Theorem alphabet_closure (entry r : gmap string pyval) :
  check_char entry = Ok (false, r) →
  ∃ out, r !! "ipa" = Some (PyStr out)
         ∧ ∀ u, u ∈ py_split (remove_stress out) →
                u ∈ CONSONANTS ++ AFFRICATES ++ SHORT_VOWELS
                    ++ LONG_VOWELS ++ DIPTHONGS.
Proof.
  intros Hrun. apply check_char_inv in Hrun as (raw & st & _ & _ & He & ->).
  exists (normalized st). split; [apply lookup_insert_eq|].
  intros u Hu. symmetry in He. apply orb_false_elim in He as [_ Hfc].
  apply negb_false_iff in Hfc. unfold final_check in Hfc.
  apply bool_decide_eq_true in Hfc.
  apply PHONEMES_set_elem.
  assert (u ∈ (list_to_set (py_split (remove_stress (normalized st)))
               : gset pystr)) as Hin by by apply elem_of_list_to_set.
  rewrite <- Hfc in Hin. by apply elem_of_intersection in Hin as [? _].
Qed.

Lemma alphabet_closure_witness :
  ∃ out,
    (<["ipa" := PyStr [Ch.t; Ch.esh; Ch.space; Ch.e; Ch.small_i; Ch.space;
                       Ch.n]]>
       (entry_of [Ch.slash; Ch.t; Ch.esh; Ch.e; Ch.small_i; Ch.n; Ch.slash])
     : gmap string pyval) !! "ipa" = Some (PyStr out)
    ∧ ∀ u, u ∈ py_split (remove_stress out) →
           u ∈ CONSONANTS ++ AFFRICATES ++ SHORT_VOWELS
               ++ LONG_VOWELS ++ DIPTHONGS.
Proof.
  apply (alphabet_closure
           (entry_of [Ch.slash; Ch.t; Ch.esh; Ch.e; Ch.small_i; Ch.n;
                      Ch.slash])).
  vm_compute. reflexivity.
Defined.

(** ** C7: variants of one entry *)

(** C7 fails: a first variant whose transcription is the empty string
    validates, and the loop passes over it without calling
    [check_char]; the accepted list is empty. *)
Lemma abort_on_first_failure_fails :
  let V1 := entry_of [] in
  let V2 := entry_of [0x31] in
  let V3 := entry_of [Ch.n] in
  (fst <$> check_char (variant_arg V1)) = Ok false
  ∧ (fst <$> check_char (variant_arg V2)) = Ok true
  ∧ (fst <$> check_char (variant_arg V3)) = Ok false
  ∧ clean_sounds [V1; V2; V3] [] = Ok []
  ∧ ¬ abort_on_first_failure.
Proof.
  split_and!; [vm_compute; reflexivity ..|].
  intros H.
  specialize (H (entry_of []) (entry_of [0x31]) (entry_of [Ch.n])
                (<["ipa" := PyStr []]> (variant_arg (entry_of [])))
                (<["ipa" := PyStr [0x31]]> (variant_arg (entry_of [0x31])))
                (<["ipa" := PyStr [Ch.n]]> (variant_arg (entry_of [Ch.n])))
                [] [0x31] [Ch.n]).
  assert (clean_sounds [entry_of []; entry_of [0x31]; entry_of [Ch.n]] []
          = Ok [<["ipa" := PyStr []]> (variant_arg (entry_of []))]) as Hc
    by (apply H; vm_compute; reflexivity).
  vm_compute in Hc. discriminate Hc.
Qed.

(** C7, amended.  Of three variants [V1], [V2], [V3] with string
    transcriptions, where [V1] has a non-empty transcription and
    validates, [V2] fails validation and [V3] validates, the accepted list
    is the normalized record of [V1] alone. *)
Theorem abort_on_first_failure_nonempty
    (V1 V2 V3 r1 r2 r3 : gmap string pyval) (i1 i2 i3 : pystr) :
  V1 !! "ipa" = Some (PyStr i1) →
  V2 !! "ipa" = Some (PyStr i2) →
  V3 !! "ipa" = Some (PyStr i3) →
  i1 ≠ [] →
  check_char (variant_arg V1) = Ok (false, r1) →
  check_char (variant_arg V2) = Ok (true, r2) →
  check_char (variant_arg V3) = Ok (false, r3) →
  clean_sounds [V1; V2; V3] [] = Ok [r1].
Proof.
  intros H1 H2 H3 Hne Hc1 Hc2 Hc3.
  assert (i2 ≠ []) as Hne2.
  { intros ->. unfold variant_arg, dict_get in Hc2. rewrite H2 in Hc2.
    cbn [from_option id] in Hc2.
    rewrite (check_char_str _ [] (lookup_insert_eq _ _ _)) in Hc2.
    apply Ok_pair_inj in Hc2 as [Hc2 _]. vm_compute in Hc2.
    discriminate Hc2. }
  cbn [clean_sounds]. fold (variant_arg V1). fold (variant_arg V2).
  unfold dict_get at 1. rewrite H1. cbn [from_option id truthy].
  destruct i1 as [|c1 i1]; [done|]. cbn [is_nil negb].
  rewrite Hc1, Ok_bind.
  unfold dict_get at 1. rewrite H2. cbn [from_option id truthy].
  destruct i2 as [|c2 i2]; [done|]. cbn [is_nil negb].
  by rewrite Hc2, Ok_bind.
Qed.

Lemma abort_on_first_failure_nonempty_witness :
  clean_sounds [entry_of [Ch.t; Ch.ash; Ch.p]; entry_of [0x31];
                entry_of [Ch.n]] []
  = Ok [<["ipa" := PyStr [Ch.t; Ch.space; Ch.ash; Ch.space; Ch.p]]>
          (variant_arg (entry_of [Ch.t; Ch.ash; Ch.p]))].
Proof.
  apply (abort_on_first_failure_nonempty
           (entry_of [Ch.t; Ch.ash; Ch.p]) (entry_of [0x31]) (entry_of [Ch.n])
           _
           (<["ipa" := PyStr [0x31]]> (variant_arg (entry_of [0x31])))
           (<["ipa" := PyStr [Ch.n]]> (variant_arg (entry_of [Ch.n])))
           [Ch.t; Ch.ash; Ch.p] [0x31] [Ch.n]).
  - vm_compute. reflexivity.
  - vm_compute. reflexivity.
  - vm_compute. reflexivity.
  - discriminate.
  - vm_compute. reflexivity.
  - vm_compute. reflexivity.
  - vm_compute. reflexivity.
Defined.

(** ** C8: re-merging of affricates *)

(** C8: the code misses the claim.  On [dʒd] the tokenizer emits [d] and
    [ʒ] as two tokens; line 87 computes the re-merged string [dʒ d], and
    the string stored in the record is [d ʒ d]. *)
Theorem affricate_not_remerged :
  let raw := [Ch.d; Ch.ezh; Ch.d] in
  let out := [Ch.d; Ch.space; Ch.ezh; Ch.space; Ch.d] in
  (phones <$> tokenize raw) = Ok [[Ch.d]; [Ch.ezh]; [Ch.d]]
  ∧ check_char (entry_of raw) = Ok (false, <["ipa" := PyStr out]> (entry_of raw))
  ∧ phones_str8_of out = [Ch.d; Ch.ezh; Ch.space; Ch.d]
  ∧ phones_str8_of out ≠ out.
Proof. cbv zeta. split_and!; [vm_compute; reflexivity ..|by vm_compute]. Qed.

(** ** C9: error signals *)

(** C9.  On a record whose ['ipa'] is a string, [check_char] returns a
    flag and a record: no iteration of the scan raises, the loop visits
    every character, a pair that cannot be resolved sets the flag and
    leaves tokens and control untouched, the flag stays set to the end,
    and the returned flag is the scan's flag or the failure of the final
    check. *)
Theorem check_char_returns (entry : gmap string pyval) (raw : pystr) :
  entry !! "ipa" = Some (PyStr raw) →
  let ipa := clean_ipa raw in
  ∃ st : scan_state,
    tokenize ipa = Ok st
    ∧ check_char entry
      = Ok (error st || negb (final_check (normalized st)),
            <["ipa" := PyStr (normalized st)]> entry)
    ∧ (∀ k, (k ≤ length ipa)%nat → ∃ stk, scan_upto ipa k = Ok stk)
    ∧ (∀ k stk c lc,
         scan_upto ipa k = Ok stk → ipa !! k = Some c →
         last_was_biphone stk = true → last_c stk = Some lc →
         matches is_biphone (lc ++ [fold_hook c]) = false →
         matches regex_phonemes [fold_hook c] = false →
         ∃ stk', scan_upto ipa (S k) = Ok stk'
                 ∧ error stk' = true
                 ∧ phones stk' = phones stk
                 ∧ last_was_biphone stk' = false)
    ∧ (∀ k stk, (k ≤ length ipa)%nat → scan_upto ipa k = Ok stk →
                error stk = true → error st = true).
Proof.
  intros Hipa ipa.
  exists (scan_spec ipa (length ipa)). split_and!.
  - apply tokenize_spec.
  - by apply check_char_str.
  - intros k Hk. exists (scan_spec ipa k). by apply scan_upto_spec.
  - intros k stk c lc Hrun Hc Hlwb Hlc Hbi Hph.
    eexists. split; [by apply scan_upto_step|].
    unfold step_spec. rewrite Hlwb, Hlc. cbn [default from_option id].
    rewrite Hbi. rewrite matches_regex_phonemes in Hph. by rewrite Hph.
  - intros k stk Hk Hrun He.
    apply scan_upto_Ok in Hrun as [-> _]; [|done].
    by apply (scan_spec_error_mono ipa k).
Qed.

Lemma check_char_returns_witness :
  let entry : gmap string pyval :=
    {[ "ipa" := PyStr [Ch.d; 0x31; Ch.n]; "tags" := PyNone ]} in
  let ipa := clean_ipa [Ch.d; 0x31; Ch.n] in
  ∃ st : scan_state,
    tokenize ipa = Ok st
    ∧ check_char entry
      = Ok (error st || negb (final_check (normalized st)),
            <["ipa" := PyStr (normalized st)]> entry)
    ∧ (∀ k, (k ≤ length ipa)%nat → ∃ stk, scan_upto ipa k = Ok stk)
    ∧ (∀ k stk c lc,
         scan_upto ipa k = Ok stk → ipa !! k = Some c →
         last_was_biphone stk = true → last_c stk = Some lc →
         matches is_biphone (lc ++ [fold_hook c]) = false →
         matches regex_phonemes [fold_hook c] = false →
         ∃ stk', scan_upto ipa (S k) = Ok stk'
                 ∧ error stk' = true
                 ∧ phones stk' = phones stk
                 ∧ last_was_biphone stk' = false)
    ∧ (∀ k stk, (k ≤ length ipa)%nat → scan_upto ipa k = Ok stk →
                error stk = true → error st = true).
Proof.
  apply (check_char_returns
           {[ "ipa" := PyStr [Ch.d; 0x31; Ch.n]; "tags" := PyNone ]}
           [Ch.d; 0x31; Ch.n]).
  vm_compute. reflexivity.
Defined.

(** ** C10: frame *)

(** C10.  A call of [check_char] that returns hands back the reference it
    was given; in the store that dictionary has ['ipa'] replaced by the
    normalized string and every other key as before, and every other
    dictionary is as before. *)
Theorem check_char_frame (h h' : gmap nat (gmap string pyval)) (l r : nat)
    (entry : gmap string pyval) (e : bool) :
  h !! l = Some entry →
  check_char_obj h l = (Ok (e, r), h') →
  r = l
  ∧ ∃ raw st entry',
      entry !! "ipa" = Some (PyStr raw)
      ∧ tokenize (clean_ipa raw) = Ok st
      ∧ entry' = <["ipa" := PyStr (normalized st)]> entry
      ∧ h' = <[l := entry']> h
      ∧ (∀ k, k ≠ "ipa" → entry' !! k = entry !! k)
      ∧ entry' !! "tags" = entry !! "tags"
      ∧ (∀ l', l' ≠ l → h' !! l' = h !! l').
Proof.
  intros Hl Hrun. unfold check_char_obj in Hrun. rewrite Hl in Hrun.
  destruct (check_char entry) as [[e0 entry']|ex] eqn:Hcc;
    [|by apply (f_equal fst) in Hrun].
  pose proof (f_equal fst Hrun) as H1. pose proof (f_equal snd Hrun) as H2.
  cbn [fst snd] in H1, H2. apply Ok_pair_inj in H1 as [-> ->].
  split; [done|].
  apply check_char_inv in Hcc as (raw & st & Hipa & Htok & _ & ->).
  exists raw, st, (<["ipa" := PyStr (normalized st)]> entry).
  split_and!; try done.
  - intros k Hk. by apply lookup_insert_ne.
  - by apply lookup_insert_ne.
  - intros l' Hl'. rewrite <- H2. by apply lookup_insert_ne.
Qed.

Lemma check_char_frame_witness :
  let entry := entry_of [Ch.t; Ch.esh; Ch.e; Ch.small_i; Ch.n] in
  let h : gmap nat (gmap string pyval) := {[ 7%nat := entry ]} in
  let h' : gmap nat (gmap string pyval) :=
    {[ 7%nat := <["ipa" := PyStr [Ch.t; Ch.esh; Ch.space; Ch.e; Ch.small_i;
                                  Ch.space; Ch.n]]> entry ]} in
  7%nat = 7%nat
  ∧ ∃ raw st entry',
      entry !! "ipa" = Some (PyStr raw)
      ∧ tokenize (clean_ipa raw) = Ok st
      ∧ entry' = <["ipa" := PyStr (normalized st)]> entry
      ∧ h' = <[7%nat := entry']> h
      ∧ (∀ k, k ≠ "ipa" → entry' !! k = entry !! k)
      ∧ entry' !! "tags" = entry !! "tags"
      ∧ (∀ l', l' ≠ 7%nat → h' !! l' = h !! l').
Proof.
  apply (check_char_frame
           {[ 7%nat := entry_of [Ch.t; Ch.esh; Ch.e; Ch.small_i; Ch.n] ]}
           _ 7 7
           (entry_of [Ch.t; Ch.esh; Ch.e; Ch.small_i; Ch.n]) false).
  - vm_compute. reflexivity.
  - vm_compute. reflexivity.
Defined.


(** * Further properties *)

(** ** The iteration order of the inventory sets *)

(** The four passes under the reverse order of the vowels. *)
Lemma phones_str4_order_witness :
  let s := [Ch.stress1; Ch.space; Ch.s; Ch.space; Ch.t; Ch.space; Ch.alpha;
            Ch.long; Ch.space; Ch.t] in
  stress_pass (reverse VOWELS) 1
    (stress_pass (reverse VOWELS) 2
       (stress_pass (reverse VOWELS) 3 (stress_pass (reverse VOWELS) 4 s)))
  = phones_str4_of s.
Proof.
  intros s. apply (phones_str4_order (reverse VOWELS) s).
  apply reverse_Permutation.
Defined.

(** The three tests of the tokenizer give the same answers for every
    iteration order of the inventory sets that their patterns are built
    from. *)
Theorem tokenizer_tests_order (ph af lv dp : list pystr) (s : pystr) :
  ph ≡ₚ PHONEMES → af ≡ₚ AFFRICATES → lv ≡ₚ LONG_VOWELS → dp ≡ₚ DIPTHONGS →
  matches (RGroup (ralts (sorted_len_desc ph))) s = matches regex_phonemes s
  ∧ matches (RGroup (ralts (af ++ lv ++ dp))) s = matches is_biphone s
  ∧ matches (RGroup (ralts (heads af ++ heads lv ++ heads dp))) s
    = matches first_char_biphone s.
Proof.
  intros Hph Haf Hlv Hdp. unfold regex_phonemes, is_biphone, first_char_biphone.
  split_and!; apply matches_alts_order.
  - by rewrite !sorted_len_desc_perm.
  - by rewrite Haf, Hlv, Hdp.
  - unfold heads. by rewrite Haf, Hlv, Hdp.
Qed.

Lemma tokenizer_tests_order_witness :
  let s := [Ch.t; Ch.esh; Ch.e] in
  matches (RGroup (ralts (sorted_len_desc (reverse PHONEMES)))) s
  = matches regex_phonemes s
  ∧ matches (RGroup (ralts (reverse AFFRICATES ++ reverse LONG_VOWELS
                            ++ reverse DIPTHONGS))) s
    = matches is_biphone s
  ∧ matches (RGroup (ralts (heads (reverse AFFRICATES)
                            ++ heads (reverse LONG_VOWELS)
                            ++ heads (reverse DIPTHONGS)))) s
    = matches first_char_biphone s.
Proof.
  intros s.
  apply (tokenizer_tests_order (reverse PHONEMES) (reverse AFFRICATES)
           (reverse LONG_VOWELS) (reverse DIPTHONGS) s);
    apply reverse_Permutation.
Defined.


(** ** The tokenizer: what the tokens are *)

Lemma scan_spec_pending ipa k :
  last_was_biphone (scan_spec ipa k) = true →
  ∃ j x, k = S j ∧ ipa !! j = Some x ∧ (k < length ipa)%nat
         ∧ last_c (scan_spec ipa k) = Some [fold_hook x].
Proof.
  induction k as [|k IH]; [done|]. cbn [scan_spec].
  destruct (ipa !! k) as [x|] eqn:Hx.
  - intros Hp. exists k, x. unfold step_spec in *.
    destruct (last_was_biphone (scan_spec ipa k));
      [destruct (matches _ _); [|destruct (bool_decide _)]; done|].
    unfold opens_at in *.
    destruct (bool_decide ([fold_hook x] ∈ biphone_openers)); [|done].
    destruct (bool_decide (S k < length ipa)%nat) eqn:Hlt; [|done].
    apply bool_decide_eq_true in Hlt.
    destruct (bool_decide (last ipa = Some (fold_hook x))); done.
  - intros Hp. destruct (IH Hp) as (j & y & -> & Hy & Hlt & _).
    apply lookup_ge_None in Hx. lia.
Qed.

Lemma take_S_lookup {A} (l : list A) k x :
  l !! k = Some x → take (S k) l = take k l ++ [x].
Proof. intros H. by rewrite (take_S_r _ _ _ H). Qed.

(** As long as no pair was unresolvable, the tokens and the character
    held back spell the part of the transcription read so far. *)
Lemma scan_spec_spelling ipa k :
  (k ≤ length ipa)%nat →
  error (scan_spec ipa k) = false →
  mjoin (phones (scan_spec ipa k)) ++ held (scan_spec ipa k)
  = fold_hook <$> take k ipa.
Proof.
  induction k as [|k IH]; intros Hk He; [done|].
  destruct (ipa !! k) as [x|] eqn:Hx; [|apply lookup_ge_None in Hx; lia].
  rewrite (take_S_lookup _ _ _ Hx), fmap_app. cbn [fmap list_fmap].
  cbn [scan_spec] in *. rewrite Hx in *.
  assert (error (scan_spec ipa k) = false) as He0.
  { destruct (error (scan_spec ipa k)) eqn:E; [|done].
    by rewrite (step_spec_error_mono ipa k x _ E) in He. }
  specialize (IH ltac:(lia) He0). rewrite <- IH. clear IH.
  unfold step_spec in *. unfold held at 2.
  destruct (last_was_biphone (scan_spec ipa k)) eqn:Hp.
  - destruct (scan_spec_pending _ _ Hp) as (j & y & _ & _ & _ & Hlc).
    rewrite Hlc in *. cbn [default from_option id] in *.
    destruct (matches _ _); [|destruct (bool_decide _); [|done]];
      unfold held; cbn [last_was_biphone phones];
      rewrite join_app; cbn [mjoin list_join app];
      rewrite ?app_nil_r; by rewrite <- ?app_assoc.
  - destruct (opens_at _ _ _); unfold held;
      cbn [last_was_biphone phones last_c default from_option id];
      rewrite ?join_app; cbn [mjoin list_join app];
      rewrite ?app_nil_r; by rewrite <- ?app_assoc.
Qed.

(** Whatever the flag, the tokens and the character held back are taken
    from the transcription, in its order. *)
Lemma scan_spec_sublist ipa k :
  (k ≤ length ipa)%nat →
  mjoin (phones (scan_spec ipa k)) ++ held (scan_spec ipa k)
  `sublist_of` fold_hook <$> take k ipa.
Proof.
  induction k as [|k IH]; intros Hk; [done|].
  destruct (ipa !! k) as [x|] eqn:Hx; [|apply lookup_ge_None in Hx; lia].
  rewrite (take_S_lookup _ _ _ Hx), fmap_app. cbn [fmap list_fmap].
  cbn [scan_spec]. rewrite Hx.
  specialize (IH ltac:(lia)). revert IH.
  unfold step_spec. unfold held at 1.
  destruct (last_was_biphone (scan_spec ipa k)) eqn:Hp.
  - destruct (scan_spec_pending _ _ Hp) as (j & y & _ & _ & _ & Hlc).
    rewrite Hlc. cbn [default from_option id]. intros IH.
    destruct (matches _ _); [|destruct (bool_decide _)];
      unfold held; cbn [last_was_biphone phones];
      rewrite ?join_app; cbn [mjoin list_join app]; rewrite ?app_nil_r.
    + change [fold_hook y; fold_hook x] with ([fold_hook y] ++ [fold_hook x]).
      rewrite app_assoc. by apply sublist_app.
    + rewrite (app_assoc _ [fold_hook y] [fold_hook x]).
      by apply sublist_app.
    + apply sublist_inserts_r.
      etrans; [|exact IH]. by apply sublist_inserts_r.
  - rewrite app_nil_r. intros IH.
    destruct (opens_at _ _ _); unfold held;
      cbn [last_was_biphone phones last_c default from_option id];
      rewrite ?join_app; cbn [mjoin list_join app]; rewrite ?app_nil_r;
      by apply sublist_app.
Qed.

Lemma scan_spec_shape ipa k :
  Forall token_shape (phones (scan_spec ipa k)).
Proof.
  induction k as [|k IH]; [by constructor|]. cbn [scan_spec].
  destruct (ipa !! k) as [x|]; [|done]. unfold step_spec.
  destruct (last_was_biphone (scan_spec ipa k)) eqn:Hp.
  - destruct (scan_spec_pending _ _ Hp) as (j & y & _ & _ & _ & Hlc).
    rewrite Hlc. cbn [default from_option id app].
    rewrite matches_is_biphone.
    destruct (bool_decide ([fold_hook y; fold_hook x] ∈ BIPHONES)) eqn:Hb;
      [|destruct (bool_decide ([fold_hook x] ∈ PHONEMES))];
      cbn [phones]; [| |done].
    + apply Forall_app_2; [done|]. apply Forall_singleton. right.
      by apply bool_decide_eq_true in Hb.
    + apply Forall_app_2; [done|].
      apply Forall_cons_2; [left; by eexists|].
      apply Forall_singleton. left. by eexists.
  - destruct (opens_at _ _ _); cbn [phones]; [done|].
    apply Forall_app_2; [done|]. apply Forall_singleton. left. by eexists.
Qed.

(** ** The stored string: what the steps after the tokenizer keep *)

Lemma phonetic_app a b : phonetic (a ++ b) = phonetic a ++ phonetic b.
Proof. apply filter_app. Qed.

Lemma phonetic_cons c s : phonetic (c :: s) = phonetic [c] ++ phonetic s.
Proof. apply (phonetic_app [c]). Qed.

Lemma phonetic_layout c s : is_layout c = true → phonetic (c :: s) = phonetic s.
Proof. intros H. unfold phonetic. by rewrite filter_cons, decide_False by (by rewrite H). Qed.

Lemma phonetic_onset cs : phonetic (onset cs) = phonetic (mjoin cs).
Proof.
  induction cs as [|c cs IH]; [done|].
  rewrite onset_cons, phonetic_layout by done.
  cbn [mjoin list_join]. by rewrite !phonetic_app, IH.
Qed.

Lemma phonetic_onset' cs : phonetic (onset' cs) = phonetic (mjoin cs).
Proof.
  induction cs as [|c cs IH]; [done|].
  rewrite onset'_cons. cbn [mjoin list_join]. rewrite !phonetic_app.
  by rewrite phonetic_layout, IH by done.
Qed.

Lemma phonetic_join ts : phonetic (py_join [Ch.space] ts) = phonetic (mjoin ts).
Proof.
  destruct ts as [|t ts]; [done|].
  rewrite py_join_onset. cbn [mjoin list_join].
  by rewrite !phonetic_app, phonetic_onset.
Qed.

(** *** The shape of a match of a stress pattern *)

Lemma cons_or_aff_matches b s m g rest :
  (m, g, rest) ∈ rmatch CONS_OR_AFF b s → g = [Some m].
Proof.
  rewrite rmatch_CONS_OR_AFF. intros [Hin|Hin]%elem_of_app.
  - destruct s as [|x t]; [by apply elem_of_nil in Hin|].
    destruct (bool_decide _); [|by apply elem_of_nil in Hin].
    apply list_elem_of_singleton in Hin. by injection Hin as -> -> ->.
  - apply list_elem_of_In, in_map_iff in Hin as ([[m1 g1] s1] & Heq & _).
    by injection Heq as <- <- <-.
Qed.

Lemma seq_matches r1 r2 b s m g rest :
  (m, g, rest) ∈ rmatch (RSeq r1 r2) b s →
  ∃ m1 g1 s1 m2 g2,
    (m1, g1, s1) ∈ rmatch r1 b s
    ∧ (m2, g2, rest) ∈ rmatch r2 (b && is_nil m1) s1
    ∧ m = m1 ++ m2 ∧ g = g1 ++ g2.
Proof.
  cbn [rmatch]. intros Hin.
  apply list_elem_of_In, in_flat_map in Hin as ([[m1 g1] s1] & H1 & H2).
  apply in_map_iff in H2 as ([[m2 g2] s2] & Heq & H2).
  injection Heq as <- <- <-.
  exists m1, g1, s1, m2, g2. by rewrite !list_elem_of_In.
Qed.

Lemma char_matches c b s m g rest :
  (m, g, rest) ∈ rmatch (RChar c) b s → m = [c] ∧ g = [].
Proof.
  cbn [rmatch]. destruct s as [|x t]; [by intros ?%elem_of_nil|].
  destruct (N.eqb_spec x c) as [->|]; [|by intros ?%elem_of_nil].
  intros Hin%list_elem_of_singleton. by injection Hin as -> -> ->.
Qed.

Lemma front_tail_matches k b s m g rest :
  (m, g, rest) ∈ rmatch (front_tail k) b s →
  ∃ cs, length cs = k ∧ m = onset cs ++ [Ch.space] ∧ g = Some <$> cs.
Proof.
  revert b s m g rest. induction k as [|k IH]; intros b s m g rest Hin.
  - apply char_matches in Hin as [-> ->]. by exists [].
  - cbn [front_tail] in Hin.
    apply seq_matches in Hin as (m1 & g1 & s1 & m2 & g2 & H1 & H2 & -> & ->).
    apply char_matches in H1 as [-> ->].
    apply seq_matches in H2 as (c & gc & s2 & m3 & g3 & Hc & H3 & -> & ->).
    apply cons_or_aff_matches in Hc as ->.
    apply IH in H3 as (cs & <- & -> & ->).
    exists (c :: cs). split_and!; [done| |done].
    rewrite onset_cons. by list_norm.
Qed.

Lemma front_matches k b s m g rest :
  (m, g, rest) ∈ rmatch (front_pattern k) b s →
  ∃ bd mk cs,
    length cs = k ∧ m = bd ++ mk :: onset cs ++ [Ch.space]
    ∧ g = Some bd :: Some [mk] :: (Some <$> cs)
    ∧ phonetic bd = [] ∧ is_marker mk = true.
Proof.
  unfold front_pattern. intros Hin.
  apply seq_matches in Hin as (bd & gb & s1 & m2 & g2 & Hb & H2 & -> & ->).
  apply seq_matches in H2 as (mk & gm & s2 & m3 & g3 & Hm & H3 & -> & ->).
  apply front_tail_matches in H3 as (cs & Hlen & -> & ->).
  assert (gb = [Some bd] ∧ phonetic bd = []) as [-> Hbd].
  { unfold stress_boundary in Hb. cbn [rmatch ngroups replicate] in Hb.
    apply list_elem_of_In, in_map_iff in Hb as ([[m1 g1] s1'] & Heq & Hb).
    injection Heq as <- <- <-.
    apply in_app_iff in Hb as [Hb|Hb];
      apply in_map_iff in Hb as ([[m0 g0] s0] & Heq & Hb);
      injection Heq as <- <- <-.
    - apply list_elem_of_In, (char_matches _ b) in Hb as [-> ->]. done.
    - destruct b; [|done]. destruct Hb as [Heq|[]].
      by injection Heq as <- <- <-. }
  assert (∃ x, mk = [x] ∧ gm = [Some [x]] ∧ is_marker x = true)
    as (x & -> & -> & Hx).
  { unfold stress_marker in Hm. cbn [rmatch] in Hm.
    destruct s1 as [|x t]; [by apply elem_of_nil in Hm|].
    destruct (bool_decide (x ∈ [Ch.stress2; Ch.stress1])) eqn:E;
      [|by apply elem_of_nil in Hm].
    apply list_elem_of_singleton in Hm. injection Hm as Hmk Hgm _.
    by exists x. }
  exists bd, x, cs. by split_and!.
Qed.

Lemma vowel_group_matches vs b s v g rest :
  vs ≠ [] → (v, g, rest) ∈ rmatch (RGroup (ralts vs)) b s → g = [Some v].
Proof.
  intros Hne. cbn [rmatch]. rewrite rmatch_ralts by done. intros Hin.
  apply list_elem_of_In, in_map_iff in Hin as ([[m1 g1] s1] & Heq & Hin).
  injection Heq as <- <- <-.
  apply in_flat_map in Hin as (x & _ & Hin). unfold lit_result in Hin.
  destruct (is_prefix x s); [|done]. destruct Hin as [Heq|[]].
  by injection Heq as <- <- <-.
Qed.

Lemma stress_matches k b s m g rest :
  (k ≤ 4)%nat →
  (m, g, rest) ∈ rmatch (stress_pattern VOWELS k) b s →
  ∃ bd mk cs v,
    length cs = k ∧ m = bd ++ mk :: onset cs ++ Ch.space :: v
    ∧ g = Some bd :: Some [mk] :: (Some <$> cs) ++ [Some v]
    ∧ phonetic bd = [] ∧ is_marker mk = true.
Proof.
  intros Hk. rewrite rmatch_stress_split by done. intros Hin.
  apply list_elem_of_In, in_flat_map in Hin as ([[m1 g1] s1] & H1 & H2).
  unfold then_vowel in H2.
  apply in_map_iff in H2 as ([[v gv] s2] & Heq & H2).
  injection Heq as <- <- <-.
  apply list_elem_of_In, vowel_group_matches in H2 as ->; [|done].
  apply list_elem_of_In, front_matches in H1
    as (bd & mk & cs & Hlen & -> & -> & Hbd & Hmk).
  exists bd, mk, cs, v. split_and!; try done; by list_norm.
Qed.

(** The replacement of a match has the phonetic content of the match. *)
Lemma phonetic_expand k b s m g rest :
  (k ≤ 4)%nat →
  (m, g, rest) ∈ rmatch (stress_pattern VOWELS k) b s →
  phonetic (expand (stress_template k) m g) = phonetic m.
Proof.
  intros Hk Hin.
  apply stress_matches in Hin as (bd & mk & cs & v & <- & -> & -> & Hbd & Hmk);
    [|done].
  rewrite expand_stress_template.
  assert (is_layout mk = true) as Hl by (unfold is_layout; by rewrite Hmk, orb_true_r).
  rewrite !phonetic_app, phonetic_onset', (phonetic_layout mk) by done.
  rewrite (phonetic_layout mk) by done.
  by rewrite phonetic_app, phonetic_onset, (phonetic_layout Ch.space).
Qed.

(** *** Each step keeps the phonetic content *)

Lemma phonetic_sub_stress k skip b s :
  (k ≤ 4)%nat →
  phonetic (sub_from (stress_pattern VOWELS k) (stress_template k) skip b s)
  = phonetic (drop skip s).
Proof.
  intros Hk. revert skip b. induction s as [|c t IH]; intros skip b.
  { by destruct skip. }
  destruct skip as [|skip]; [|apply IH]. cbn [sub_from drop].
  destruct (head (rmatch _ b (c :: t))) as [[[m g] rest]|] eqn:Hh;
    [|by rewrite (phonetic_cons c), (phonetic_cons c t), IH].
  assert ((m, g, rest) ∈ rmatch (stress_pattern VOWELS k) b (c :: t)) as Hin.
  { destruct (rmatch _ b (c :: t)) as [|y l]; [done|].
    injection Hh as ->. by left. }
  destruct m as [|c' m'];
    [by rewrite (phonetic_cons c), (phonetic_cons c t), IH|].
  rewrite phonetic_app, (phonetic_expand k b (c :: t) _ g rest) by done.
  rewrite IH. apply rmatch_sound in Hin as [Hs _].
  cbn [app] in Hs. injection Hs as -> ->.
  rewrite drop_app_length, <- phonetic_app. done.
Qed.

Lemma phonetic_stress_pass k s :
  (k ≤ 4)%nat → phonetic (stress_pass VOWELS k s) = phonetic s.
Proof. intros Hk. unfold stress_pass, re_sub. by rewrite phonetic_sub_stress. Qed.

Lemma phonetic_lstrip s : phonetic (py_lstrip [Ch.space] s) = phonetic s.
Proof.
  induction s as [|c s IH]; [done|]. cbn [py_lstrip].
  destruct (decide (c ∈ [Ch.space])) as [Hc|Hc].
  - rewrite (bool_decide_eq_true_2 _ Hc), IH.
    apply list_elem_of_singleton in Hc as ->.
    by rewrite phonetic_layout.
  - by rewrite (bool_decide_eq_false_2 _ Hc).
Qed.

Lemma phonetic_reverse s : phonetic (reverse s) = reverse (phonetic s).
Proof.
  induction s as [|c s IH]; [done|].
  rewrite reverse_cons, phonetic_app, IH, (phonetic_cons c s), reverse_app.
  f_equal. unfold phonetic. rewrite filter_cons.
  by destruct (decide _).
Qed.

Lemma phonetic_strip s : phonetic (py_strip [Ch.space] s) = phonetic s.
Proof.
  unfold py_strip.
  by rewrite phonetic_reverse, phonetic_lstrip, phonetic_reverse,
    reverse_involutive, phonetic_lstrip.
Qed.

Lemma is_prefix_app_inv old s : is_prefix old s = true → ∃ r, s = old ++ r.
Proof. intros H%bool_decide_eq_true. exact H. Qed.

Lemma phonetic_replace_from old new skip s :
  old ≠ [] → phonetic old = phonetic new →
  phonetic (replace_from old new skip s) = phonetic (drop skip s).
Proof.
  intros Hne Heq. revert skip. induction s as [|c t IH]; intros skip.
  { by destruct skip. }
  destruct skip as [|skip]; [|apply IH]. cbn [replace_from drop].
  destruct (is_prefix old (c :: t)) eqn:Hp;
    [|by rewrite (phonetic_cons c), (phonetic_cons c t), IH].
  apply is_prefix_app_inv in Hp as [r Hr].
  destruct old as [|o old']; [done|]. cbn [app] in Hr.
  injection Hr as -> ->. cbn [length pred].
  rewrite phonetic_app, IH, drop_app_length, <- Heq.
  change (o :: old' ++ r) with ((o :: old') ++ r).
  by rewrite phonetic_app.
Qed.

Lemma phonetic_replace old new s :
  old ≠ [] → phonetic old = phonetic new →
  phonetic (py_replace old new s) = phonetic s.
Proof. intros. unfold py_replace. by rewrite phonetic_replace_from. Qed.

Lemma phonetic_filter_remove s :
  phonetic (filter (fun c => c ∉ REMOVE) s) = phonetic s.
Proof.
  induction s as [|c s IH]; [done|]. rewrite filter_cons.
  destruct (decide (c ∉ REMOVE)) as [Hc|Hc].
  - by rewrite (phonetic_cons c), (phonetic_cons c s), IH.
  - rewrite IH, phonetic_layout; [done|]. unfold is_layout.
    rewrite (bool_decide_eq_true_2 (c ∈ REMOVE)); [by rewrite orb_true_r|].
    by destruct (decide (c ∈ REMOVE)).
Qed.

Lemma phonetic_stored s : phonetic (phones_str7_of s) = phonetic s.
Proof.
  unfold phones_str7_of, phones_str4_of, re_sub.
  rewrite !phonetic_replace by done.
  rewrite sub_class_filter, phonetic_filter_remove.
  rewrite phonetic_replace by done.
  rewrite phonetic_strip.
  by rewrite !phonetic_stress_pass by lia.
Qed.


(** *** Characters that the program has no use for *)

Lemma elem_of_lstrip chars x s :
  x ∉ chars → x ∈ s → x ∈ py_lstrip chars s.
Proof.
  intros Hx. induction s as [|c s IH]; [done|]. cbn [py_lstrip].
  destruct (decide (c ∈ chars)) as [Hc|Hc].
  - rewrite (bool_decide_eq_true_2 _ Hc).
    intros [->|Hin]%elem_of_cons; [done|by apply IH].
  - by rewrite (bool_decide_eq_false_2 _ Hc).
Qed.

Lemma elem_of_strip chars x s : x ∉ chars → x ∈ s → x ∈ py_strip chars s.
Proof.
  intros Hx Hin. unfold py_strip.
  apply elem_of_reverse, elem_of_lstrip; [done|].
  by apply elem_of_reverse, elem_of_lstrip.
Qed.

Lemma elem_of_replace_from old new skip x s :
  old ≠ [] → x ∉ old → x ∈ drop skip s → x ∈ replace_from old new skip s.
Proof.
  intros Hne Hx. revert skip. induction s as [|c t IH]; intros skip.
  { by destruct skip. }
  destruct skip as [|skip]; [|apply IH]. cbn [replace_from drop].
  destruct (is_prefix old (c :: t)) eqn:Hp.
  - apply is_prefix_app_inv in Hp as [r Hr].
    destruct old as [|o old']; [done|]. cbn [app] in Hr.
    injection Hr as -> ->. cbn [length pred]. intros Hin.
    apply elem_of_app. right. apply IH. rewrite drop_app_length.
    change (o :: old' ++ r) with ((o :: old') ++ r) in Hin.
    apply elem_of_app in Hin as [Hin|Hin]; done.
  - intros [->|Hin]%elem_of_cons; [by left|].
    right. by apply IH.
Qed.

Ltac elem_solve :=
  repeat first [apply list_elem_of_here | apply list_elem_of_further].

(** [x ∉ l] from [H : x ∉ l'] where [l'] has the elements of [l]. *)
Ltac not_elem_by H :=
  let Hin := fresh "Hin" in
  intros Hin; apply H;
  repeat (apply elem_of_cons in Hin as [->|Hin]; [elem_solve|]);
  by apply elem_of_nil in Hin.

Lemma elem_of_clean_ipa x raw :
  x ∈ raw →
  x ∉ [Ch.slash; Ch.dot; Ch.lparen; Ch.rparen; Ch.turned_r; Ch.schwa] →
  x ∈ clean_ipa raw.
Proof.
  intros Hin Hx. unfold clean_ipa, py_replace.
  repeat (apply elem_of_replace_from; [done|not_elem_by Hx|]).
  cbn [drop]. apply elem_of_strip; [not_elem_by Hx|done].
Qed.

(** Every character that is no whitespace lies in one of the units of
    [split()]. *)
Lemma elem_of_split_from x cur s :
  py_isspace x = false → x ∈ cur ∨ x ∈ s →
  ∃ u, u ∈ split_from cur s ∧ x ∈ u.
Proof.
  intros Hx. revert cur. induction s as [|c t IH]; intros cur Hin.
  - destruct Hin as [Hin|Hin]; [|by apply elem_of_nil in Hin].
    destruct cur as [|y cur]; [by apply elem_of_nil in Hin|].
    exists (reverse (y :: cur)). split; [by left|by apply elem_of_reverse].
  - cbn [split_from]. destruct (py_isspace c) eqn:Hc.
    + destruct Hin as [Hin|Hin].
      * destruct cur as [|y cur]; [by apply elem_of_nil in Hin|].
        exists (reverse (y :: cur)).
        split; [by left|by apply elem_of_reverse].
      * apply elem_of_cons in Hin as [->|Hin]; [congruence|].
        destruct (IH [] (or_intror Hin)) as (u & Hu & Hxu).
        exists u. split; [|done]. destruct cur; [done|by right].
    + apply IH. destruct Hin as [Hin|Hin]; [left; by right|].
      apply elem_of_cons in Hin as [->|Hin]; [left; by left|by right].
Qed.

Lemma final_check_units s u :
  final_check s = true → u ∈ py_split (remove_stress s) → u ∈ PHONEMES.
Proof.
  unfold final_check. intros Hfc%bool_decide_eq_true Hu.
  assert (u ∈ (list_to_set (py_split (remove_stress s)) : gset pystr))
    as Hin by (by apply elem_of_list_to_set).
  rewrite <- Hfc in Hin. apply elem_of_intersection in Hin as [Hin _].
  unfold PHONEMES_set in Hin. apply elem_of_list_to_set in Hin.
  unfold PHONEMES. rewrite !elem_of_app in *. tauto.
Qed.

Lemma elem_of_phonetic x s : x ∈ phonetic s ↔ x ∈ s ∧ is_layout x = false.
Proof. unfold phonetic. rewrite list_elem_of_filter. tauto. Qed.

Lemma foreign_inv x :
  foreign x = true →
  py_isspace x = false ∧ (x ∉ mjoin PHONEMES) ∧ is_layout x = false
  ∧ fold_hook x = x
  ∧ (x ∉ [Ch.slash; Ch.dot; Ch.lparen; Ch.rparen; Ch.turned_r; Ch.schwa]).
Proof.
  unfold foreign. intros H. apply andb_prop in H as [H H3].
  apply andb_prop in H as [H1 H2].
  apply negb_true_iff in H1, H2, H3.
  apply bool_decide_eq_false in H2, H3.
  split_and!; [done|done| | |].
  - unfold is_layout. apply orb_false_intro; [apply orb_false_intro|].
    + apply N.eqb_neq. intros ->. by vm_compute in H1.
    + unfold is_marker. apply bool_decide_eq_false. intros Hm. apply H2.
      apply elem_of_cons in Hm as [->|Hm];
        [|apply list_elem_of_singleton in Hm as ->];
        apply (bool_decide_eq_true_1 (_ ∈ _)); vm_compute; reflexivity.
    + apply bool_decide_eq_false. not_elem_by H3.
  - unfold fold_hook. destruct (N.eqb_spec x Ch.schwa_hook) as [->|]; [|done].
    exfalso. apply H3. elem_solve.
  - intros Hin. repeat (apply elem_of_cons in Hin as [->|Hin]);
      first [by apply elem_of_nil in Hin
            |by apply H3; elem_solve
            |by apply H2; apply (bool_decide_eq_true_1 (_ ∈ _));
                vm_compute; reflexivity].
Qed.

Lemma elem_of_replace_from_inv old new skip x s :
  x ∈ replace_from old new skip s → x ∈ new ∨ x ∈ s.
Proof.
  revert skip. induction s as [|c t IH]; intros skip.
  { destruct skip; by intros ?%elem_of_nil. }
  destruct skip as [|skip]; cbn [replace_from].
  - destruct (is_prefix old (c :: t)).
    + intros [Hin|Hin]%elem_of_app; [by left|].
      apply IH in Hin as [Hin|Hin]; [by left|right; by right].
    + intros [->|Hin]%elem_of_cons; [right; by left|].
      apply IH in Hin as [Hin|Hin]; [by left|right; by right].
  - intros Hin. apply IH in Hin as [Hin|Hin]; [by left|right; by right].
Qed.

Lemma stored_no_remove s c : c ∈ REMOVE → c ∉ phones_str7_of s.
Proof.
  intros Hc Hin. unfold phones_str7_of, py_replace in Hin.
  assert (c ≠ Ch.stress1 ∧ c ≠ Ch.stress2) as [H1 H2].
  { apply elem_of_cons in Hc as [->|Hc];
      [|apply list_elem_of_singleton in Hc as ->]; done. }
  apply elem_of_replace_from_inv in Hin as [Hin|Hin];
    [by apply list_elem_of_singleton in Hin|].
  apply elem_of_replace_from_inv in Hin as [Hin|Hin];
    [by apply list_elem_of_singleton in Hin|].
  unfold re_sub in Hin. rewrite sub_class_filter in Hin.
  apply list_elem_of_filter in Hin as [Hin _]. done.
Qed.

Lemma tokenize_held ipa : held (scan_spec ipa (length ipa)) = [].
Proof.
  unfold held. destruct (last_was_biphone _) eqn:Hp; [|done].
  apply scan_spec_pending in Hp as (j & x & _ & _ & Hlt & _). lia.
Qed.

(** *** The properties *)

(** The tokens of a scan that met no unresolvable pair, read one after the
    other, are the transcription with [ɚ] folded to [ə]: no character is
    lost, added or moved, and the last character is never held back. *)
Theorem tokens_spell_transcription (ipa : pystr) (st : scan_state) :
  tokenize ipa = Ok st → error st = false →
  last_was_biphone st = false ∧ mjoin (phones st) = fold_hook <$> ipa.
Proof.
  rewrite tokenize_spec. intros [= <-] He.
  pose proof (tokenize_held ipa) as Hh.
  pose proof (scan_spec_spelling ipa (length ipa) ltac:(lia) He) as Hs.
  rewrite Hh, app_nil_r, firstn_all in Hs. split; [|done].
  destruct (last_was_biphone _) eqn:Hp; [|done].
  apply scan_spec_pending in Hp as (j & x & _ & _ & Hlt & _). lia.
Qed.

Lemma tokens_spell_transcription_witness :
  last_was_biphone (scan_spec [Ch.t; Ch.esh; Ch.schwa_hook; Ch.t]
                              4) = false
  ∧ mjoin (phones (scan_spec [Ch.t; Ch.esh; Ch.schwa_hook; Ch.t] 4))
    = fold_hook <$> [Ch.t; Ch.esh; Ch.schwa_hook; Ch.t].
Proof.
  apply (tokens_spell_transcription [Ch.t; Ch.esh; Ch.schwa_hook; Ch.t]).
  - vm_compute. reflexivity.
  - vm_compute. reflexivity.
Defined.

(** Whatever the flag, every token is one character or a biphone of the
    inventory, and the tokens read one after the other are a subsequence of
    the transcription (with [ɚ] folded): the scan drops characters where
    it sets the flag, and never adds or reorders any. *)
Theorem tokens_within_transcription (ipa : pystr) (st : scan_state) :
  tokenize ipa = Ok st →
  Forall token_shape (phones st)
  ∧ mjoin (phones st) `sublist_of` fold_hook <$> ipa.
Proof.
  rewrite tokenize_spec. intros [= <-]. split; [apply scan_spec_shape|].
  pose proof (scan_spec_sublist ipa (length ipa) ltac:(lia)) as Hs.
  by rewrite tokenize_held, app_nil_r, firstn_all in Hs.
Qed.

Lemma tokens_within_transcription_witness :
  Forall token_shape (phones (scan_spec [Ch.t; 0x31; Ch.e; Ch.small_i] 4))
  ∧ mjoin (phones (scan_spec [Ch.t; 0x31; Ch.e; Ch.small_i] 4))
    `sublist_of` fold_hook <$> [Ch.t; 0x31; Ch.e; Ch.small_i].
Proof.
  apply (tokens_within_transcription [Ch.t; 0x31; Ch.e; Ch.small_i]).
  vm_compute. reflexivity.
Defined.



(** A transcription with a foreign character (no whitespace, in no
    phoneme of the inventory, none of [/ . ( )], the tie bar and [ɚ]) is
    rejected: [check_char] returns with the flag set.  In particular a
    transcription with [[] is rejected, although the flag that line 47
    sets for it is overwritten at line 56. *)
Theorem foreign_character_rejected
    (entry : gmap string pyval) (raw : pystr) (x : N) :
  entry !! "ipa" = Some (PyStr raw) →
  x ∈ raw → foreign x = true →
  ∃ out, check_char entry = Ok (true, <["ipa" := PyStr out]> entry).
Proof.
  intros Hipa Hin Hx. rewrite (check_char_str _ _ Hipa).
  set (ipa := clean_ipa raw). set (st := scan_spec ipa (length ipa)).
  exists (normalized st). do 2 f_equal.
  destruct (error st) eqn:He; [done|]. cbn [orb].
  apply negb_true_iff. destruct (final_check (normalized st)) eqn:Hfc; [|done].
  exfalso. apply foreign_inv in Hx as (Hsp & Hph & Hlay & Hfold & Hclean).
  assert (x ∈ phonetic (normalized st)) as Hout.
  { unfold normalized. rewrite phonetic_stored, phonetic_join.
    pose proof (scan_spec_spelling ipa (length ipa) ltac:(lia) He) as Hs.
    rewrite tokenize_held, app_nil_r, firstn_all in Hs. fold st in Hs.
    rewrite Hs. apply elem_of_phonetic. split; [|done].
    rewrite <- Hfold. apply list_elem_of_fmap_2.
    by apply elem_of_clean_ipa. }
  apply elem_of_phonetic in Hout as [Hout _].
  assert (x ∈ remove_stress (normalized st)) as Hrs.
  { unfold remove_stress, re_sub. rewrite sub_class_filter.
    apply list_elem_of_filter. split; [|done].
    intros Hm. unfold is_layout in Hlay.
    apply orb_false_elim in Hlay as [Hlay _].
    apply orb_false_elim in Hlay as [_ Hlay].
    apply bool_decide_eq_false in Hlay. apply Hlay.
    apply elem_of_cons in Hm as [->|Hm];
      [|apply list_elem_of_singleton in Hm as ->]; elem_solve. }
  destruct (elem_of_split_from x [] (remove_stress (normalized st)) Hsp
              (or_intror Hrs)) as (u & Hu & Hxu).
  apply Hph. apply list_elem_of_join. exists u. split; [done|].
  by apply (final_check_units (normalized st)).
Qed.

Lemma foreign_character_rejected_witness :
  ∃ out, check_char (entry_of [Ch.lbracket; Ch.t; Ch.ash; Ch.p; 0x5d])
         = Ok (true, <["ipa" := PyStr out]>
                       (entry_of [Ch.lbracket; Ch.t; Ch.ash; Ch.p; 0x5d])).
Proof.
  apply (foreign_character_rejected
           (entry_of [Ch.lbracket; Ch.t; Ch.ash; Ch.p; 0x5d])
           [Ch.lbracket; Ch.t; Ch.ash; Ch.p; 0x5d] Ch.lbracket).
  - vm_compute. reflexivity.
  - elem_solve.
  - vm_compute. reflexivity.
Defined.

(** The string that [check_char] stores holds no [.] and no tie bar. *)
Theorem stored_without_removed_marks
    (entry r : gmap string pyval) (e : bool) :
  check_char entry = Ok (e, r) →
  ∃ out, r !! "ipa" = Some (PyStr out)
         ∧ (Ch.dot ∉ out) ∧ (Ch.tie ∉ out).
Proof.
  intros Hrun. apply check_char_inv in Hrun as (raw & st & _ & _ & _ & ->).
  exists (normalized st). split; [apply lookup_insert_eq|].
  unfold normalized. split; apply stored_no_remove; elem_solve.
Qed.

Lemma stored_without_removed_marks_witness :
  ∃ out,
    (<["ipa" := PyStr [Ch.ash; Ch.space; Ch.space; Ch.p]]>
       (entry_of [Ch.ash; Ch.tie; Ch.p]) : gmap string pyval) !! "ipa"
    = Some (PyStr out)
    ∧ (Ch.dot ∉ out) ∧ (Ch.tie ∉ out).
Proof.
  apply (stored_without_removed_marks
           (entry_of [Ch.ash; Ch.tie; Ch.p]) _ false).
  vm_compute. reflexivity.
Defined.

(** A transcription of which the cleaning leaves nothing (such as [/],
    [//] or [/./]) is accepted: [check_char] returns the flag [False] and
    stores the empty string. *)
Theorem empty_transcription_accepted
    (entry : gmap string pyval) (raw : pystr) :
  entry !! "ipa" = Some (PyStr raw) →
  clean_ipa raw = [] →
  check_char entry = Ok (false, <["ipa" := PyStr []]> entry).
Proof.
  intros Hipa Hclean. rewrite (check_char_str _ _ Hipa), Hclean. reflexivity.
Qed.

Lemma empty_transcription_accepted_witness :
  check_char (entry_of [Ch.slash; Ch.dot; Ch.slash])
  = Ok (false, <["ipa" := PyStr []]> (entry_of [Ch.slash; Ch.dot; Ch.slash])).
Proof.
  apply (empty_transcription_accepted _ [Ch.slash; Ch.dot; Ch.slash]).
  - vm_compute. reflexivity.
  - vm_compute. reflexivity.
Defined.

(** ** The filter on the head word *)

Lemma class_star_spec cls k s :
  class_star cls k s = true
  ↔ ∃ a b, s = a ++ b ∧ forallb cls a = true ∧ k b = true.
Proof.
  induction s as [|c t IH]; cbn [class_star].
  - split; [intros Hk; by exists [], []|].
    intros (a & b & Heq & _ & Hk). symmetry in Heq.
    by apply app_eq_nil in Heq as [-> ->].
  - destruct (cls c) eqn:Hc.
    + rewrite orb_true_iff, IH. split.
      * intros [(a & b & -> & Ha & Hk)|Hk].
        -- exists (c :: a), b. cbn [forallb]. by rewrite Hc, Ha.
        -- by exists [], (c :: t).
      * intros ([|c' a] & b & Heq & Ha & Hk).
        -- right. by rewrite Heq.
        -- left. cbn [app] in Heq. injection Heq as <- ->.
           cbn [forallb] in Ha. apply andb_prop in Ha as [_ Ha].
           by exists a, b.
    + split; [intros Hk; by exists [], (c :: t)|].
      intros ([|c' a] & b & Heq & Ha & Hk); [by rewrite Heq|].
      cbn [app] in Heq. injection Heq as <- ->.
      cbn [forallb] in Ha. by rewrite Hc in Ha.
Qed.

Lemma class_plus_spec cls k s :
  class_plus cls k s = true
  ↔ ∃ a b, s = a ++ b ∧ a ≠ [] ∧ forallb cls a = true ∧ k b = true.
Proof.
  destruct s as [|c t]; cbn [class_plus].
  - split; [done|]. intros (a & b & Heq & Hne & _). symmetry in Heq.
    by apply app_eq_nil in Heq as [-> _].
  - destruct (cls c) eqn:Hc.
    + rewrite class_star_spec. split.
      * intros (a & b & -> & Ha & Hk). exists (c :: a), b.
        cbn [forallb]. by rewrite Hc, Ha.
      * intros ([|c' a] & b & Heq & Hne & Ha & Hk); [done|].
        cbn [app] in Heq. injection Heq as <- ->.
        cbn [forallb] in Ha. apply andb_prop in Ha as [_ Ha].
        by exists a, b.
    + split; [done|].
      intros ([|c' a] & b & Heq & Hne & Ha & Hk); [done|].
      cbn [app] in Heq. injection Heq as <- ->.
      cbn [forallb] in Ha. by rewrite Hc in Ha.
Qed.

Lemma at_dollar_spec s : at_dollar s = true ↔ s = [] ∨ s = [0x0a].
Proof.
  destruct s as [|c [|d s]]; cbn [at_dollar].
  - split; [by left|done].
  - rewrite N.eqb_eq. split; [intros ->; by right|].
    by intros [?|[= ->]].
  - split; [done|]. by intros [?|?].
Qed.

(** The head words that pass the filter: letters, then marks of [-.'],
    then at least one letter, and nothing else but a newline at the
    end. *)
Theorem word_match_iff (word : pystr) :
  word_match word = true
  ↔ ∃ l1 p l2 nl,
      word = l1 ++ p ++ l2 ++ nl
      ∧ forallb is_ascii_letter l1 = true
      ∧ forallb is_word_punct p = true
      ∧ forallb is_ascii_letter l2 = true ∧ l2 ≠ []
      ∧ (nl = [] ∨ nl = [0x0a]).
Proof.
  unfold word_match, word_pattern. cbn [match_items].
  rewrite class_star_spec. split.
  - intros (l1 & b & -> & H1 & Hb).
    apply class_star_spec in Hb as (p & b' & -> & Hp & Hb).
    apply class_plus_spec in Hb as (l2 & nl & -> & Hne & H2 & Hnl).
    apply at_dollar_spec in Hnl. by exists l1, p, l2, nl.
  - intros (l1 & p & l2 & nl & -> & H1 & Hp & H2 & Hne & Hnl).
    exists l1, (p ++ l2 ++ nl). split_and!; [done|done|].
    apply class_star_spec. exists p, (l2 ++ nl). split_and!; [done|done|].
    apply class_plus_spec. exists l2, nl. split_and!; try done.
    by apply at_dollar_spec.
Qed.

Lemma forallb_not_elem (f : N → bool) (l : pystr) (c : N) :
  f c = false → forallb f l = true → c ∉ l.
Proof.
  intros Hf Hl Hs. apply list_elem_of_In in Hs.
  rewrite forallb_forall in Hl. apply Hl in Hs. congruence.
Qed.

(** A head word with a space is turned away, wherever the space is. *)
Theorem word_match_no_space (word : pystr) :
  Ch.space ∈ word → word_match word = false.
Proof.
  intros Hin. destruct (word_match word) eqn:Hm; [|done]. exfalso.
  unfold word_match, word_pattern in Hm. cbn [match_items] in Hm.
  apply class_star_spec in Hm as (l1 & b & -> & H1 & Hb).
  apply class_star_spec in Hb as (p & b' & -> & Hp & Hb).
  apply class_plus_spec in Hb as (l2 & nl & -> & _ & H2 & Hnl).
  apply at_dollar_spec in Hnl.
  rewrite !elem_of_app in Hin.
  destruct Hin as [Hin|[Hin|[Hin|Hin]]].
  - by apply (forallb_not_elem is_ascii_letter l1 Ch.space).
  - by apply (forallb_not_elem is_word_punct p Ch.space).
  - by apply (forallb_not_elem is_ascii_letter l2 Ch.space).
  - destruct Hnl as [-> | ->]; [by apply elem_of_nil in Hin|].
    by apply list_elem_of_singleton in Hin.
Qed.

Lemma word_match_no_space_witness :
  word_match [0x69; 0x63; 0x65; Ch.space; 0x61; 0x67; 0x65] = false.
Proof.
  apply (word_match_no_space [0x69; 0x63; 0x65; Ch.space; 0x61; 0x67; 0x65]).
  do 3 apply list_elem_of_further. apply list_elem_of_here.
Defined.

(** ** The program around [check_char] *)

Lemma Return_bind {A B} (a : A) (f : A → outcome B) : Return a ≫= f = f a.
Proof. done. Qed.

Lemma Return_inj {A} (a b : A) : Return a = Return b → a = b.
Proof. by intros [= ->]. Qed.

Lemma Return_pair_inj {A B} (a c : A) (b d : B) :
  @Return (A * B) (a, b) = Return (c, d) → a = c ∧ b = d.
Proof. by intros [= -> ->]. Qed.

Lemma json_get_inv v k x :
  json_get v k = Return x → ∃ o, v = JObj o ∧ x = default JNull (o !! k).
Proof. destruct v; try done. intros [= <-]. by eexists. Qed.

(** *** [check_char] on JSON values *)

Lemma check_char_json_str entry raw :
  entry !! "ipa" = Some (JStr raw) →
  check_char_json entry
  = Return ((engine raw).1, <["ipa" := JStr (engine raw).2]> entry).
Proof.
  intros Hipa. unfold check_char_json. rewrite Hipa.
  cbn [default from_option id contains_bracket json_str].
  rewrite !Return_bind, tokenize_spec. cbn [of_res]. rewrite Return_bind.
  unfold engine, normalized. cbn [fst snd].
  by destruct (final_check _), (error _).
Qed.

Lemma check_char_json_nonstr entry :
  (∀ raw, entry !! "ipa" ≠ Some (JStr raw)) →
  ∃ e, check_char_json entry = Throw e.
Proof.
  intros Hns. unfold check_char_json.
  destruct (entry !! "ipa") as [[| | |raw| |]|];
    [| | |by destruct (Hns raw)| | |];
    cbn [default from_option id contains_bracket json_str];
    eexists; reflexivity.
Qed.

Lemma check_char_json_inv entry e r :
  check_char_json entry = Return (e, r) →
  ∃ raw, entry !! "ipa" = Some (JStr raw)
         ∧ e = (engine raw).1
         ∧ r = <["ipa" := JStr (engine raw).2]> entry.
Proof.
  intros Hrun.
  destruct (entry !! "ipa") as [v|] eqn:Hipa.
  - assert ((∃ raw, v = JStr raw) ∨ ¬ (∃ raw, v = JStr raw)) as [[raw ->]|Hns]
      by (destruct v; first [by left; eexists | by right; intros [? ?]]).
    + rewrite (check_char_json_str _ raw Hipa) in Hrun.
      apply Return_pair_inj in Hrun as [<- <-]. by exists raw.
    + destruct (check_char_json_nonstr entry) as [ex Hex].
      * intros raw Hraw. apply Hns. exists raw. congruence.
      * rewrite Hex in Hrun. discriminate Hrun.
  - destruct (check_char_json_nonstr entry) as [ex Hex].
    + intros raw Hraw. congruence.
    + rewrite Hex in Hrun. discriminate Hrun.
Qed.

(** The record that the loop over the variants passes to [check_char]. *)
Lemma variant_record (ipa tags x : json) :
  <["ipa" := x]> ({[ "ipa" := ipa; "tags" := tags ]} : gmap string json)
  = {[ "ipa" := x; "tags" := tags ]}.
Proof. apply insert_insert_eq. Qed.

(** *** The loop over the variants *)

Lemma variant_lookup_ipa (ipa tags : json) :
  ({[ "ipa" := ipa; "tags" := tags ]} : gmap string json) !! "ipa" = Some ipa.
Proof. apply lookup_insert_eq. Qed.

Lemma sounds_loop_rejected s rest acc :
  rejected_variant s → sounds_loop (s :: rest) acc = Return acc.
Proof.
  intros (o & raw & -> & Hipa & Hne & Hrej). cbn [sounds_loop json_get].
  rewrite Hipa. cbn [default from_option id]. rewrite ?Return_bind.
  cbn [json_truthy]. destruct raw as [|c raw]; [done|]. cbn [is_nil negb].
  rewrite ?Return_bind.
  rewrite (check_char_json_str _ (c :: raw) (variant_lookup_ipa _ _)).
  rewrite ?Return_bind. by rewrite Hrej.
Qed.

Lemma engine_accepts raw :
  (engine raw).1 = false →
  ∀ u, u ∈ py_split (remove_stress (engine raw).2) → u ∈ PHONEMES.
Proof.
  unfold engine. cbn [fst snd]. intros [_ Hfc]%orb_false_elim u Hu.
  apply negb_false_iff in Hfc. by apply (final_check_units _ _ Hfc).
Qed.

Lemma sounds_loop_validated vs acc out :
  Forall validated acc → sounds_loop vs acc = Return out →
  Forall validated out.
Proof.
  revert acc. induction vs as [|s vs IH]; intros acc Hacc Hrun.
  - cbn [sounds_loop] in Hrun. by apply Return_inj in Hrun as <-.
  - cbn [sounds_loop] in Hrun.
    destruct (json_get s "ipa") as [c|e]; [|done].
    rewrite ?Return_bind in Hrun.
    destruct (json_truthy c); [|by eapply IH].
    rewrite ?Return_bind in Hrun.
    destruct (json_get s "tags") as [tags|e]; [|done].
    rewrite ?Return_bind in Hrun.
    destruct (check_char_json _) as [[rej data]|e] eqn:Hcc; [|done].
    rewrite ?Return_bind in Hrun.
    destruct rej; [by apply Return_inj in Hrun as <-|].
    eapply IH; [|exact Hrun]. apply Forall_app_2; [done|].
    apply Forall_singleton.
    apply check_char_json_inv in Hcc as (raw & Hipa & He & ->).
    rewrite variant_record. exists (engine raw).2, tags. split; [done|].
    by apply engine_accepts.
Qed.

(** *** The loop over the senses *)

Lemma json_truthy_present (o : gmap string json) (k : string) :
  json_truthy (default JNull (o !! k)) = true → is_Some (o !! k).
Proof. by destruct (o !! k). Qed.

Lemma clean_sense_obj o : clean_sense (JObj o) = Return (JObj (cleaned o)).
Proof.
  unfold clean_sense, cleaned. cbn [json_get]. rewrite Return_bind.
  destruct (json_truthy (default JNull (o !! "raw_glosses"))) eqn:H1.
  - apply json_truthy_present in H1 as [x Hx]. cbn [json_del].
    rewrite Hx, Return_bind. cbn [json_get]. rewrite Return_bind.
    destruct (json_truthy (default JNull (delete "raw_glosses" o !! "categories")))
      eqn:H2; [|done].
    apply json_truthy_present in H2 as [y Hy]. cbn [json_del]. by rewrite Hy.
  - rewrite Return_bind. cbn [json_get]. rewrite Return_bind.
    destruct (json_truthy (default JNull (o !! "categories"))) eqn:H2; [|done].
    apply json_truthy_present in H2 as [y Hy]. cbn [json_del]. by rewrite Hy.
Qed.

Lemma clean_sense_inv s out :
  clean_sense s = Return out → ∃ o, s = JObj o ∧ out = JObj (cleaned o).
Proof.
  destruct s as [| | | | |o]; try done. rewrite clean_sense_obj.
  intros H%Return_inj. by exists o.
Qed.

Lemma senses_loop_inv l acc out :
  senses_loop l acc = Return out →
  ∃ os, l = JObj <$> os ∧ out = acc ++ (JObj ∘ cleaned <$> os).
Proof.
  revert acc. induction l as [|s l IH]; intros acc Hrun.
  - cbn [senses_loop] in Hrun. apply Return_inj in Hrun as <-.
    exists []. by rewrite app_nil_r.
  - cbn [senses_loop] in Hrun.
    destruct (clean_sense s) as [sense|e] eqn:Hs; [|done].
    rewrite Return_bind in Hrun.
    apply clean_sense_inv in Hs as (o & -> & ->).
    apply IH in Hrun as (os & -> & ->).
    exists (o :: os). split; [done|]. by rewrite <- app_assoc.
Qed.

Lemma senses_loop_objs os acc :
  senses_loop (JObj <$> os) acc = Return (acc ++ (JObj ∘ cleaned <$> os)).
Proof.
  revert acc. induction os as [|o os IH]; intros acc.
  - by rewrite app_nil_r.
  - cbn [fmap list_fmap senses_loop]. rewrite clean_sense_obj, Return_bind.
    fold (fmap (M:=list) JObj os). rewrite IH. by rewrite <- app_assoc.
Qed.

Lemma sounds_loop_cut vs1 v vs2 acc :
  rejected_variant v →
  sounds_loop (vs1 ++ v :: vs2) acc = sounds_loop (vs1 ++ [v]) acc.
Proof.
  intros Hv. revert acc. induction vs1 as [|s vs1 IH]; intros acc.
  - cbn [app]. by rewrite !sounds_loop_rejected.
  - cbn [app sounds_loop].
    destruct (json_get s "ipa") as [c|e]; [|done].
    rewrite ?Return_bind.
    destruct (json_truthy c); [|by apply IH].
    rewrite ?Return_bind.
    destruct (json_get s "tags") as [tags|e]; [|done].
    rewrite ?Return_bind.
    destruct (check_char_json _) as [[[] data]|e]; [done| |done].
    rewrite ?Return_bind. by apply IH.
Qed.

Lemma sounds_loop_trace vs acc out :
  sounds_loop vs acc = Return out →
  ∃ vs' ds, vs' `sublist_of` vs ∧ Forall2 accepted vs' ds ∧ out = acc ++ ds.
Proof.
  revert acc out. induction vs as [|s vs IH]; intros acc out Hrun.
  - cbn [sounds_loop] in Hrun. apply Return_inj in Hrun as <-.
    exists [], []. by rewrite app_nil_r.
  - cbn [sounds_loop] in Hrun.
    destruct (json_get s "ipa") as [c|e] eqn:Hc; [|done].
    rewrite ?Return_bind in Hrun.
    destruct (json_truthy c).
    2:{ apply IH in Hrun as (vs' & ds & Hsub & Hall & ->).
        exists vs', ds. split; [by apply sublist_cons|done]. }
    rewrite ?Return_bind in Hrun.
    destruct (json_get s "tags") as [tags|e] eqn:Ht; [|done].
    rewrite ?Return_bind in Hrun.
    destruct (check_char_json _) as [[rej data]|e] eqn:Hcc; [|done].
    rewrite ?Return_bind in Hrun.
    destruct rej.
    { apply Return_inj in Hrun as <-. exists [], [].
      split; [apply sublist_nil_l|]. by rewrite app_nil_r. }
    apply check_char_json_inv in Hcc as (raw & Hipa & He & ->).
    rewrite variant_record in Hrun. rewrite variant_lookup_ipa in Hipa.
    apply IH in Hrun as (vs' & ds & Hsub & Hall & ->).
    apply json_get_inv in Hc as (o & -> & ->).
    apply json_get_inv in Ht as (o' & Ho & ->).
    injection Ho as <-.
    exists (JObj o :: vs'), (JObj {[ "ipa" := JStr (engine raw).2;
                                     "tags" := default JNull (o !! "tags") ]} :: ds).
    split; [by apply sublist_skip|]. split; [|by rewrite <- app_assoc].
    constructor; [|done]. exists o, raw.
    destruct (o !! "ipa") as [x|] eqn:Hx; [|done].
    cbn [default from_option id] in Hipa. by rewrite Hipa.
Qed.

(** *** One line *)

Lemma process_line_obj (o : gmap string json) :
  process_line (JObj o)
  = match default JNull (o !! "word") with
    | JStr w =>
        if word_match w then
          variants ← json_iter (default JNull (o !! "sounds"));
          sounds ← sounds_loop variants [];
          l ← json_iter (default JNull (o !! "senses"));
          senses ← senses_loop l [];
          Return (Some (JObj (<["senses" := JArr senses]>
                                (<["sounds" := JArr sounds]> o))))
        else Return None
    | _ => Throw (Exn TypeError)
    end.
Proof.
  unfold process_line. cbn [json_get]. rewrite Return_bind.
  destruct (default JNull (o !! "word")) as [| | |w| |]; try done.
  cbn [re_match_word]. rewrite Return_bind.
  destruct (word_match w); [|done]. cbn [negb]. rewrite !Return_bind.
  destruct (json_iter (default JNull (o !! "sounds"))) as [variants|e]; [|done].
  rewrite !Return_bind.
  destruct (sounds_loop variants []) as [sounds|e]; [|done].
  rewrite !Return_bind.
  destruct (json_iter (default JNull (o !! "senses"))) as [l|e]; [|done].
  rewrite !Return_bind.
  destruct (senses_loop l []) as [senses|e]; [|done].
  rewrite !Return_bind. cbn [json_update]. by rewrite !Return_bind.
Qed.

Lemma process_line_inv line e :
  process_line line = Return (Some e) →
  ∃ o w variants sounds os,
    line = JObj o
    ∧ o !! "word" = Some (JStr w) ∧ word_match w = true
    ∧ json_iter (default JNull (o !! "sounds")) = Return variants
    ∧ sounds_loop variants [] = Return sounds
    ∧ json_iter (default JNull (o !! "senses")) = Return (JObj <$> os)
    ∧ e = JObj (<["senses" := JArr (JObj ∘ cleaned <$> os)]>
                  (<["sounds" := JArr sounds]> o)).
Proof.
  destruct line as [| | | | |o]; try done. rewrite process_line_obj.
  destruct (o !! "word") as [[| | |w| |]|] eqn:Hw; try done.
  cbn [default from_option id].
  destruct (word_match w) eqn:Hm; [|done].
  destruct (json_iter (default JNull (o !! "sounds"))) as [variants|?] eqn:Hv;
    [|done].
  rewrite Return_bind.
  destruct (sounds_loop variants []) as [sounds|?] eqn:Hs; [|done].
  rewrite Return_bind.
  destruct (json_iter (default JNull (o !! "senses"))) as [l|?] eqn:Hl; [|done].
  rewrite Return_bind.
  destruct (senses_loop l []) as [senses|?] eqn:Hss; [|done].
  rewrite Return_bind. intros He%Return_inj.
  apply senses_loop_inv in Hss as (os & -> & ->).
  exists o, w, variants, sounds, os.
  repeat (split; [done|]). cbn [app] in He. congruence.
Qed.

Lemma main_loop_app lines entries :
  main_loop lines entries
  = entries ++ omap (fun line => match process_line line with
                                 | Return (Some e) => Some e
                                 | _ => None
                                 end) lines.
Proof.
  revert entries. induction lines as [|line lines IH]; intros entries.
  - by rewrite app_nil_r.
  - cbn [main_loop omap list_omap].
    destruct (process_line line) as [[e|]|]; rewrite IH; [|done..].
    by rewrite <- app_assoc.
Qed.

(** *** The dictionary that is printed *)

Lemma wiki_lookup_update d w v w' :
  wiki_lookup (wiki_update d w v) w'
  = if bool_decide (w = w') then Some v else wiki_lookup d w'.
Proof.
  unfold wiki_lookup. induction d as [|[k x] d IH]; cbn [wiki_update find].
  - cbn [fst]. by destruct (bool_decide (w = w')).
  - destruct (bool_decide (k = w)) eqn:Hk; cbn [find fst].
    + apply bool_decide_eq_true in Hk as ->.
      by destruct (bool_decide (w = w')).
    + apply bool_decide_eq_false in Hk.
      destruct (bool_decide (k = w')) eqn:Hk'; [|exact IH].
      apply bool_decide_eq_true in Hk' as ->.
      by rewrite bool_decide_eq_false_2 by congruence.
Qed.

Lemma wiki_update_keys d w v :
  (wiki_update d w v).*1 = if bool_decide (w ∈ d.*1) then d.*1 else d.*1 ++ [w].
Proof.
  induction d as [|[k x] d IH]; cbn [wiki_update fmap list_fmap fst].
  - done.
  - destruct (bool_decide (k = w)) eqn:Hk.
    + apply bool_decide_eq_true in Hk as ->.
      rewrite bool_decide_eq_true_2 by apply list_elem_of_here. done.
    + apply bool_decide_eq_false in Hk. cbn [fmap list_fmap fst].
      fold (fmap (M:=list) (@fst pystr (list json)) (wiki_update d w v)).
      fold (fmap (M:=list) (@fst pystr (list json)) d).
      rewrite IH. destruct (bool_decide (w ∈ d.*1)) eqn:Hin.
      * apply bool_decide_eq_true in Hin.
        by rewrite bool_decide_eq_true_2 by by apply list_elem_of_further.
      * apply bool_decide_eq_false in Hin.
        rewrite bool_decide_eq_false_2; [done|].
        intros [?|?]%elem_of_cons; congruence.
Qed.

Lemma compress_step wl o w rest d :
  o !! "word" = Some (JStr w) →
  compress wl (JObj o :: rest) d
  = compress wl rest
      (if bool_decide (w ∈ wl)
       then wiki_update d w (default [] (wiki_lookup d w) ++ [summary o])
       else d).
Proof.
  intros Hw. cbn [compress json_get]. rewrite Hw.
  cbn [default from_option id]. rewrite Return_bind.
  destruct (bool_decide (w ∈ wl)); [|done]. cbn [negb json_del].
  rewrite Hw.
  assert (shortened (JObj (delete "word" o)) = Return (summary o)) as Hs.
  { unfold shortened, summary. cbn [json_get]. rewrite !Return_bind.
    by rewrite !lookup_delete_ne by done. }
  unfold wiki_item.
  destruct (wiki_lookup d w) as [pos_list|] eqn:Hl.
  - rewrite bool_decide_eq_true_2 by by eexists.
    rewrite !Return_bind, Hs. by rewrite Return_bind.
  - rewrite bool_decide_eq_false_2 by by intros [? ?].
    rewrite !Return_bind, Hs. by rewrite Return_bind.
Qed.

Lemma compress_spec wl entries d :
  Forall (fun e => is_Some (word_of e)) entries →
  ∃ d', compress wl entries d = Return d'
        ∧ (NoDup d.*1 → NoDup d'.*1)
        ∧ ∀ w, wiki_lookup d' w
               = match wiki_lookup d w,
                       (if bool_decide (w ∈ wl) then group w entries else [])
                 with
                 | Some g0, g => Some (g0 ++ g)
                 | None, [] => None
                 | None, g => Some g
                 end.
Proof.
  intros Hall. revert d. induction Hall as [|e entries [w He] _ IH]; intros d.
  - exists d. split; [done|]. split; [done|]. intros w.
    destruct (wiki_lookup d w); [|by destruct (bool_decide _)].
    destruct (bool_decide _); by rewrite app_nil_r.
  - destruct e as [| | | | |o]; try done. cbn [word_of] in He.
    destruct (o !! "word") as [[| | |w0| |]|] eqn:Hw; try done.
    injection He as ->. rewrite (compress_step wl o w entries d Hw).
    destruct (IH (if bool_decide (w ∈ wl)
                  then wiki_update d w (default [] (wiki_lookup d w) ++ [summary o])
                  else d)) as (d' & Hrun & Hnd & Hd').
    exists d'. split; [done|]. split.
    { intros Hd. apply Hnd. destruct (bool_decide (w ∈ wl)); [|done].
      rewrite wiki_update_keys. destruct (bool_decide (w ∈ d.*1)) eqn:Hin; [done|].
      apply bool_decide_eq_false in Hin. apply NoDup_app. split; [done|].
      split; [|apply NoDup_singleton].
      intros x Hx ->%list_elem_of_singleton. done. }
    intros w'. rewrite Hd'. unfold group. cbn [omap list_omap word_of].
    rewrite Hw.
    destruct (bool_decide (w ∈ wl)) eqn:Hwl.
    + rewrite wiki_lookup_update.
      destruct (bool_decide (w = w')) eqn:Hww.
      * apply bool_decide_eq_true in Hww as <-. rewrite Hwl.
        rewrite bool_decide_eq_true_2 by done.
        destruct (wiki_lookup d w) as [g0|]; cbn [default from_option id app].
        -- by rewrite <- app_assoc.
        -- done.
      * apply bool_decide_eq_false in Hww.
        rewrite (bool_decide_eq_false_2 (Some w = Some w')) by congruence.
        done.
    + destruct (bool_decide (w' ∈ wl)) eqn:Hwl'; [|done].
      rewrite (bool_decide_eq_false_2 (Some w = Some w')); [done|].
      intros [= ->]. congruence.
Qed.

Lemma process_line_word line e :
  process_line line = Return (Some e) →
  ∃ o o', line = JObj o ∧ e = JObj o'
          ∧ word_of e = word_of line ∧ is_Some (word_of line)
          ∧ summary o' = summary o.
Proof.
  intros (o & w & variants & sounds & os & -> & Hw & _ & _ & _ & _ & ->)
    %process_line_inv.
  eexists o, _. split; [done|]. split; [done|].
  cbn [word_of]. unfold summary.
  rewrite !lookup_insert_ne by done. rewrite Hw. by eauto.
Qed.

Lemma kept_Some line e : process_line line = Return (Some e) → kept line = true.
Proof. unfold kept. by intros ->. Qed.

Lemma kept_inv line : kept line = true → ∃ e, process_line line = Return (Some e).
Proof. unfold kept. destruct (process_line line) as [[e|]|]; by eauto. Qed.

Lemma group_kept w lines :
  group w (main_loop lines []) = group w (filter (fun l => kept l = true) lines).
Proof.
  rewrite main_loop_app. cbn [app].
  induction lines as [|line lines IH]; [done|].
  rewrite filter_cons. cbn [omap list_omap].
  destruct (decide (kept line = true)) as [Hk|Hk].
  - destruct (kept_inv _ Hk) as [e Hp]. rewrite Hp.
    apply process_line_word in Hp as (o & o' & -> & -> & Hwo & _ & Hsum).
    unfold group in *. cbn [omap list_omap]. rewrite Hwo, Hsum.
    destruct (bool_decide _); [|exact IH]. f_equal. exact IH.
  - destruct (process_line line) as [[e|]|] eqn:Hp; [|exact IH..].
    by destruct Hk; apply (kept_Some _ e).
Qed.

Lemma main_loop_words lines :
  Forall (fun e => is_Some (word_of e)) (main_loop lines []).
Proof.
  rewrite main_loop_app. cbn [app].
  induction lines as [|line lines IH]; [by constructor|].
  cbn [omap list_omap].
  destruct (process_line line) as [[e|]|] eqn:Hp; [|done..].
  constructor; [|done].
  apply process_line_word in Hp as (o & o' & -> & -> & Hwo & Hs & _).
  by rewrite Hwo.
Qed.

Lemma sounds_loop_plain vs acc :
  Forall plain_variant vs → ∃ out, sounds_loop vs acc = Return out.
Proof.
  intros Hall. revert acc.
  induction Hall as [|v vs (o & -> & Hipa) _ IH]; intros acc.
  - by exists acc.
  - cbn [sounds_loop json_get]. rewrite ?Return_bind.
    destruct Hipa as [Hipa|[Hipa|[raw Hipa]]]; rewrite Hipa;
      cbn [default from_option id json_truthy]; [apply IH..|].
    destruct raw as [|c raw]; cbn [is_nil negb]; [apply IH|].
    rewrite ?Return_bind.
    rewrite (check_char_json_str _ (c :: raw) (variant_lookup_ipa _ _)).
    rewrite ?Return_bind. destruct (engine (c :: raw)).1; [by eexists|].
    apply IH.
Qed.

Lemma cleaned_spec (o : gmap string json) (k : string) :
  cleaned o !! k
  = if (bool_decide (k = "raw_glosses") || bool_decide (k = "categories"))
       && json_truthy (default JNull (o !! k))
    then None else o !! k.
Proof.
  unfold cleaned.
  destruct (decide (k = "raw_glosses")) as [->|H1].
  { rewrite bool_decide_eq_true_2 by done. cbn [orb andb].
    destruct (json_truthy (default JNull (o !! "raw_glosses"))) eqn:Hrg.
    - destruct (json_truthy (default JNull (delete "raw_glosses" o !! "categories")));
        [rewrite lookup_delete_ne by done|]; by rewrite lookup_delete_eq.
    - destruct (json_truthy (default JNull (o !! "categories")));
        [rewrite lookup_delete_ne by done|]; done. }
  rewrite (bool_decide_eq_false_2 (k = "raw_glosses")) by done. cbn [orb].
  assert (∀ o1 : gmap string json,
            o1 !! k = o !! k → o1 !! "categories" = o !! "categories" →
            (if json_truthy (default JNull (o1 !! "categories"))
             then delete "categories" o1 else o1) !! k
            = if bool_decide (k = "categories")
                 && json_truthy (default JNull (o !! k))
              then None else o !! k) as Hcat.
  { intros o1 Hk Hc. rewrite Hc.
    destruct (decide (k = "categories")) as [->|H2].
    - rewrite bool_decide_eq_true_2 by done. cbn [andb].
      destruct (json_truthy (default JNull (o !! "categories")));
        [by rewrite lookup_delete_eq|done].
    - rewrite (bool_decide_eq_false_2 (k = "categories")) by done. cbn [andb].
      destruct (json_truthy (default JNull (o !! "categories")));
        [by rewrite lookup_delete_ne|done]. }
  destruct (json_truthy (default JNull (o !! "raw_glosses")));
    apply Hcat; by rewrite ?lookup_delete_ne by done.
Qed.

(** *** The properties of the program *)

(** The pronunciations of a kept line: each record of its new [sounds]
    list is made from a variant of the line, in the order of the line,
    with the variant's tags and the normalized transcription that
    [check_char] accepted; every unit of a kept transcription, without its
    stress marker, is a phoneme of the inventory. *)
Theorem kept_sounds_accepted (o o' : gmap string json) (variants : list json) :
  process_line (JObj o) = Return (Some (JObj o')) →
  o !! "sounds" = Some (JArr variants) →
  ∃ vs ds,
    o' !! "sounds" = Some (JArr ds)
    ∧ vs `sublist_of` variants
    ∧ Forall2 accepted vs ds
    ∧ Forall validated ds.
Proof.
  intros Hrun Hs.
  apply process_line_inv
    in Hrun as (o0 & w & vs0 & sounds & os & Ho & _ & _ & Hit & Hloop & _ & He).
  injection Ho as <-. injection He as ->.
  rewrite Hs in Hit. cbn [default from_option id json_iter] in Hit.
  apply Return_inj in Hit as <-.
  destruct (sounds_loop_trace _ _ _ Hloop) as (vs & ds & Hsub & Hacc & ->).
  exists vs, ds. cbn [app].
  rewrite lookup_insert_ne, lookup_insert_eq by done.
  repeat (split; [done|]).
  by apply (sounds_loop_validated variants []).
Qed.

Lemma kept_sounds_accepted_witness :
  let o : gmap string json :=
    {[ "word" := JStr [0x74; 0x61; 0x70];
       "sounds" := JArr [JObj {[ "ipa" := JStr [Ch.slash; Ch.t; Ch.ash; Ch.p;
                                                 Ch.slash] ]};
                         JObj {[ "audio" := JStr [0x74] ]}];
       "senses" := JArr [] ]} in
  let o' : gmap string json :=
    <["senses" := JArr []]>
      (<["sounds" := JArr [JObj {[ "ipa" := JStr [Ch.t; Ch.space; Ch.ash;
                                                   Ch.space; Ch.p];
                                   "tags" := JNull ]}]]> o) in
  ∃ vs ds,
    o' !! "sounds" = Some (JArr ds)
    ∧ vs `sublist_of` [JObj {[ "ipa" := JStr [Ch.slash; Ch.t; Ch.ash; Ch.p;
                                              Ch.slash] ]};
                       JObj {[ "audio" := JStr [0x74] ]}]
    ∧ Forall2 accepted vs ds
    ∧ Forall validated ds.
Proof.
  intros o o'. apply (kept_sounds_accepted o o').
  - vm_compute. reflexivity.
  - vm_compute. reflexivity.
Defined.

(** A rejected variant ends the loop over the variants: what follows it in
    the [sounds] of a line, well formed or not, has no effect on what the
    line is turned into. *)
Theorem variants_after_rejection_ignored
    (o : gmap string json) (vs1 vs2 : list json) (v : json) :
  rejected_variant v →
  o !! "sounds" = Some (JArr (vs1 ++ v :: vs2)) →
  process_line (JObj o)
  = process_line (JObj (<["sounds" := JArr (vs1 ++ [v])]> o)).
Proof.
  intros Hv Hs. rewrite !process_line_obj.
  rewrite !(lookup_insert_ne _ "sounds") by done.
  rewrite lookup_insert_eq, Hs. cbn [default from_option id json_iter].
  destruct (default JNull (o !! "word")) as [| | |w| |]; try done.
  destruct (word_match w); [|done].
  rewrite !Return_bind, (sounds_loop_cut vs1 v vs2 []) by done.
  destruct (sounds_loop (vs1 ++ [v]) []) as [sounds|e]; [|done].
  rewrite !Return_bind.
  destruct (json_iter (default JNull (o !! "senses"))) as [l|e]; [|done].
  rewrite !Return_bind.
  destruct (senses_loop l []) as [senses|e]; [|done].
  rewrite !Return_bind. by rewrite insert_insert_eq.
Qed.

Lemma variants_after_rejection_ignored_witness :
  let bad := JObj {[ "ipa" := JStr [Ch.slash; Ch.t; 0x78; Ch.p; Ch.slash] ]} in
  let good := JObj {[ "ipa" := JStr [Ch.slash; Ch.t; Ch.ash; Ch.p; Ch.slash] ]} in
  let o : gmap string json :=
    {[ "word" := JStr [0x74; 0x61; 0x70];
       "sounds" := JArr ([good] ++ bad :: [good; JNum 3]);
       "senses" := JArr [] ]} in
  process_line (JObj o)
  = process_line (JObj (<["sounds" := JArr ([good] ++ [bad])]> o)).
Proof.
  intros bad good o.
  apply (variants_after_rejection_ignored o [good] [good; JNum 3] bad).
  - exists {[ "ipa" := JStr [Ch.slash; Ch.t; 0x78; Ch.p; Ch.slash] ]},
           [Ch.slash; Ch.t; 0x78; Ch.p; Ch.slash].
    split; [reflexivity|]. split; [vm_compute; reflexivity|].
    split; [discriminate|vm_compute; reflexivity].
  - vm_compute. reflexivity.
Defined.

(** The senses of a kept line: the new [senses] list holds, for each sense
    of the line and in the same order, the sense without its [raw_glosses]
    and its [categories] where these were non-empty; an empty or null
    [raw_glosses] or [categories] stays, and so does every other key. *)
Theorem kept_senses_cleaned (o o' : gmap string json) (l : list json) :
  process_line (JObj o) = Return (Some (JObj o')) →
  o !! "senses" = Some (JArr l) →
  ∃ l', o' !! "senses" = Some (JArr l') ∧ Forall2 sense_cleaned l l'.
Proof.
  intros Hrun Hs.
  apply process_line_inv
    in Hrun as (o0 & w & vs0 & sounds & os & Ho & _ & _ & _ & _ & Hit & He).
  injection Ho as <-. injection He as ->.
  rewrite Hs in Hit. cbn [default from_option id json_iter] in Hit.
  apply Return_inj in Hit as ->.
  eexists. split; [apply lookup_insert_eq|].
  clear Hs. induction os as [|s os IH]; [by constructor|].
  constructor; [|exact IH].
  exists s, (cleaned s). split; [done|]. split; [done|]. apply cleaned_spec.
Qed.

Lemma kept_senses_cleaned_witness :
  let sense : gmap string json :=
    {[ "glosses" := JArr [JStr [0x61]];
       "raw_glosses" := JArr [JStr [0x62]];
       "categories" := JArr [] ]} in
  let o : gmap string json :=
    {[ "word" := JStr [0x74; 0x61; 0x70];
       "sounds" := JArr [];
       "senses" := JArr [JObj sense] ]} in
  let o' : gmap string json :=
    <["senses" := JArr [JObj (delete "raw_glosses" sense)]]>
      (<["sounds" := JArr []]> o) in
  ∃ l', o' !! "senses" = Some (JArr l') ∧ Forall2 sense_cleaned [JObj sense] l'.
Proof.
  intros sense o o'. apply (kept_senses_cleaned o o').
  - vm_compute. reflexivity.
  - vm_compute. reflexivity.
Defined.

(** A line that reaches [entries] is an object whose head word is a string
    that passes the filter; the entry is the line with new [sounds] and
    [senses] lists, every other key is as in the line. *)
Theorem kept_entry_frame (line e : json) :
  process_line line = Return (Some e) →
  ∃ o o' w sounds senses,
    line = JObj o ∧ e = JObj o'
    ∧ o !! "word" = Some (JStr w) ∧ word_match w = true
    ∧ o' !! "sounds" = Some (JArr sounds)
    ∧ o' !! "senses" = Some (JArr senses)
    ∧ ∀ k : string, k ≠ "sounds" → k ≠ "senses" → o' !! k = o !! k.
Proof.
  intros (o & w & variants & sounds & os & -> & Hw & Hm & _ & _ & _ & ->)
    %process_line_inv.
  eexists o, _, w, sounds, _. split; [done|]. split; [done|].
  split; [done|]. split; [done|].
  split; [by rewrite lookup_insert_ne, lookup_insert_eq|].
  split; [by rewrite lookup_insert_eq|].
  intros k H1 H2. by rewrite !lookup_insert_ne.
Qed.

Lemma kept_entry_frame_witness :
  let line : gmap string json :=
    {[ "word" := JStr [0x74; 0x61; 0x70];
       "pos" := JStr [0x6e];
       "sounds" := JArr [];
       "senses" := JArr [] ]} in
  ∃ o o' w sounds senses,
    JObj line = JObj o ∧ JObj line = JObj o'
    ∧ o !! "word" = Some (JStr w) ∧ word_match w = true
    ∧ o' !! "sounds" = Some (JArr sounds)
    ∧ o' !! "senses" = Some (JArr senses)
    ∧ ∀ k : string, k ≠ "sounds" → k ≠ "senses" → o' !! k = o !! k.
Proof.
  intros line. apply (kept_entry_frame (JObj line) (JObj line)).
  vm_compute. reflexivity.
Defined.

(** A line without [word], without [sounds] or without [senses] is passed
    over: it leaves no trace in [entries]. *)
Theorem line_without_key_skipped
    (o : gmap string json) (before after : list json) :
  o !! "word" = None ∨ o !! "sounds" = None ∨ o !! "senses" = None →
  main_loop (before ++ JObj o :: after) [] = main_loop (before ++ after) [].
Proof.
  intros Hk. rewrite !main_loop_app. cbn [app].
  rewrite !omap_app. f_equal. cbn [omap list_omap].
  destruct (process_line (JObj o)) as [[e|]|] eqn:Hrun; [|done..].
  apply process_line_inv
    in Hrun as (o0 & w & vs & sounds & os & Ho & Hw & _ & Hv & _ & Hl & _).
  injection Ho as <-.
  destruct Hk as [Hk|[Hk|Hk]]; rewrite Hk in *; done.
Qed.

Lemma line_without_key_skipped_witness :
  let good : gmap string json :=
    {[ "word" := JStr [0x74; 0x61; 0x70];
       "sounds" := JArr [];
       "senses" := JArr [] ]} in
  main_loop ([JObj good] ++ JObj (delete "sounds" good) :: [JObj good]) []
  = main_loop ([JObj good] ++ [JObj good]) [].
Proof.
  intros good.
  apply (line_without_key_skipped (delete "sounds" good) [JObj good] [JObj good]).
  right. left. vm_compute. reflexivity.
Defined.

(** A line of well-formed data is kept whatever its transcriptions are:
    when the head word passes the filter, the variants are objects whose
    [ipa] is absent, null or a string, and the senses are objects, the line
    reaches [entries], also when [check_char] rejects a variant. *)
Theorem plain_line_kept
    (o : gmap string json) (w : pystr) (variants : list json)
    (os : list (gmap string json)) :
  o !! "word" = Some (JStr w) → word_match w = true →
  o !! "sounds" = Some (JArr variants) → Forall plain_variant variants →
  o !! "senses" = Some (JArr (JObj <$> os)) →
  kept (JObj o) = true.
Proof.
  intros Hw Hm Hs Hplain Hse. unfold kept. rewrite process_line_obj.
  rewrite Hw, Hs, Hse. cbn [default from_option id json_iter]. rewrite Hm.
  rewrite !Return_bind.
  destruct (sounds_loop_plain variants [] Hplain) as [sounds ->].
  rewrite !Return_bind. rewrite senses_loop_objs. by rewrite !Return_bind.
Qed.

Lemma plain_line_kept_witness :
  kept (JObj {[ "word" := JStr [0x74; 0x61; 0x70];
                "sounds" := JArr [JObj {[ "ipa" := JStr [Ch.slash; Ch.t; 0x78;
                                                         Ch.p; Ch.slash] ]}];
                "senses" := JArr (JObj <$> [∅]) ]}) = true.
Proof.
  apply (plain_line_kept _ [0x74; 0x61; 0x70]
           [JObj {[ "ipa" := JStr [Ch.slash; Ch.t; 0x78; Ch.p; Ch.slash] ]}]
           [∅]).
  - vm_compute. reflexivity.
  - vm_compute. reflexivity.
  - vm_compute. reflexivity.
  - apply Forall_singleton. eexists. split; [reflexivity|].
    right. right. eexists. vm_compute. reflexivity.
  - vm_compute. reflexivity.
Defined.

(** The program never fails after the input is read, and the dictionary it
    prints has, for every word [w], the summaries (etymology and part of
    speech) of the kept lines whose head word is [w], in the order of the
    input, when [w] is in the word list and has a kept line; other words
    are not in the dictionary.  No key occurs twice.  The [sounds] and
    [senses] that the first loop computes do not reach the dictionary. *)
Theorem main_groups (lines : list json) (wikipedia_list : list pystr) :
  ∃ d,
    main lines wikipedia_list = Return d
    ∧ NoDup d.*1
    ∧ ∀ w,
        wiki_lookup d w
        = match (if bool_decide (w ∈ wikipedia_list)
                 then group w (filter (fun l => kept l = true) lines)
                 else []) with
          | [] => None
          | g => Some g
          end.
Proof.
  unfold main.
  destruct (compress_spec wikipedia_list (main_loop lines []) []
              (main_loop_words lines)) as (d & Hrun & Hnd & Hd).
  exists d. split; [done|]. split; [apply Hnd, NoDup_nil_2|].
  intros w. rewrite Hd, group_kept. cbn [wiki_lookup find fmap option_fmap].
  done.
Qed.
